(** * Verification of selected components of the planner's search core

    The development embeds, function by function, the following sources:
    - [src/search/pdbs/validation.cc]                        (Module [Validation])
    - [src/search/algorithms/segmented_vector.h]             (Modules [SegVec]
      and [SegArrayVec])
    - [src/search/heuristics/max_heuristic.cc]               (Module [MaxHeuristic],
      with section 4.4 of the specification in Module [MaxHeuristic.Spec44])
    - [src/search/operator_counting/operator_counting_heuristic.cc]
                                                             (Module [OperatorCounting])
    - [src/search/landmarks/landmark_sum_heuristic.cc]       (Module [LandmarkSum])
    - [src/search/search_algorithms/eager_search.cc]         (Module [Eager])
    - [src/search/merge_and_shrink/shrink_bucket_based.cc]   (Module
      [ShrinkBucketBased])

    Module [MinQueue] holds the queue discipline shared by the heuristic
    and the open list.

    Conventions.  A C++ [int] is a [Z]; signed overflow is undefined in C++
    and no theorem below depends on a sum leaving the [int] range.  A
    [size_t] used as an index or a length is a [nat]; where a function
    mixes [int] and [size_t], the conversions are written out.  A call of
    [utils::exit_with] ends the process: functions that may reach it return
    an [outcome].  Output to the log and to [cerr] is modelled only where a
    function is specified by it. *)

From Stdlib Require Import ZArith List Lia Sorted.
From stdpp Require Import base option list gmap strings.

Local Open Scope Z_scope.

(** ** Process exit *)

(** The members of [utils::ExitCode] that the embedded sources name. *)
Inductive ExitCode : Type :=
  | SEARCH_CRITICAL_ERROR
  | SEARCH_INPUT_ERROR.

Inductive outcome (A : Type) : Type :=
  | Returns (a : A)
  | Exits (code : ExitCode).
Arguments Returns {A} a.
Arguments Exits {A} code.

(** ** Pattern validation  ([pdbs/validation.cc]) *)

Module Validation.

(** [std::sort] on a [vector<int>]: the ascending arrangement of the
    elements, built here by insertion. *)
Fixpoint insert_sorted (x : Z) (l : list Z) : list Z :=
  match l with
  | [] => [x]
  | y :: t => if x <=? y then x :: l else y :: insert_sorted x t
  end.

Definition sort (l : list Z) : list Z := foldr insert_sorted [] l.

(** [std::unique] followed by [erase(it, end)]: one representative of each
    run of equal neighbours is kept. *)
Fixpoint unique (l : list Z) : list Z :=
  match l with
  | [] => []
  | x :: t =>
      match t with
      | [] => [x]
      | y :: _ => if x =? y then unique t else x :: unique t
      end
  end.

Definition front (l : list Z) : Z := hd 0 l.
Definition back (l : list Z) : Z := List.last l 0.

Definition warn_duplicates : string :=
  "Warning: duplicate variables in pattern have been removed".

(** The function returns the normalised pattern together with the lines
    written to the log. *)
Definition validate_and_normalize_pattern
    (num_variables : Z) (log_is_warning : bool) (pattern : list Z)
  : outcome (list Z * list string) :=
  let sorted := sort pattern in
  let pattern' := unique sorted in
  let log :=
    if negb (length pattern' =? length sorted)%nat && log_is_warning
    then [warn_duplicates] else [] in
  match pattern' with
  | [] => Returns (pattern', log)
  | _ :: _ =>
      if front pattern' <? 0 then Exits SEARCH_CRITICAL_ERROR
      else if back pattern' >=? num_variables then Exits SEARCH_CRITICAL_ERROR
      else Returns (pattern', log)
  end.

Definition out_of_range (num_variables : Z) (v : Z) : Prop :=
  v < 0 ∨ num_variables <= v.

Definition in_range (num_variables : Z) (v : Z) : Prop :=
  0 <= v < num_variables.

(** *** Sorting *)

Lemma insert_sorted_elem x y l : y ∈ insert_sorted x l ↔ y = x ∨ y ∈ l.
Proof.
  induction l as [|z t IH]; simpl.
  - set_solver.
  - destruct (x <=? z); [set_solver|]. rewrite elem_of_cons, IH. set_solver.
Qed.

Lemma sort_elem y l : y ∈ sort l ↔ y ∈ l.
Proof.
  induction l as [|x t IH]; simpl; [done|].
  rewrite insert_sorted_elem, IH. set_solver.
Qed.

Lemma insert_sorted_sorted x l :
  StronglySorted Z.le l → StronglySorted Z.le (insert_sorted x l).
Proof.
  induction 1 as [|y t Hs IH Hall]; simpl.
  - repeat constructor.
  - destruct (Z.leb_spec x y).
    + constructor; [by constructor|].
      constructor; [done|]. eapply Forall_impl; [exact Hall|]. simpl. lia.
    + constructor; [done|].
      apply Forall_forall. intros z Hz.
      apply (proj1 (insert_sorted_elem _ _ _)) in Hz.
      destruct Hz as [->|Hz]; [lia|].
      rewrite Forall_forall in Hall. by apply Hall.
Qed.

Lemma sort_sorted l : StronglySorted Z.le (sort l).
Proof.
  induction l as [|x t IH]; simpl; [constructor|].
  by apply insert_sorted_sorted.
Qed.

(** *** Removing neighbouring duplicates *)

Lemma unique_elem y l : y ∈ unique l ↔ y ∈ l.
Proof.
  induction l as [|x t IH]; [done|].
  destruct t as [|z t']; [done|].
  change (unique (x :: z :: t'))
    with (if x =? z then unique (z :: t') else x :: unique (z :: t')).
  destruct (Z.eqb_spec x z) as [->|Hne].
  - rewrite IH. set_solver.
  - rewrite elem_of_cons, IH. set_solver.
Qed.

Lemma unique_strictly_sorted l :
  StronglySorted Z.le l → StronglySorted Z.lt (unique l).
Proof.
  induction 1 as [|x t Hs IH Hall]; [constructor|].
  destruct t as [|z t']; [repeat constructor|].
  change (unique (x :: z :: t'))
    with (if x =? z then unique (z :: t') else x :: unique (z :: t')).
  destruct (Z.eqb_spec x z) as [->|Hne]; [done|].
  constructor; [done|].
  apply Forall_forall. intros w Hw.
  apply (proj1 (unique_elem _ _)) in Hw.
  inversion Hs as [|? ? Hs' Hall']; subst.
  inversion Hall as [|? ? Hxz Hall'']; subst.
  apply elem_of_cons in Hw as [->|Hw]; [lia|].
  rewrite Forall_forall in Hall'. specialize (Hall' _ Hw). lia.
Qed.

Lemma strictly_sorted_NoDup l : StronglySorted Z.lt l → NoDup l.
Proof.
  induction 1 as [|x t Hs IH Hall]; constructor; [|done].
  intros Hx. rewrite Forall_forall in Hall. specialize (Hall _ Hx). lia.
Qed.

(** In a strictly increasing vector the first element is the least and the
    last one the greatest. *)
Lemma front_least x t :
  StronglySorted Z.lt (x :: t) → ∀ v, v ∈ x :: t → front (x :: t) <= v.
Proof.
  intros Hs v Hv. inversion Hs as [|? ? _ Hall]; subst. simpl.
  apply elem_of_cons in Hv as [->|Hv]; [lia|].
  rewrite Forall_forall in Hall. specialize (Hall _ Hv). lia.
Qed.

Lemma back_greatest l :
  StronglySorted Z.lt l → ∀ v, v ∈ l → v <= back l.
Proof.
  induction 1 as [|x t Hs IH Hall]; intros v Hv; [by apply elem_of_nil in Hv|].
  destruct t as [|z t'].
  - apply list_elem_of_singleton in Hv as ->. unfold back. simpl. lia.
  - change (back (x :: z :: t')) with (back (z :: t')).
    apply elem_of_cons in Hv as [->|Hv]; [|by apply IH].
    inversion Hall as [|? ? Hxz _]; subst.
    specialize (IH z ltac:(left)). lia.
Qed.

Lemma back_elem x t : back (x :: t) ∈ x :: t.
Proof.
  revert x. induction t as [|z t' IH]; intros x; [left|].
  change (back (x :: z :: t')) with (back (z :: t')). right. apply IH.
Qed.

(** *** The contract of [validate_and_normalize_pattern] *)

Lemma normalized_strictly_sorted p : StronglySorted Z.lt (unique (sort p)).
Proof. apply unique_strictly_sorted, sort_sorted. Qed.

Lemma normalized_elem v p : v ∈ unique (sort p) ↔ v ∈ p.
Proof. by rewrite unique_elem, sort_elem. Qed.

(** The two tests of the source, on the first and on the last element,
    decide whether some element is out of range. *)
Lemma range_tests_complete n x t :
  StronglySorted Z.lt (x :: t) →
  (front (x :: t) <? 0) || (back (x :: t) >=? n) = true
  ↔ Exists (out_of_range n) (x :: t).
Proof.
  intros Hs. rewrite orb_true_iff, Z.ltb_lt, Z.geb_le, Exists_exists.
  unfold out_of_range. split.
  - intros [Hlo|Hhi].
    + exists x. split; [left|]. simpl in Hlo. lia.
    + exists (back (x :: t)). split; [apply back_elem|lia].
  - intros (v & Hv & [Hlo|Hhi]).
    + left. pose proof (front_least _ _ Hs v Hv). lia.
    + right. pose proof (back_greatest _ Hs v Hv). lia.
Qed.

(** C10.  Whenever [validate_and_normalize_pattern] returns, the pattern it
    leaves is the input sorted and deduplicated: strictly increasing, free
    of duplicates, with the same variables as the input and every variable
    number in [0, num_variables).  It ends the process, with the critical
    error code, exactly when the sorted and deduplicated pattern holds a
    negative variable number or one that is at least [num_variables]. *)
Theorem validate_and_normalize_pattern_contract
    (num_variables : Z) (log_is_warning : bool) (pattern : list Z) :
  match validate_and_normalize_pattern num_variables log_is_warning pattern with
  | Returns (pattern', _) =>
      pattern' = unique (sort pattern)
      ∧ StronglySorted Z.lt pattern'
      ∧ NoDup pattern'
      ∧ (∀ v, v ∈ pattern' ↔ v ∈ pattern)
      ∧ Forall (in_range num_variables) pattern'
      ∧ ¬ Exists (out_of_range num_variables) (unique (sort pattern))
  | Exits code =>
      code = SEARCH_CRITICAL_ERROR
      ∧ Exists (out_of_range num_variables) (unique (sort pattern))
  end.
Proof.
  pose proof (normalized_strictly_sorted pattern) as Hs.
  pose proof (fun v => normalized_elem v pattern) as Hel.
  unfold validate_and_normalize_pattern.
  destruct (unique (sort pattern)) as [|x t] eqn:Hp.
  - repeat split; try done; try constructor; try apply Hel.
    by intros ?%Exists_nil.
  - pose proof (range_tests_complete num_variables x t Hs) as Hrt.
    destruct (front (x :: t) <? 0) eqn:Hlo.
    + split; [done|]. by apply Hrt.
    + destruct (back (x :: t) >=? num_variables) eqn:Hhi.
      * split; [done|]. by apply Hrt.
      * assert (Hno : ¬ Exists (out_of_range num_variables) (x :: t)).
        { intros Hex%Hrt. done. }
        repeat split; try done; try apply Hel.
        -- by apply strictly_sorted_NoDup.
        -- apply Forall_forall. intros v Hv. unfold in_range.
           destruct (decide (0 <= v < num_variables)) as [|Hout]; [done|].
           exfalso. apply Hno, Exists_exists. exists v. split; [done|].
           unfold out_of_range. lia.
Qed.

(** *** Sorting and deduplication over any total order *)

(** [std::sort] and [std::unique] as used on patterns and on pattern
    collections, for elements compared by [leb]. *)
Section Normalise.
Context {A : Type} `{EqDecision A}.
Variable leb : A → A → bool.
Hypothesis leb_total : ∀ x y, leb x y = true ∨ leb y x = true.
Hypothesis leb_trans :
  ∀ x y z, leb x y = true → leb y z = true → leb x z = true.
Hypothesis leb_antisym : ∀ x y, leb x y = true → leb y x = true → x = y.

Fixpoint insert_by (x : A) (l : list A) : list A :=
  match l with
  | [] => [x]
  | y :: t => if leb x y then x :: l else y :: insert_by x t
  end.

Definition sort_by (l : list A) : list A := foldr insert_by [] l.

Fixpoint unique_by (l : list A) : list A :=
  match l with
  | [] => []
  | x :: t =>
      match t with
      | [] => [x]
      | y :: _ => if decide (x = y) then unique_by t else x :: unique_by t
      end
  end.

Definition le_by (x y : A) : Prop := leb x y = true.

Lemma insert_by_perm x l : insert_by x l ≡ₚ x :: l.
Proof.
  induction l as [|y t IH]; simpl; [done|].
  destruct (leb x y); [done|]. rewrite IH. apply Permutation_swap.
Qed.

Lemma sort_by_perm l : sort_by l ≡ₚ l.
Proof.
  induction l as [|x t IH]; simpl; [done|].
  by rewrite insert_by_perm, IH.
Qed.

Lemma insert_by_sorted x l :
  StronglySorted le_by l → StronglySorted le_by (insert_by x l).
Proof using leb_total leb_trans.
  induction 1 as [|y t Hs IH Hall]; simpl.
  - repeat constructor.
  - destruct (leb x y) eqn:Hxy.
    + constructor; [by constructor|].
      constructor; [done|]. eapply Forall_impl; [exact Hall|].
      intros z Hyz. by eapply leb_trans.
    + assert (Hyx : leb y x = true).
      { destruct (leb_total x y); congruence. }
      constructor; [done|].
      rewrite insert_by_perm. by constructor.
Qed.

Lemma sort_by_sorted l : StronglySorted le_by (sort_by l).
Proof using leb_total leb_trans.
  induction l as [|x t IH]; simpl; [constructor|].
  by apply insert_by_sorted.
Qed.

Lemma unique_by_cons x y t :
  unique_by (x :: y :: t)
  = if decide (x = y) then unique_by (y :: t) else x :: unique_by (y :: t).
Proof. done. Qed.

Lemma unique_by_length l : (length (unique_by l) ≤ length l)%nat.
Proof.
  induction l as [|x t IH]; [done|].
  destruct t as [|y t']; [done|]. rewrite unique_by_cons.
  destruct (decide (x = y)); simpl in *; lia.
Qed.

Lemma unique_by_NoDup l : NoDup l → unique_by l = l.
Proof.
  induction 1 as [|x t Hx Hnd IH]; [done|].
  destruct t as [|y t']; [done|]. rewrite unique_by_cons.
  destruct (decide (x = y)) as [->|]; [|by rewrite IH].
  exfalso. apply Hx. left.
Qed.

Lemma unique_by_full_length l :
  StronglySorted le_by l → length (unique_by l) = length l → NoDup l.
Proof using leb_antisym.
  induction 1 as [|x t Hs IH Hall]; intros Hlen; [constructor|].
  destruct t as [|y t']; [repeat constructor; by intros ?%elem_of_nil|].
  rewrite unique_by_cons in Hlen.
  pose proof (unique_by_length (y :: t')) as Hle.
  destruct (decide (x = y)) as [->|Hne]; [simpl in *; lia|].
  simpl in Hlen. constructor; [|apply IH; simpl; lia].
  intros Hin. rewrite Forall_forall in Hall.
  inversion Hs as [|? ? _ Hall']; subst. rewrite Forall_forall in Hall'.
  apply Hne, leb_antisym; [apply Hall; left|].
  apply elem_of_cons in Hin as [->|Hin]; [apply Hall; left|by apply Hall'].
Qed.

(** Deduplicating the sorted elements removes something exactly when an
    element occurs twice. *)
Lemma unique_sort_length l :
  length (unique_by (sort_by l)) = length (sort_by l) ↔ NoDup l.
Proof using leb_total leb_trans leb_antisym.
  rewrite <- (sort_by_perm l) at 3. split.
  - apply unique_by_full_length, sort_by_sorted.
  - intros Hnd. by rewrite unique_by_NoDup.
Qed.

End Normalise.

(** The sorting and the deduplication of a pattern are the instances for
    the order of the integers. *)
Lemma sort_is_sort_by l : sort l = sort_by Z.leb l.
Proof.
  induction l as [|x t IH]; simpl; [done|]. rewrite IH.
  generalize (sort_by Z.leb t). intros s.
  induction s as [|y s IHs]; simpl; [done|]. by rewrite IHs.
Qed.

Lemma unique_is_unique_by l : unique l = unique_by l.
Proof.
  induction l as [|x t IH]; [done|].
  destruct t as [|y t']; [done|].
  change (unique (x :: y :: t'))
    with (if x =? y then unique (y :: t') else x :: unique (y :: t')).
  rewrite unique_by_cons, IH.
  destruct (Z.eqb_spec x y), (decide (x = y)); done.
Qed.

(** The lines that [validate_and_normalize_pattern] logs. *)
Definition pattern_log (log_is_warning : bool) (pattern : list Z)
  : list string :=
  if negb (length (unique (sort pattern)) =? length (sort pattern))%nat
     && log_is_warning
  then [warn_duplicates] else [].

Lemma pattern_log_duplicates log_is_warning pattern :
  pattern_log log_is_warning pattern
  = if log_is_warning && negb (bool_decide (NoDup pattern))
    then [warn_duplicates] else [].
Proof.
  unfold pattern_log. rewrite sort_is_sort_by, unique_is_unique_by.
  pose proof (unique_sort_length Z.leb
                ltac:(intros x y; rewrite !Z.leb_le; lia)
                ltac:(intros x y z; rewrite !Z.leb_le; lia)
                ltac:(intros x y; rewrite !Z.leb_le; lia) pattern) as Hiff.
  destruct (Nat.eqb_spec (length (unique_by (sort_by Z.leb pattern)))
              (length (sort_by Z.leb pattern))) as [Heq|Hne];
    destruct log_is_warning; simpl; try done.
  - by rewrite bool_decide_eq_true_2 by (by apply Hiff).
  - rewrite bool_decide_eq_false_2; [done|]. intros Hnd. by apply Hne, Hiff.
Qed.

Lemma validate_returns n w p :
  ¬ Exists (out_of_range n) (unique (sort p)) →
  validate_and_normalize_pattern n w p
  = Returns (unique (sort p), pattern_log w p).
Proof.
  intros Hok. pose proof (normalized_strictly_sorted p) as Hs.
  unfold validate_and_normalize_pattern, pattern_log.
  destruct (unique (sort p)) as [|x t] eqn:Hp; [done|].
  pose proof (range_tests_complete n x t Hs) as Hrt.
  destruct (front (x :: t) <? 0); [exfalso; by apply Hok, Hrt|].
  destruct (back (x :: t) >=? n); [exfalso; by apply Hok, Hrt|]. done.
Qed.

Lemma validate_exits n w p :
  Exists (out_of_range n) (unique (sort p)) →
  validate_and_normalize_pattern n w p = Exits SEARCH_CRITICAL_ERROR.
Proof.
  intros Hbad. pose proof (normalized_strictly_sorted p) as Hs.
  unfold validate_and_normalize_pattern.
  destruct (unique (sort p)) as [|x t] eqn:Hp; [by apply Exists_nil in Hbad|].
  apply (range_tests_complete n x t Hs) in Hbad.
  destruct (front (x :: t) <? 0); [done|].
  destruct (back (x :: t) >=? n); [done|]. done.
Qed.

(** X4.  When [validate_and_normalize_pattern] returns, it has logged the
    warning about duplicate variables exactly when the log takes warnings
    and some variable occurs twice in the pattern given. *)
Theorem validate_and_normalize_pattern_warns_of_duplicates
    (num_variables : Z) (log_is_warning : bool) (pattern : list Z) :
  match validate_and_normalize_pattern num_variables log_is_warning pattern with
  | Returns (_, log) =>
      log = if log_is_warning && negb (bool_decide (NoDup pattern))
            then [warn_duplicates] else []
  | Exits _ => True
  end.
Proof.
  destruct (decide (Exists (out_of_range num_variables)
                      (unique (sort pattern)))) as [Hbad|Hok].
  - by rewrite validate_exits.
  - rewrite validate_returns by done. apply pattern_log_duplicates.
Qed.

(** *** Normalising twice *)

Lemma sort_sorted_id l : StronglySorted Z.le l → sort l = l.
Proof.
  induction 1 as [|x t Hs IH Hall]; [done|]. simpl. rewrite IH.
  destruct t as [|y t']; [done|]. simpl.
  inversion Hall as [|? ? Hxy _]; subst.
  by destruct (Z.leb_spec x y); [|lia].
Qed.

Lemma strictly_sorted_sorted l : StronglySorted Z.lt l → StronglySorted Z.le l.
Proof.
  induction 1 as [|x t Hs IH Hall]; constructor; [done|].
  eapply Forall_impl; [exact Hall|]. simpl. lia.
Qed.

Lemma normalized_fixpoint p :
  StronglySorted Z.lt p → unique (sort p) = p.
Proof.
  intros Hs. rewrite sort_sorted_id by (by apply strictly_sorted_sorted).
  rewrite unique_is_unique_by. by apply unique_by_NoDup, strictly_sorted_NoDup.
Qed.

(** X5.  A pattern that [validate_and_normalize_pattern] has returned is
    returned unchanged, and without a warning, when it is validated
    again. *)
Theorem validate_and_normalize_pattern_idempotent
    (num_variables : Z) (log_is_warning : bool) (pattern : list Z) :
  match validate_and_normalize_pattern num_variables log_is_warning pattern with
  | Returns (pattern', _) =>
      ∀ log_is_warning',
        validate_and_normalize_pattern num_variables log_is_warning' pattern'
        = Returns (pattern', [])
  | Exits _ => True
  end.
Proof.
  destruct (decide (Exists (out_of_range num_variables)
                      (unique (sort pattern)))) as [Hbad|Hok].
  - by rewrite validate_exits.
  - rewrite validate_returns by done. intros w'.
    pose proof (normalized_strictly_sorted pattern) as Hs.
    pose proof (normalized_fixpoint _ Hs) as Hfix.
    rewrite validate_returns by (by rewrite Hfix).
    rewrite Hfix, pattern_log_duplicates.
    rewrite (bool_decide_eq_true_2 (NoDup _))
      by (by apply strictly_sorted_NoDup).
    by rewrite andb_false_r.
Qed.

(** *** Pattern collections *)

(** [operator<=] on vectors of integers, the comparison that [std::sort]
    uses on a pattern collection: lexicographic. *)
Fixpoint lex_leb (a b : list Z) : bool :=
  match a, b with
  | [], _ => true
  | _ :: _, [] => false
  | x :: a', y :: b' => (x <? y) || ((x =? y) && lex_leb a' b')
  end.

Definition warn_duplicate_patterns : string :=
  "Warning: duplicate patterns have been detected".

(** The loop over the patterns: the first pattern out of range ends the
    process. *)
Fixpoint validate_each (num_variables : Z) (log_is_warning : bool)
    (patterns : list (list Z)) : outcome (list (list Z) * list string) :=
  match patterns with
  | [] => Returns ([], [])
  | pattern :: patterns' =>
      match validate_and_normalize_pattern num_variables log_is_warning
              pattern with
      | Exits code => Exits code
      | Returns (pattern', log) =>
          match validate_each num_variables log_is_warning patterns' with
          | Exits code => Exits code
          | Returns (rest, log') => Returns (pattern' :: rest, log ++ log')
          end
      end
  end.

Definition validate_and_normalize_patterns
    (num_variables : Z) (log_is_warning : bool) (patterns : list (list Z))
  : outcome (list (list Z) * list string) :=
  match validate_each num_variables log_is_warning patterns with
  | Exits code => Exits code
  | Returns (patterns', log) =>
      let sorted_patterns := sort_by lex_leb patterns' in
      let log' :=
        if negb (length (unique_by sorted_patterns)
                 =? length sorted_patterns)%nat && log_is_warning
        then [warn_duplicate_patterns] else [] in
      Returns (patterns', log ++ log')
  end.

Lemma lex_leb_total a : ∀ b, lex_leb a b = true ∨ lex_leb b a = true.
Proof.
  induction a as [|x a IH]; intros [|y b]; simpl; auto.
  destruct (IH b) as [-> | ->];
    destruct (Z.ltb_spec x y), (Z.ltb_spec y x), (Z.eqb_spec x y),
      (Z.eqb_spec y x); simpl; auto; lia.
Qed.

Lemma lex_leb_trans a : ∀ b c,
  lex_leb a b = true → lex_leb b c = true → lex_leb a c = true.
Proof.
  induction a as [|x a IH]; intros [|y b] [|z c]; simpl; try done.
  rewrite !orb_true_iff, !andb_true_iff, !Z.ltb_lt, !Z.eqb_eq.
  intros [Hxy|[-> Hab]] [Hyz|[-> Hbc]]; try (left; lia).
  right. split; [done|]. by eapply IH.
Qed.

Lemma lex_leb_antisym a : ∀ b,
  lex_leb a b = true → lex_leb b a = true → a = b.
Proof.
  induction a as [|x a IH]; intros [|y b]; simpl; try done.
  rewrite !orb_true_iff, !andb_true_iff, !Z.ltb_lt, !Z.eqb_eq.
  intros [Hxy|[-> Hab]] [Hyx|[Heq Hba]]; try lia.
  f_equal. by apply IH.
Qed.

Lemma validate_each_cases n w ps :
  match validate_each n w ps with
  | Returns (ps', log) =>
      ps' = (λ p, unique (sort p)) <$> ps
      ∧ log = mjoin (pattern_log w <$> ps)
      ∧ Forall (λ p, ¬ Exists (out_of_range n) (unique (sort p))) ps
  | Exits code =>
      code = SEARCH_CRITICAL_ERROR
      ∧ Exists (λ p, Exists (out_of_range n) (unique (sort p))) ps
  end.
Proof.
  induction ps as [|p ps IH]; simpl; [done|].
  destruct (decide (Exists (out_of_range n) (unique (sort p)))) as [Hbad|Hok].
  - rewrite validate_exits by done. split; [done|]. by left.
  - rewrite validate_returns by done.
    destruct (validate_each n w ps) as [[ps' log]|code].
    + destruct IH as (-> & -> & Hall). split; [done|]. split; [done|].
      by constructor.
    + destruct IH as [-> Hex]. split; [done|]. by right.
Qed.

(** X6.  [validate_and_normalize_patterns] ends the process, with the
    critical error code, exactly when some pattern holds a variable out of
    range.  Otherwise it leaves every pattern sorted and deduplicated, in
    the place it had: duplicate patterns are kept.  It logs one warning
    for each pattern with a repeated variable and one more when two of the
    normalised patterns are equal, if the log takes warnings. *)
Theorem validate_and_normalize_patterns_contract
    (num_variables : Z) (log_is_warning : bool) (patterns : list (list Z)) :
  match validate_and_normalize_patterns num_variables log_is_warning
          patterns with
  | Returns (patterns', log) =>
      patterns' = (λ p, unique (sort p)) <$> patterns
      ∧ Forall (λ p, StronglySorted Z.lt p
                     ∧ Forall (in_range num_variables) p) patterns'
      ∧ log
        = mjoin ((λ p, if log_is_warning && negb (bool_decide (NoDup p))
                       then [warn_duplicates] else []) <$> patterns)
          ++ (if log_is_warning && negb (bool_decide (NoDup patterns'))
              then [warn_duplicate_patterns] else [])
  | Exits code =>
      code = SEARCH_CRITICAL_ERROR
      ∧ Exists (λ p, Exists (out_of_range num_variables) (unique (sort p)))
          patterns
  end.
Proof.
  unfold validate_and_normalize_patterns.
  pose proof (validate_each_cases num_variables log_is_warning patterns)
    as Hcases.
  destruct (validate_each num_variables log_is_warning patterns)
    as [[ps' log]|code]; [|done].
  destruct Hcases as (-> & -> & Hall). split; [done|]. split; [|f_equal].
  - apply Forall_fmap. eapply Forall_impl; [exact Hall|].
    intros p Hok. simpl. split; [apply normalized_strictly_sorted|].
    apply Forall_forall. intros v Hv. unfold in_range.
    destruct (decide (0 <= v < num_variables)) as [|Hout]; [done|].
    exfalso. apply Hok, Exists_exists. exists v. split; [done|].
    unfold out_of_range. lia.
  - f_equal. apply list_fmap_ext. intros _ p _.
    apply pattern_log_duplicates.
  - pose proof (unique_sort_length lex_leb lex_leb_total lex_leb_trans
                  lex_leb_antisym ((λ p, unique (sort p)) <$> patterns))
      as Hiff.
    destruct (Nat.eqb_spec
                (length (unique_by
                           (sort_by lex_leb
                              ((λ p, unique (sort p)) <$> patterns))))
                (length (sort_by lex_leb
                           ((λ p, unique (sort p)) <$> patterns))))
      as [Heq|Hne]; destruct log_is_warning; simpl; try done.
    + by rewrite bool_decide_eq_true_2 by (by apply Hiff).
    + rewrite bool_decide_eq_false_2; [done|].
      intros Hnd. by apply Hne, Hiff.
Qed.

Example patterns_with_duplicates :
  validate_and_normalize_patterns 4 true [[2; 0; 2]; [0; 2]; [3]]
  = Returns ([[0; 2]; [0; 2]; [3]], [warn_duplicates; warn_duplicate_patterns])
  ∧ validate_and_normalize_patterns 3 true [[2; 0; 2]; [0; 2]; [3]]
    = Exits SEARCH_CRITICAL_ERROR
  ∧ validate_and_normalize_patterns 3 true [[]; [-1]]
    = Exits SEARCH_CRITICAL_ERROR.
Proof. vm_compute. done. Qed.

End Validation.

(** ** Segmented storage  ([algorithms/segmented_vector.h]) *)

Module SegVec.

Local Open Scope nat_scope.

Section SegmentedVector.
Context {Entry : Type}.

(** [sizeof(Entry)], fixed by the instantiation of the template. *)
Variable sizeof_Entry : nat.

Definition SEGMENT_BYTES : nat := 8192.

Definition SEGMENT_ELEMENTS : nat :=
  if 1 <=? SEGMENT_BYTES / sizeof_Entry
  then SEGMENT_BYTES / sizeof_Entry
  else 1.

(** A segment is raw storage of [SEGMENT_ELEMENTS] slots; a slot holds
    [Some e] while an object lives in it and [None] otherwise. *)
Record SegmentedVector : Type := mkSegmentedVector {
  segments : list (list (option Entry));
  the_size : nat
}.

Definition empty : SegmentedVector :=
  {| segments := []; the_size := 0 |}.

Definition get_segment (index : nat) : nat := index / SEGMENT_ELEMENTS.
Definition get_offset (index : nat) : nat := index mod SEGMENT_ELEMENTS.

Definition add_segment (v : SegmentedVector) : SegmentedVector :=
  {| segments := segments v ++ [replicate SEGMENT_ELEMENTS None];
     the_size := the_size v |}.

(** [operator[]]: [None] stands for a failed assertion or for a slot
    that holds no object, both undefined in the source. *)
Definition slot (segs : list (list (option Entry))) (index : nat)
  : option (option Entry) :=
  seg ← segs !! get_segment index; seg !! get_offset index.

Definition at_index (v : SegmentedVector) (index : nat) : option Entry :=
  if index <? the_size v then mjoin (slot (segments v) index) else None.

Definition size (v : SegmentedVector) : nat := the_size v.

(** Placement of an object (or of none, on destruction) in a slot. *)
Definition store (segment offset : nat) (slot : option Entry)
    (segs : list (list (option Entry))) : list (list (option Entry)) :=
  alter (λ seg, <[offset := slot]> seg) segment segs.

Definition push_back (entry : Entry) (v : SegmentedVector)
  : option SegmentedVector :=
  let segment := get_segment (the_size v) in
  let offset := get_offset (the_size v) in
  v1 ← (if segment =? length (segments v)
        then (if offset =? 0 then Some (add_segment v) else None)
        else Some v);
  if segment <? length (segments v1)
  then Some {| segments := store segment offset (Some entry) (segments v1);
               the_size := S (the_size v1) |}
  else None.

Definition pop_back (v : SegmentedVector) : option SegmentedVector :=
  let index := the_size v - 1 in
  if index <? the_size v then
    Some {| segments :=
              store (get_segment index) (get_offset index) None (segments v);
            the_size := the_size v - 1 |}
  else None.

(** *** Sequences of operations and the reference vector *)

Inductive operation : Type :=
  | PushBack (entry : Entry)
  | PopBack.

Definition apply_operation (o : operation) (v : SegmentedVector)
  : option SegmentedVector :=
  match o with
  | PushBack e => push_back e v
  | PopBack => pop_back v
  end.

Fixpoint run (ops : list operation) (v : SegmentedVector)
  : option SegmentedVector :=
  match ops with
  | [] => Some v
  | o :: ops' => v' ← apply_operation o v; run ops' v'
  end.

(** The reference: a plain vector, on which [pop_back] is undefined when
    it is empty. *)
Definition reference_apply (o : operation) (l : list Entry)
  : option (list Entry) :=
  match o with
  | PushBack e => Some (l ++ [e])
  | PopBack =>
      match l with [] => None | _ :: _ => Some (take (length l - 1) l) end
  end.

Fixpoint reference_run (ops : list operation) (l : list Entry)
  : option (list Entry) :=
  match ops with
  | [] => Some l
  | o :: ops' => l' ← reference_apply o l; reference_run ops' l'
  end.

(** The representation invariant, relating a segmented vector to the
    plain vector it stands for. *)
Record represents (v : SegmentedVector) (l : list Entry) : Prop := {
  rep_size : the_size v = length l;
  rep_capacity : the_size v ≤ SEGMENT_ELEMENTS * length (segments v);
  rep_segments : Forall (λ seg, length seg = SEGMENT_ELEMENTS) (segments v);
  rep_slots : ∀ i x, l !! i = Some x → slot (segments v) i = Some (Some x)
}.

(** *** Index arithmetic *)

Lemma SEGMENT_ELEMENTS_pos : 1 ≤ SEGMENT_ELEMENTS.
Proof.
  unfold SEGMENT_ELEMENTS.
  destruct (Nat.leb_spec 1 (SEGMENT_BYTES / sizeof_Entry)); lia.
Qed.

Lemma index_split i :
  i = SEGMENT_ELEMENTS * get_segment i + get_offset i
  ∧ get_offset i < SEGMENT_ELEMENTS.
Proof.
  pose proof SEGMENT_ELEMENTS_pos. unfold get_segment, get_offset. split.
  - apply Nat.div_mod_eq.
  - apply Nat.mod_upper_bound. lia.
Qed.

Lemma index_inj i j :
  get_segment i = get_segment j → get_offset i = get_offset j → i = j.
Proof.
  intros Hs Ho.
  destruct (index_split i) as [Hi _], (index_split j) as [Hj _]. lia.
Qed.

Lemma get_segment_bound i n :
  i < SEGMENT_ELEMENTS * n → get_segment i < n.
Proof.
  intros Hi. destruct (index_split i) as [Hsplit Hoff]. nia.
Qed.

Lemma get_segment_full n :
  get_segment (SEGMENT_ELEMENTS * n) = n
  ∧ get_offset (SEGMENT_ELEMENTS * n) = 0.
Proof.
  destruct (index_split (SEGMENT_ELEMENTS * n)) as [Hsplit Hoff].
  assert (get_segment (SEGMENT_ELEMENTS * n) = n) by nia. nia.
Qed.

(** *** Reading a slot after a store *)

Lemma slot_store_other segs i j x :
  i ≠ j → slot (store (get_segment i) (get_offset i) x segs) j = slot segs j.
Proof.
  intros Hne. unfold slot, store.
  destruct (decide (get_segment i = get_segment j)) as [Heq|Hseg].
  - rewrite <- Heq, list_lookup_alter_eq.
    destruct (segs !! get_segment i) as [seg|]; simpl; [|done].
    apply list_lookup_insert_ne. intros Hoff. by apply Hne, index_inj.
  - by rewrite list_lookup_alter_ne.
Qed.

Lemma slot_store_same segs i x :
  Forall (λ seg, length seg = SEGMENT_ELEMENTS) segs →
  get_segment i < length segs →
  slot (store (get_segment i) (get_offset i) x segs) i = Some x.
Proof.
  intros Hlen Hseg. unfold slot, store. rewrite list_lookup_alter_eq.
  destruct (lookup_lt_is_Some_2 _ _ Hseg) as [seg Hlk]. rewrite Hlk. simpl.
  apply list_lookup_insert_eq.
  rewrite Forall_forall in Hlen.
  rewrite (Hlen seg) by (by eapply list_elem_of_lookup_2).
  apply index_split.
Qed.

Lemma store_segments segs s o x :
  Forall (λ seg, length seg = SEGMENT_ELEMENTS) segs →
  Forall (λ seg, length seg = SEGMENT_ELEMENTS) (store s o x segs)
  ∧ length (store s o x segs) = length segs.
Proof.
  intros Hlen. unfold store. split; [|apply length_alter].
  apply Forall_forall. intros seg Hin.
  apply list_elem_of_lookup in Hin as [k Hk].
  rewrite Forall_forall in Hlen.
  destruct (decide (s = k)) as [->|Hne].
  - rewrite list_lookup_alter_eq in Hk.
    destruct (segs !! k) as [seg0|] eqn:Hk0; simplify_eq/=.
    rewrite length_insert. apply Hlen. by eapply list_elem_of_lookup_2.
  - rewrite list_lookup_alter_ne in Hk by done.
    apply Hlen. by eapply list_elem_of_lookup_2.
Qed.

Lemma slot_add_segment segs i :
  get_segment i < length segs →
  slot (segs ++ [replicate SEGMENT_ELEMENTS None]) i = slot segs i.
Proof. intros Hseg. unfold slot. by rewrite lookup_app_l. Qed.

(** *** Each operation preserves the representation *)

Lemma represents_empty : represents empty [].
Proof. split; simpl; [done|lia|constructor|]. intros i x. by destruct i. Qed.

Lemma push_back_represents e v l :
  represents v l →
  ∃ v', push_back e v = Some v' ∧ represents v' (l ++ [e]).
Proof.
  intros [Hsize Hcap Hsegs Hslots]. pose proof SEGMENT_ELEMENTS_pos as Hpos.
  assert (Hold : ∀ i x, l !! i = Some x → i < the_size v ∧ i ≠ the_size v).
  { intros i x Hi%lookup_lt_Some. lia. }
  unfold push_back.
  destruct (Nat.eqb_spec (get_segment (the_size v)) (length (segments v)))
    as [Hfull|Hroom].
  - (* the last segment is full: a new one is added *)
    assert (Hn : the_size v = SEGMENT_ELEMENTS * length (segments v)).
    { destruct (index_split (the_size v)) as [Hsplit _]. nia. }
    destruct (get_segment_full (length (segments v))) as [_ Hoff].
    rewrite <- Hn in Hoff. rewrite Hoff. simpl.
    rewrite length_app, Hfull. simpl.
    destruct (Nat.ltb_spec (length (segments v)) (length (segments v) + 1));
      [|lia].
    assert (Hsegs' : Forall (λ seg, length seg = SEGMENT_ELEMENTS)
              (segments v ++ [replicate SEGMENT_ELEMENTS None])).
    { apply Forall_app. split; [done|].
      constructor; [apply length_replicate|constructor]. }
    eexists. split; [done|].
    rewrite <- Hfull, <- Hoff.
    split; simpl.
    + rewrite length_app. simpl. lia.
    + rewrite (proj2 (store_segments _ _ _ _ Hsegs')), length_app. simpl. nia.
    + by apply store_segments.
    + intros i x Hi. apply lookup_snoc_Some in Hi as [[Hlt Hi]|[Heq ->]].
      * destruct (Hold _ _ Hi) as [Hlt' Hne].
        rewrite slot_store_other by done.
        rewrite slot_add_segment by (apply get_segment_bound; lia).
        by apply Hslots.
      * rewrite <- Hsize in Heq. subst i.
        apply slot_store_same; [done|].
        rewrite length_app, Hfull. simpl. lia.
  - (* there is room in the last segment *)
    assert (Hlt : get_segment (the_size v) < length (segments v)).
    { destruct (index_split (the_size v)) as [Hsplit Hoff].
      assert (get_segment (the_size v) ≤ length (segments v)) by nia. lia. }
    simpl. destruct (Nat.ltb_spec (get_segment (the_size v))
                       (length (segments v))); [|lia].
    eexists. split; [done|].
    split; simpl.
    + rewrite length_app. simpl. lia.
    + rewrite (proj2 (store_segments _ _ _ _ Hsegs)).
      destruct (index_split (the_size v)) as [Hsplit Hoff]. nia.
    + by apply store_segments.
    + intros i x Hi. apply lookup_snoc_Some in Hi as [[Hlt' Hi]|[Heq ->]].
      * destruct (Hold _ _ Hi) as [_ Hne].
        rewrite slot_store_other by done. by apply Hslots.
      * rewrite <- Hsize in Heq. subst i. by apply slot_store_same.
Qed.

Lemma pop_back_represents v l :
  represents v l →
  match l with
  | [] => pop_back v = None
  | _ :: _ =>
      ∃ v', pop_back v = Some v' ∧ represents v' (take (length l - 1) l)
  end.
Proof.
  intros [Hsize Hcap Hsegs Hslots]. unfold pop_back.
  destruct l as [|x t].
  - simpl in Hsize. rewrite Hsize. done.
  - assert (Hpos : 0 < length (x :: t)) by (simpl; lia).
    remember (x :: t) as l eqn:El. clear El.
    destruct (Nat.ltb_spec (the_size v - 1) (the_size v)); [|lia].
    eexists. split; [done|].
    split; simpl.
    + rewrite length_take. lia.
    + rewrite (proj2 (store_segments _ _ _ _ Hsegs)). lia.
    + by apply store_segments.
    + intros i y Hi. apply lookup_take_Some in Hi as [Hi Hlt].
      rewrite slot_store_other by lia. by apply Hslots.
Qed.

(** Reading through [operator[]] agrees with the represented vector on
    every index below [size()]. *)
Lemma represents_observable v l :
  represents v l →
  size v = length l ∧ ∀ i, i < size v → at_index v i = l !! i.
Proof.
  intros [Hsize Hcap Hsegs Hslots]. split; [done|].
  intros i Hi. unfold at_index, size in *.
  destruct (Nat.ltb_spec i (the_size v)); [|lia].
  destruct (lookup_lt_is_Some_2 l i ltac:(lia)) as [x Hx].
  by rewrite (Hslots _ _ Hx), Hx.
Qed.

Lemma run_represents ops : ∀ v l,
  represents v l →
  match run ops v, reference_run ops l with
  | Some v', Some l' => represents v' l'
  | None, None => True
  | _, _ => False
  end.
Proof.
  induction ops as [|o ops IH]; intros v l Hrep; simpl; [done|].
  destruct o as [e|]; simpl.
  - destruct (push_back_represents e _ _ Hrep) as (v' & -> & Hrep').
    simpl. by apply IH.
  - pose proof (pop_back_represents _ _ Hrep) as Hpop.
    destruct l as [|x t].
    + by rewrite Hpop.
    + destruct Hpop as (v' & -> & Hrep'). simpl. by apply IH.
Qed.

(** C6.  For every sequence of [push_back] and [pop_back] operations from
    the empty vector, the segmented vector and the plain reference vector
    agree: either both are undefined (a [pop_back] met an empty vector),
    or [size()] is the length of the reference vector and [operator[]]
    returns, at every index below [size()], the element the reference
    vector holds there. *)
Theorem segmented_vector_refines_vector (ops : list operation) :
  match run ops empty, reference_run ops [] with
  | Some v, Some l =>
      size v = length l
      ∧ ∀ i, i < size v → at_index v i = l !! i ∧ is_Some (l !! i)
  | None, None => True
  | _, _ => False
  end.
Proof.
  pose proof (run_represents ops _ _ represents_empty) as Hrun.
  destruct (run ops empty) as [v|], (reference_run ops []) as [l|]; try done.
  destruct (represents_observable _ _ Hrun) as [Hsize Hat].
  split; [done|]. intros i Hi. split; [by apply Hat|].
  apply lookup_lt_is_Some_2. lia.
Qed.

End SegmentedVector.

Arguments SegmentedVector : clear implicits.
Arguments operation : clear implicits.

(** Entries of 4096 bytes: two per segment. *)
Example two_entries_per_segment : SEGMENT_ELEMENTS 4096 = 2.
Proof. vm_compute. reflexivity. Qed.

Example five_pushes_one_pop :
  let ops := [PushBack 10; PushBack 11; PushBack 12; PushBack 13;
              PushBack 14; PopBack] in
  (λ v, (size v, length (segments v), at_index 4096 v <$> [0; 1; 2; 3; 4]))
    <$> run 4096 ops empty
  = Some (4, 3, [Some 10; Some 11; Some 12; Some 13; None]).
Proof. vm_compute. reflexivity. Qed.

Example pop_from_empty :
  run 4096 [PushBack 10; PopBack; PopBack] (@empty nat) = None
  ∧ reference_run [PushBack 10; PopBack; PopBack] [] = None.
Proof. vm_compute. done. Qed.

(** *** [SegmentedVector::resize] *)

Section Resize.
Context {Entry : Type}.
Variable sizeof_Entry : nat.

(** The first loop of [resize], [while (new_size < the_size) pop_back()];
    [None] when the fuel does not suffice or [pop_back] is undefined. *)
Fixpoint shrink_loop (fuel new_size : nat) (v : SegmentedVector Entry)
  : option (SegmentedVector Entry) :=
  match fuel with
  | O => if new_size <? the_size v then None else Some v
  | S fuel' =>
      if new_size <? the_size v
      then v' ← pop_back sizeof_Entry v; shrink_loop fuel' new_size v'
      else Some v
  end.

(** The second loop, [while (new_size > the_size) push_back(entry)]. *)
Fixpoint grow_loop (fuel new_size : nat) (entry : Entry)
    (v : SegmentedVector Entry) : option (SegmentedVector Entry) :=
  match fuel with
  | O => if the_size v <? new_size then None else Some v
  | S fuel' =>
      if the_size v <? new_size
      then v' ← push_back sizeof_Entry entry v;
           grow_loop fuel' new_size entry v'
      else Some v
  end.

(** Each loop runs as often as the two sizes differ. *)
Definition resize (new_size : nat) (entry : Entry) (v : SegmentedVector Entry)
  : option (SegmentedVector Entry) :=
  v1 ← shrink_loop (the_size v - new_size) new_size v;
  grow_loop (new_size - the_size v1) new_size entry v1.

Inductive command : Type :=
  | Push (entry : Entry)
  | Pop
  | Resize (new_size : nat) (entry : Entry).

Definition execute (c : command) (v : SegmentedVector Entry)
  : option (SegmentedVector Entry) :=
  match c with
  | Push e => push_back sizeof_Entry e v
  | Pop => pop_back sizeof_Entry v
  | Resize n e => resize n e v
  end.

Fixpoint execute_all (cs : list command) (v : SegmentedVector Entry)
  : option (SegmentedVector Entry) :=
  match cs with
  | [] => Some v
  | c :: cs' => v' ← execute c v; execute_all cs' v'
  end.

(** The same commands on a plain vector. *)
Definition vector_execute (c : command) (l : list Entry) : option (list Entry) :=
  match c with
  | Push e => Some (l ++ [e])
  | Pop => match l with [] => None | _ :: _ => Some (take (length l - 1) l) end
  | Resize n e => Some (take n l ++ replicate (n - length l) e)
  end.

Fixpoint vector_execute_all (cs : list command) (l : list Entry)
  : option (list Entry) :=
  match cs with
  | [] => Some l
  | c :: cs' => l' ← vector_execute c l; vector_execute_all cs' l'
  end.

(** The greatest size that the vector has while the commands run, from
    the size [len] and the greatest size [peak] so far. *)
Fixpoint peak_size (cs : list command) (len peak : nat) : nat :=
  match cs with
  | [] => peak
  | Push _ :: cs' => peak_size cs' (S len) (peak `max` S len)
  | Pop :: cs' => peak_size cs' (len - 1) peak
  | Resize n _ :: cs' => peak_size cs' n (peak `max` n)
  end.

(** The segments are those that the greatest size so far has needed. *)
Definition allocated_for (v : SegmentedVector Entry) (peak : nat) : Prop :=
  the_size v ≤ peak
  ∧ peak ≤ SEGMENT_ELEMENTS sizeof_Entry * length (segments v)
  ∧ SEGMENT_ELEMENTS sizeof_Entry * length (segments v)
    < peak + SEGMENT_ELEMENTS sizeof_Entry.

Lemma shrink_loop_represents fuel n : ∀ v l,
  represents sizeof_Entry v l →
  length l - n ≤ fuel →
  ∃ v', shrink_loop fuel n v = Some v'
        ∧ represents sizeof_Entry v' (take n l).
Proof.
  induction fuel as [|fuel IH]; intros v l Hrep Hfuel; simpl;
    pose proof (rep_size _ _ _ Hrep) as Hsize;
    destruct (Nat.ltb_spec n (the_size v)) as [Hlt|Hge]; try lia.
  - exists v. split; [done|]. rewrite take_ge by lia. done.
  - pose proof (pop_back_represents _ _ _ Hrep) as Hpop.
    destruct l as [|x t]; [simpl in Hsize; lia|].
    destruct Hpop as (v1 & -> & Hrep1). simpl.
    destruct (IH v1 _ Hrep1) as (v' & Hrun & Hrep').
    { rewrite length_take. simpl in *. lia. }
    exists v'. split; [done|].
    rewrite take_take in Hrep'.
    replace (n `min` (length (x :: t) - 1)) with n in Hrep'
      by (simpl in *; lia).
    done.
  - exists v. split; [done|]. rewrite take_ge by lia. done.
Qed.

Lemma grow_loop_represents fuel n e : ∀ v l,
  represents sizeof_Entry v l →
  n - length l ≤ fuel →
  ∃ v', grow_loop fuel n e v = Some v'
        ∧ represents sizeof_Entry v' (l ++ replicate (n - length l) e).
Proof.
  induction fuel as [|fuel IH]; intros v l Hrep Hfuel; simpl;
    pose proof (rep_size _ _ _ Hrep) as Hsize;
    destruct (Nat.ltb_spec (the_size v) n) as [Hlt|Hge]; try lia.
  - exists v. split; [done|].
    replace (n - length l) with 0 by lia. simpl. by rewrite app_nil_r.
  - destruct (push_back_represents sizeof_Entry e _ _ Hrep)
      as (v1 & -> & Hrep1). simpl.
    destruct (IH v1 _ Hrep1) as (v' & Hrun & Hrep').
    { rewrite length_app. simpl. lia. }
    exists v'. split; [done|].
    rewrite length_app in Hrep'. simpl in Hrep'.
    replace (n - length l) with (S (n - (length l + 1))) by lia.
    simpl. rewrite <- (assoc_L (++)) in Hrep'. exact Hrep'.
  - exists v. split; [done|].
    replace (n - length l) with 0 by lia. simpl. by rewrite app_nil_r.
Qed.

Lemma resize_represents n e v l :
  represents sizeof_Entry v l →
  ∃ v', resize n e v = Some v'
        ∧ represents sizeof_Entry v'
            (take n l ++ replicate (n - length l) e).
Proof.
  intros Hrep. unfold resize.
  pose proof (rep_size _ _ _ Hrep) as Hsize.
  destruct (shrink_loop_represents (the_size v - n) n v l Hrep)
    as (v1 & -> & Hrep1); [lia|]. simpl.
  pose proof (rep_size _ _ _ Hrep1) as Hsize1.
  destruct (grow_loop_represents (n - the_size v1) n e v1 _ Hrep1)
    as (v' & -> & Hrep'); [lia|].
  exists v'. split; [done|].
  rewrite length_take in Hrep'.
  replace (n - n `min` length l) with (n - length l) in Hrep' by lia. done.
Qed.

Lemma execute_all_represents cs : ∀ v l,
  represents sizeof_Entry v l →
  match execute_all cs v, vector_execute_all cs l with
  | Some v', Some l' => represents sizeof_Entry v' l'
  | None, None => True
  | _, _ => False
  end.
Proof.
  induction cs as [|c cs IH]; intros v l Hrep; simpl; [done|].
  destruct c as [e| |n e]; simpl.
  - destruct (push_back_represents sizeof_Entry e _ _ Hrep)
      as (v' & -> & Hrep').
    simpl. by apply IH.
  - pose proof (pop_back_represents _ _ _ Hrep) as Hpop.
    destruct l as [|x t].
    + by rewrite Hpop.
    + destruct Hpop as (v' & -> & Hrep'). simpl. by apply IH.
  - destruct (resize_represents n e _ _ Hrep) as (v' & -> & Hrep').
    simpl. by apply IH.
Qed.

(** X1.  For every sequence of [push_back], [pop_back] and [resize] from
    the empty vector, the segmented vector and a plain vector are both
    undefined or agree on [size()] and on [operator[]] below it, where
    [resize(n, e)] on the plain vector keeps the first [n] elements and
    appends copies of [e] up to the size [n]. *)
Theorem resize_refines_vector (cs : list command) :
  match execute_all cs empty, vector_execute_all cs [] with
  | Some v, Some l =>
      size v = length l
      ∧ ∀ i, i < size v → at_index sizeof_Entry v i = l !! i ∧ is_Some (l !! i)
  | None, None => True
  | _, _ => False
  end.
Proof.
  pose proof (execute_all_represents cs _ _ (represents_empty sizeof_Entry))
    as Hrun.
  destruct (execute_all cs empty) as [v|], (vector_execute_all cs []) as [l|];
    try done.
  destruct (represents_observable _ _ _ Hrun) as [Hsize Hat].
  split; [done|]. intros i Hi. split; [by apply Hat|].
  apply lookup_lt_is_Some_2. lia.
Qed.

(** *** Allocation *)

Lemma push_back_allocated e v v' peak :
  allocated_for v peak →
  push_back sizeof_Entry e v = Some v' →
  the_size v' = S (the_size v)
  ∧ allocated_for v' (peak `max` S (the_size v)).
Proof.
  intros (Hsize & Hcap & Htight) Hpush.
  pose proof (SEGMENT_ELEMENTS_pos sizeof_Entry) as Hpos.
  destruct (index_split sizeof_Entry (the_size v)) as [Hsplit Hoff].
  unfold push_back in Hpush.
  destruct (Nat.eqb_spec (get_segment sizeof_Entry (the_size v))
              (length (segments v))) as [Hfull|Hroom].
  - destruct (get_offset sizeof_Entry (the_size v) =? 0); [|done].
    simpl in Hpush.
    destruct (_ <? _); simplify_eq/=.
    split; [done|]. unfold allocated_for, store. simpl.
    rewrite length_alter, length_app. simpl. nia.
  - simpl in Hpush.
    destruct (Nat.ltb_spec (get_segment sizeof_Entry (the_size v))
                (length (segments v))) as [Hlt|]; simplify_eq/=.
    split; [done|]. unfold allocated_for, store. simpl.
    rewrite length_alter. nia.
Qed.

Lemma pop_back_allocated v v' peak :
  allocated_for v peak →
  pop_back sizeof_Entry v = Some v' →
  the_size v' = the_size v - 1 ∧ allocated_for v' peak.
Proof.
  intros (Hsize & Hcap & Htight) Hpop. unfold pop_back in Hpop.
  destruct (_ <? _); simplify_eq/=.
  split; [done|]. unfold allocated_for, store. simpl.
  rewrite length_alter. lia.
Qed.

Lemma shrink_loop_allocated fuel n : ∀ v v' peak,
  allocated_for v peak →
  shrink_loop fuel n v = Some v' →
  the_size v' = the_size v `min` n ∧ allocated_for v' peak.
Proof.
  induction fuel as [|fuel IH]; intros v v' peak Halloc Hrun; simpl in Hrun;
    destruct (Nat.ltb_spec n (the_size v)) as [Hlt|Hge]; simplify_eq/=;
    try (split; [lia|done]).
  destruct (pop_back sizeof_Entry v) as [v1|] eqn:Hpop; simplify_eq/=.
  destruct (pop_back_allocated _ _ _ Halloc Hpop) as [Hsize1 Halloc1].
  destruct (IH _ _ _ Halloc1 Hrun) as [Hsize' Halloc'].
  split; [lia|done].
Qed.

Lemma grow_loop_allocated fuel n e : ∀ v v' peak,
  allocated_for v peak →
  grow_loop fuel n e v = Some v' →
  the_size v' = the_size v `max` n ∧ allocated_for v' (peak `max` n).
Proof.
  induction fuel as [|fuel IH]; intros v v' peak Halloc Hrun; simpl in Hrun;
    destruct (Nat.ltb_spec (the_size v) n) as [Hlt|Hge]; simplify_eq/=;
    try (split; [lia|];
         replace (peak `max` n) with peak
           by (destruct Halloc as (? & _); lia); done).
  destruct (push_back sizeof_Entry e v) as [v1|] eqn:Hpush; simplify_eq/=.
  destruct (push_back_allocated _ _ _ _ Halloc Hpush) as [Hsize1 Halloc1].
  destruct (IH _ _ _ Halloc1 Hrun) as [Hsize' Halloc'].
  split; [lia|].
  replace (peak `max` n) with ((peak `max` S (the_size v)) `max` n) by lia.
  done.
Qed.

Lemma execute_all_allocated cs : ∀ v v' peak,
  allocated_for v peak →
  execute_all cs v = Some v' →
  allocated_for v' (peak_size cs (the_size v) peak).
Proof.
  induction cs as [|c cs IH]; intros v v' peak Halloc Hrun; simpl in Hrun;
    [by simplify_eq|].
  destruct (execute c v) as [v1|] eqn:Hc; simplify_eq/=.
  destruct c as [e| |n e]; simpl in Hc |- *.
  - destruct (push_back_allocated _ _ _ _ Halloc Hc) as [Hsize1 Halloc1].
    specialize (IH _ _ _ Halloc1 Hrun). by rewrite Hsize1 in IH.
  - destruct (pop_back_allocated _ _ _ Halloc Hc) as [Hsize1 Halloc1].
    specialize (IH _ _ _ Halloc1 Hrun). by rewrite Hsize1 in IH.
  - unfold resize in Hc.
    destruct (shrink_loop _ n v) as [v0|] eqn:Hshrink; simplify_eq/=.
    destruct (shrink_loop_allocated _ _ _ _ _ Halloc Hshrink)
      as [Hsize0 Halloc0].
    destruct (grow_loop_allocated _ _ _ _ _ _ Halloc0 Hc) as [Hsize1 Halloc1].
    specialize (IH _ _ _ Halloc1 Hrun).
    replace (the_size v1) with n in IH by lia. done.
Qed.

(** X2.  After every sequence of [push_back], [pop_back] and [resize] from
    the empty vector, the number of segments is the greatest size that the
    vector has had, divided by the number of elements of a segment and
    rounded up: a segment is added only when the size outgrows the
    segments, and none is ever given back. *)
Theorem segments_follow_peak_size (cs : list command) :
  match execute_all cs empty with
  | Some v =>
      length (segments v)
      = (peak_size cs 0 0 + SEGMENT_ELEMENTS sizeof_Entry - 1)
        / SEGMENT_ELEMENTS sizeof_Entry
  | None => True
  end.
Proof.
  destruct (execute_all cs empty) as [v|] eqn:Hrun; [|done].
  pose proof (SEGMENT_ELEMENTS_pos sizeof_Entry) as Hpos.
  assert (Hempty : allocated_for (@empty Entry) 0).
  { unfold allocated_for. simpl. lia. }
  destruct (execute_all_allocated _ _ _ _ Hempty Hrun) as (_ & Hcap & Htight).
  simpl in Hcap, Htight.
  apply (Nat.div_unique _ _ _
           (peak_size cs 0 0 + SEGMENT_ELEMENTS sizeof_Entry - 1
            - SEGMENT_ELEMENTS sizeof_Entry * length (segments v))); lia.
Qed.

End Resize.

Arguments command : clear implicits.

Example resize_grows_and_shrinks :
  (λ v, (size v, length (segments v), at_index 4096 v <$> [0; 1; 2; 3; 4]))
    <$> execute_all 4096 [Push 10; Resize 5 7; Resize 3 9; Push 11] empty
  = Some (4, 3, [Some 10; Some 7; Some 7; Some 11; None]).
Proof. vm_compute. reflexivity. Qed.

End SegVec.

(** ** Segmented storage of arrays  ([algorithms/segmented_vector.h],
       class [SegmentedArrayVector]) *)

Module SegArrayVec.

Local Open Scope nat_scope.

Section SegmentedArrayVector.
Context {Element : Type}.

(** [sizeof(Element)]. *)
Variable sizeof_Element : nat.

Definition SEGMENT_BYTES : nat := 8192.

Record SegmentedArrayVector : Type := mkSegmentedArrayVector {
  elements_per_array : nat;
  arrays_per_segment : nat;
  elements_per_segment : nat;
  segments : list (list (option Element));
  the_size : nat
}.

(** The constructor asserts that arrays are not empty. *)
Definition new (elements_per_array_ : nat) : option SegmentedArrayVector :=
  if 0 <? elements_per_array_ then
    let arrays :=
      (SEGMENT_BYTES / (elements_per_array_ * sizeof_Element)) `max` 1 in
    Some {| elements_per_array := elements_per_array_;
            arrays_per_segment := arrays;
            elements_per_segment := elements_per_array_ * arrays;
            segments := [];
            the_size := 0 |}
  else None.

Definition get_segment (v : SegmentedArrayVector) (index : nat) : nat :=
  index / arrays_per_segment v.

Definition get_offset (v : SegmentedArrayVector) (index : nat) : nat :=
  (index mod arrays_per_segment v) * elements_per_array v.

Definition with_storage (segs : list (list (option Element))) (n : nat)
    (v : SegmentedArrayVector) : SegmentedArrayVector :=
  {| elements_per_array := elements_per_array v;
     arrays_per_segment := arrays_per_segment v;
     elements_per_segment := elements_per_segment v;
     segments := segs;
     the_size := n |}.

Definition add_segment (v : SegmentedArrayVector) : SegmentedArrayVector :=
  with_storage (segments v ++ [replicate (elements_per_segment v) None])
    (the_size v) v.

(** The slots of the array that starts at [offset] in a segment. *)
Definition block (v : SegmentedArrayVector)
    (segs : list (list (option Element))) (segment offset : nat)
  : option (list (option Element)) :=
  seg ← segs !! segment; Some (take (elements_per_array v) (drop offset seg)).

(** [operator[]] returns the address of the array; the embedding returns
    the elements found there.  [None] stands for a failed assertion or for
    a slot without object. *)
Definition at_index (v : SegmentedArrayVector) (index : nat)
  : option (list Element) :=
  if index <? the_size v then
    slots ← block v (segments v) (get_segment v index) (get_offset v index);
    mapM id slots
  else None.

Definition size (v : SegmentedArrayVector) : nat := the_size v.

(** The loops that construct or destroy the elements of one array. *)
Definition store (segment offset : nat) (slots : list (option Element))
    (segs : list (list (option Element))) : list (list (option Element)) :=
  alter (list_inserts offset slots) segment segs.

(** [entry] points to at least [elements_per_array] elements. *)
Definition push_back (entry : list Element) (v : SegmentedArrayVector)
  : option SegmentedArrayVector :=
  let segment := get_segment v (the_size v) in
  let offset := get_offset v (the_size v) in
  v1 ← (if segment =? length (segments v)
        then (if offset =? 0 then Some (add_segment v) else None)
        else Some v);
  if (segment <? length (segments v1))
     && (elements_per_array v <=? length entry)
  then Some (with_storage
               (store segment offset
                  (Some <$> take (elements_per_array v) entry) (segments v1))
               (S (the_size v1)) v1)
  else None.

Definition pop_back (v : SegmentedArrayVector) : option SegmentedArrayVector :=
  let index := the_size v - 1 in
  if index <? the_size v then
    Some (with_storage
            (store (get_segment v index) (get_offset v index)
               (replicate (elements_per_array v) None) (segments v))
            (the_size v - 1) v)
  else None.

Fixpoint shrink_loop (fuel new_size : nat) (v : SegmentedArrayVector)
  : option SegmentedArrayVector :=
  match fuel with
  | O => if new_size <? the_size v then None else Some v
  | S fuel' =>
      if new_size <? the_size v
      then v' ← pop_back v; shrink_loop fuel' new_size v'
      else Some v
  end.

Fixpoint grow_loop (fuel new_size : nat) (entry : list Element)
    (v : SegmentedArrayVector) : option SegmentedArrayVector :=
  match fuel with
  | O => if the_size v <? new_size then None else Some v
  | S fuel' =>
      if the_size v <? new_size
      then v' ← push_back entry v; grow_loop fuel' new_size entry v'
      else Some v
  end.

Definition resize (new_size : nat) (entry : list Element)
    (v : SegmentedArrayVector) : option SegmentedArrayVector :=
  v1 ← shrink_loop (the_size v - new_size) new_size v;
  grow_loop (new_size - the_size v1) new_size entry v1.

Inductive command : Type :=
  | Push (entry : list Element)
  | Pop
  | Resize (new_size : nat) (entry : list Element).

Definition execute (c : command) (v : SegmentedArrayVector)
  : option SegmentedArrayVector :=
  match c with
  | Push a => push_back a v
  | Pop => pop_back v
  | Resize n a => resize n a v
  end.

Fixpoint execute_all (cs : list command) (v : SegmentedArrayVector)
  : option SegmentedArrayVector :=
  match cs with
  | [] => Some v
  | c :: cs' => v' ← execute c v; execute_all cs' v'
  end.

(** The same commands on a plain vector of arrays of [n] elements. *)
Definition vector_execute (n : nat) (c : command) (l : list (list Element))
  : option (list (list Element)) :=
  match c with
  | Push a => if n <=? length a then Some (l ++ [take n a]) else None
  | Pop => match l with [] => None | _ :: _ => Some (take (length l - 1) l) end
  | Resize m a =>
      if m <=? length l then Some (take m l)
      else if n <=? length a
           then Some (l ++ replicate (m - length l) (take n a))
           else None
  end.

Fixpoint vector_execute_all (n : nat) (cs : list command)
    (l : list (list Element)) : option (list (list Element)) :=
  match cs with
  | [] => Some l
  | c :: cs' => l' ← vector_execute n c l; vector_execute_all n cs' l'
  end.

(** The representation invariant. *)
Record represents (v : SegmentedArrayVector) (l : list (list Element))
  : Prop := {
  rep_array : 0 < elements_per_array v;
  rep_arrays : 0 < arrays_per_segment v;
  rep_elements :
    elements_per_segment v = elements_per_array v * arrays_per_segment v;
  rep_size : the_size v = length l;
  rep_capacity : the_size v ≤ arrays_per_segment v * length (segments v);
  rep_segments :
    Forall (λ seg, length seg = elements_per_segment v) (segments v);
  rep_lengths : Forall (λ a, length a = elements_per_array v) l;
  rep_blocks : ∀ i a, l !! i = Some a →
    block v (segments v) (get_segment v i) (get_offset v i)
    = Some (Some <$> a)
}.

(** *** Reading a block after a store *)






(** *** Index arithmetic *)




(** *** Each operation preserves the representation *)















End SegmentedArrayVector.

Arguments SegmentedArrayVector : clear implicits.
Arguments command : clear implicits.

Example arrays_of_three :
  (v0 ← new 1024 3;
   v ← execute_all
         [Push [1; 2; 3]; Push [4; 5; 6]; Push [7; 8; 9]; Pop;
          Resize 4 [0; 0; 0; 5]] v0;
   Some (size v, length (segments v), arrays_per_segment v,
         at_index v <$> [0; 1; 2; 3; 4]))
  = Some (4, 2, 2,
          [Some [1; 2; 3]; Some [4; 5; 6]; Some [0; 0; 0]; Some [0; 0; 0];
           None]).
Proof. vm_compute. reflexivity. Qed.

Example array_of_length_zero : @new nat 4 0 = None.
Proof. reflexivity. Qed.

End SegArrayVec.

(** ** Queues ordered by an integer key *)

(** Modelled from the spec: neither the queue of the max heuristic
    ([priority_queues.h]) nor the open lists are among the sources.
    Sections 4.4 and 4.5 ask for the entry of least key, FIFO among equal
    keys: entries are kept in insertion order and [queue_pop] removes the
    first entry of least key. *)
Module MinQueue.
Section MinQueue.
Context {A : Type}.

Definition queue_push (key : Z) (x : A) (q : list (Z * A)) : list (Z * A) :=
  q ++ [(key, x)].

Fixpoint least_key (k : Z) (q : list (Z * A)) : Z :=
  match q with
  | [] => k
  | (k', _) :: q' => least_key (Z.min k k') q'
  end.

Fixpoint remove_first_with_key (k : Z) (q : list (Z * A))
  : option ((Z * A) * list (Z * A)) :=
  match q with
  | [] => None
  | (k', x) :: q' =>
      if k' =? k then Some ((k', x), q')
      else '(e, r) ← remove_first_with_key k q'; Some (e, (k', x) :: r)
  end.

Definition queue_pop (q : list (Z * A)) : option ((Z * A) * list (Z * A)) :=
  match q with
  | [] => None
  | (k, _) :: q' => remove_first_with_key (least_key k q') q
  end.

Lemma remove_first_with_key_length k q e r :
  remove_first_with_key k q = Some (e, r) → length q = S (length r).
Proof.
  revert e r.
  induction q as [|[k' p] q IH]; intros e r Hrm; simpl in *; [done|].
  destruct (k' =? k); [by simplify_eq|].
  destruct (remove_first_with_key k q) as [[e' r']|] eqn:Hq; simplify_eq/=.
  f_equal. by eapply IH.
Qed.

Lemma queue_pop_length q e r :
  queue_pop q = Some (e, r) → length q = S (length r).
Proof.
  destruct q as [|[k p] q]; [done|]. apply remove_first_with_key_length.
Qed.

(** The popped entry was in the queue and the remaining entries were. *)
Lemma remove_first_with_key_elem k q e r :
  remove_first_with_key k q = Some (e, r) →
  e ∈ q ∧ ∀ e', e' ∈ r → e' ∈ q.
Proof.
  revert e r.
  induction q as [|[k' p] q IH]; intros e r Hrm; simpl in *; [done|].
  destruct (k' =? k).
  - simplify_eq. split; [left|]. intros e' He'. by right.
  - destruct (remove_first_with_key k q) as [[e0 r0]|] eqn:Hq; simplify_eq/=.
    destruct (IH _ _ eq_refl) as [He Hr]. split; [by right|].
    intros e' [->|He']%elem_of_cons; [left|right; by apply Hr].
Qed.

Lemma queue_pop_elem q e r :
  queue_pop q = Some (e, r) → e ∈ q ∧ ∀ e', e' ∈ r → e' ∈ q.
Proof.
  destruct q as [|[k p] q]; [done|]. apply remove_first_with_key_elem.
Qed.

Lemma queue_push_elem key x q e :
  e ∈ queue_push key x q ↔ e ∈ q ∨ e = (key, x).
Proof.
  unfold queue_push. rewrite elem_of_app, list_elem_of_singleton. done.
Qed.

End MinQueue.
End MinQueue.

(** ** The max heuristic  ([heuristics/max_heuristic.cc]) *)

Module MaxHeuristic.

Import MinQueue.

Abbreviation PropID := nat (only parsing).
Abbreviation OpID := nat (only parsing).

(** The fields of [relaxation_heuristic::Proposition] and
    [relaxation_heuristic::UnaryOperator] that [max_heuristic.cc] reads or
    writes.  [precondition_of] is the offset of the proposition's slice in
    the pool of operator ids. *)
Record Proposition : Type := mkProposition {
  cost : Z;
  is_goal : bool;
  num_precondition_occurences : nat;
  precondition_of : nat
}.

Record UnaryOperator : Type := mkUnaryOperator {
  op_cost : Z;
  unsatisfied_preconditions : Z;
  effect : PropID;
  base_cost : Z;
  num_preconditions : Z
}.

(** The members of the heuristic object that the computation touches. *)
Record Heuristic : Type := mkHeuristic {
  propositions : list Proposition;
  unary_operators : list UnaryOperator;
  precondition_of_pool : list OpID;
  goal_propositions : list PropID;
  queue : list (Z * PropID)
}.

Definition set_cost (c : Z) (p : Proposition) : Proposition :=
  {| cost := c; is_goal := is_goal p;
     num_precondition_occurences := num_precondition_occurences p;
     precondition_of := precondition_of p |}.

Definition with_propositions (ps : list Proposition) (h : Heuristic) :=
  {| propositions := ps; unary_operators := unary_operators h;
     precondition_of_pool := precondition_of_pool h;
     goal_propositions := goal_propositions h; queue := queue h |}.

Definition with_unary_operators (ops : list UnaryOperator) (h : Heuristic) :=
  {| propositions := propositions h; unary_operators := ops;
     precondition_of_pool := precondition_of_pool h;
     goal_propositions := goal_propositions h; queue := queue h |}.

Definition with_queue (q : list (Z * PropID)) (h : Heuristic) :=
  {| propositions := propositions h; unary_operators := unary_operators h;
     precondition_of_pool := precondition_of_pool h;
     goal_propositions := goal_propositions h; queue := q |}.

(** *** The pool of operator ids *)

(** Modelled from the spec: [array_pool] is not among the sources.  A
    slice is given by an offset and a length (section 9, pooled lists). *)
Definition get_slice (pool : list OpID) (offset len : nat) : list OpID :=
  take len (drop offset pool).

(** *** Enqueueing *)

(** Modelled from the spec: [enqueue_if_necessary] is declared in
    [max_heuristic.h], which is not among the sources.  A proposition is
    enqueued when it is unreached (cost -1) or reached at a higher cost,
    and its cost becomes the enqueued one; older queue entries of the
    proposition are then the stale ones that step 3 of section 4.4 skips. *)
Definition enqueue_if_necessary (prop_id : PropID) (c : Z) (h : Heuristic)
  : Heuristic :=
  match propositions h !! prop_id with
  | None => h
  | Some prop =>
      if (cost prop =? -1) || (cost prop >? c)
      then with_queue (queue_push c prop_id (queue h))
             (with_propositions
                (<[prop_id := set_cost c prop]> (propositions h)) h)
      else h
  end.

Section Computation.

(** Facts and states of the task, and the parts of the base classes
    that are not among the sources, are parameters. *)
Context {Fact State : Type}.
Variable facts_of : State → list Fact.
Variable get_prop_id : Fact → PropID.
Variable convert_ancestor_state : State → State.
Variable DEAD_END : Z.

(** An index outside its vector is undefined in the source; the
    embedding then leaves the object as it is. *)

Definition setup_operator (h : Heuristic) (i : nat) : Heuristic :=
  match unary_operators h !! i with
  | None => h
  | Some op =>
      let op' :=
        {| op_cost := base_cost op;
           unsatisfied_preconditions := num_preconditions op;
           effect := effect op; base_cost := base_cost op;
           num_preconditions := num_preconditions op |} in
      let h' := with_unary_operators (<[i := op']> (unary_operators h)) h in
      if unsatisfied_preconditions op' =? 0
      then enqueue_if_necessary (effect op') (base_cost op') h'
      else h'
  end.

Definition setup_exploration_queue (h : Heuristic) : Heuristic :=
  let h1 := with_queue [] h in
  let h2 := with_propositions (set_cost (-1) <$> propositions h1) h1 in
  foldl setup_operator h2 (seq 0 (length (unary_operators h2))).

Definition setup_exploration_queue_state (state : State) (h : Heuristic)
  : Heuristic :=
  foldl (λ h fact, enqueue_if_necessary (get_prop_id fact) 0 h)
    h (facts_of state).

(** The body of the inner loop of [relaxed_exploration]. *)
Definition relax (prop_cost : Z) (h : Heuristic) (op_id : OpID) : Heuristic :=
  match unary_operators h !! op_id with
  | None => h
  | Some op =>
      let op' :=
        {| op_cost := Z.max (op_cost op) (base_cost op + prop_cost);
           unsatisfied_preconditions := unsatisfied_preconditions op - 1;
           effect := effect op; base_cost := base_cost op;
           num_preconditions := num_preconditions op |} in
      let h' :=
        with_unary_operators (<[op_id := op']> (unary_operators h)) h in
      if unsatisfied_preconditions op' =? 0
      then enqueue_if_necessary (effect op') (op_cost op') h'
      else h'
  end.

(** The [while] loop of [relaxed_exploration]; [None] when the fuel does
    not suffice.  The two assertions on [prop_cost] and the one on
    [unsatisfied_preconditions] are sanity checks that guard no access
    and are not modelled. *)
Fixpoint exploration_loop (fuel : nat) (unsolved_goals : Z) (h : Heuristic)
  : option Heuristic :=
  match fuel with
  | O => None
  | S fuel' =>
      match queue_pop (queue h) with
      | None => Some h
      | Some ((distance, prop_id), q') =>
          let h := with_queue q' h in
          match propositions h !! prop_id with
          | None => exploration_loop fuel' unsolved_goals h
          | Some prop =>
              let prop_cost := cost prop in
              if prop_cost <? distance
              then exploration_loop fuel' unsolved_goals h
              else
                let unsolved_goals' :=
                  if is_goal prop then unsolved_goals - 1
                  else unsolved_goals in
                if is_goal prop && (unsolved_goals' =? 0) then Some h
                else
                  exploration_loop fuel' unsolved_goals'
                    (foldl (relax prop_cost) h
                       (get_slice (precondition_of_pool h)
                          (precondition_of prop)
                          (num_precondition_occurences prop)))
          end
      end
  end.

(** Every iteration pops one entry and every unary operator causes at
    most one push, which bounds the number of iterations. *)
Definition exploration_fuel (h : Heuristic) : nat :=
  S (length (queue h) + length (unary_operators h)).

Definition relaxed_exploration (h : Heuristic) : option Heuristic :=
  exploration_loop (exploration_fuel h)
    (Z.of_nat (length (goal_propositions h))) h.

(** The loop over the goal propositions at the end of
    [compute_heuristic]. *)
Fixpoint goal_loop (h : Heuristic) (goals : list PropID) (total_cost : Z)
  : Z :=
  match goals with
  | [] => total_cost
  | goal_id :: goals' =>
      match propositions h !! goal_id with
      | None => goal_loop h goals' total_cost
      | Some goal =>
          let goal_cost := cost goal in
          if goal_cost =? -1 then DEAD_END
          else goal_loop h goals' (Z.max total_cost goal_cost)
      end
  end.

(** [compute_heuristic] returns the heuristic value and leaves the
    object in a new state. *)
Definition compute_heuristic (ancestor_state : State) (h : Heuristic)
  : option (Z * Heuristic) :=
  let state := convert_ancestor_state ancestor_state in
  let h1 := setup_exploration_queue h in
  let h2 := setup_exploration_queue_state state h1 in
  h3 ← relaxed_exploration h2;
  Some (goal_loop h3 (goal_propositions h3) 0, h3).

End Computation.

(** *** Section 4.4 of the specification, in its own words *)

Module Spec44.
Section Spec44.
Context {Fact State : Type}.
Variable facts_of : State → list Fact.
Variable get_prop_id : Fact → PropID.
Variable DEAD_END : Z.

(** Step 1: all proposition costs are -1, every unary operator has all
    its preconditions unsatisfied and costs its base cost. *)
Definition reset_operator (op : UnaryOperator) : UnaryOperator :=
  {| op_cost := base_cost op;
     unsatisfied_preconditions := num_preconditions op;
     effect := effect op; base_cost := base_cost op;
     num_preconditions := num_preconditions op |}.

Definition reset (h : Heuristic) : Heuristic :=
  {| propositions := set_cost (-1) <$> propositions h;
     unary_operators := reset_operator <$> unary_operators h;
     precondition_of_pool := precondition_of_pool h;
     goal_propositions := goal_propositions h;
     queue := [] |}.

(** Step 2: each fact of the state enters the queue at cost 0. *)
Definition seed_state (state : State) (h : Heuristic) : Heuristic :=
  foldl (λ h fact, enqueue_if_necessary (get_prop_id fact) 0 h)
    h (facts_of state).

(** The seeding that step 2 does not mention: the effect of each unary
    operator without preconditions enters the queue at the operator's
    base cost. *)
Definition seed_operators (h : Heuristic) : Heuristic :=
  foldl (λ h op,
           if num_preconditions op =? 0
           then enqueue_if_necessary (effect op) (base_cost op) h
           else h)
    h (unary_operators h).




(** Step 4: the greatest goal cost, or [DEAD_END] when a goal is
    unreached. *)
Definition goal_costs (h : Heuristic) : list Z :=
  omap (λ goal_id, cost <$> propositions h !! goal_id) (goal_propositions h).

Definition result (h : Heuristic) : Z :=
  if existsb (λ c, c =? -1) (goal_costs h) then DEAD_END
  else foldr Z.max 0 (goal_costs h).



Definition seed_amended (state : State) : Heuristic → Heuristic :=
  λ h, seed_state state (seed_operators h).

End Spec44.
End Spec44.

(** *** What enqueueing changes *)

Lemma enqueue_unary_operators p c h :
  unary_operators (enqueue_if_necessary p c h) = unary_operators h.
Proof.
  unfold enqueue_if_necessary. destruct (propositions h !! p); [|done].
  by destruct (_ || _).
Qed.

Lemma enqueue_frame p c h :
  precondition_of_pool (enqueue_if_necessary p c h) = precondition_of_pool h
  ∧ goal_propositions (enqueue_if_necessary p c h) = goal_propositions h
  ∧ length (propositions (enqueue_if_necessary p c h))
    = length (propositions h).
Proof.
  unfold enqueue_if_necessary. destruct (propositions h !! p); [|done].
  destruct (_ || _); [|done]. simpl. by rewrite length_insert.
Qed.

Lemma enqueue_queue_length p c h :
  (length (queue (enqueue_if_necessary p c h)) ≤ S (length (queue h)))%nat.
Proof.
  unfold enqueue_if_necessary. destruct (propositions h !! p); [|lia].
  destruct (_ || _); [|lia]. simpl. unfold queue_push.
  rewrite length_app. simpl. lia.
Qed.

(** *** Termination of the exploration loop *)

(** The operators that can still cause a push: those with at least one
    unsatisfied precondition. *)
Definition waiting (op : UnaryOperator) : nat :=
  if 1 <=? unsatisfied_preconditions op then 1%nat else 0%nat.

Definition potential (h : Heuristic) : nat :=
  (length (queue h) + sum_list (map waiting (unary_operators h)))%nat.

Lemma sum_list_waiting_insert ops i op op' :
  ops !! i = Some op →
  (sum_list (map waiting (<[i := op']> ops)) + waiting op
   = sum_list (map waiting ops) + waiting op')%nat.
Proof.
  revert i. induction ops as [|o ops IH]; intros [|i] Hi; simplify_eq/=.
  - lia.
  - specialize (IH _ Hi). lia.
Qed.

Lemma sum_list_waiting_bound ops :
  (sum_list (map waiting ops) ≤ length ops)%nat.
Proof.
  induction ops as [|o ops IH]; simpl; [lia|].
  unfold waiting at 1. destruct (1 <=? _); lia.
Qed.

Lemma relax_potential c h op_id :
  (potential (relax c h op_id) ≤ potential h)%nat.
Proof.
  unfold relax. destruct (unary_operators h !! op_id) as [op|] eqn:Hop; [|lia].
  set (op' := mkUnaryOperator _ _ _ _ _).
  set (h' := with_unary_operators _ h).
  pose proof (sum_list_waiting_insert _ _ _ op' Hop) as Hsum.
  assert (Hh' : (potential h' + waiting op = potential h + waiting op')%nat).
  { unfold potential, h'. cbn [queue unary_operators with_unary_operators]. lia. }
  cbn [unsatisfied_preconditions op'].
  destruct (Z.eqb_spec (unsatisfied_preconditions op - 1) 0) as [H0|Hn0].
  - pose proof (enqueue_queue_length (effect op') (op_cost op') h') as Hq.
    unfold potential in *. rewrite enqueue_unary_operators.
    assert (waiting op = 1%nat) as Hw.
    { unfold waiting. destruct (Z.leb_spec 1 (unsatisfied_preconditions op)); lia. }
    assert (waiting op' = 0%nat) as Hw'.
    { unfold waiting, op'. simpl.
      destruct (Z.leb_spec 1 (unsatisfied_preconditions op - 1)); lia. }
    lia.
  - assert (waiting op' ≤ waiting op)%nat as Hw.
    { unfold waiting, op'. simpl.
      destruct (Z.leb_spec 1 (unsatisfied_preconditions op - 1)),
        (Z.leb_spec 1 (unsatisfied_preconditions op)); lia. }
    lia.
Qed.

Lemma relax_all_potential c op_ids : ∀ h,
  (potential (foldl (relax c) h op_ids) ≤ potential h)%nat.
Proof.
  induction op_ids as [|op_id op_ids IH]; intros h; simpl; [lia|].
  etrans; [apply IH|apply relax_potential].
Qed.

Lemma exploration_loop_terminates fuel : ∀ u h,
  (potential h < fuel)%nat → is_Some (exploration_loop fuel u h).
Proof.
  induction fuel as [|fuel IH]; intros u h Hfuel; [lia|]. simpl.
  destruct (queue_pop (queue h)) as [[[d p] q']|] eqn:Hpop; [|done].
  apply queue_pop_length in Hpop.
  assert (Hpot : (potential (with_queue q' h) < fuel)%nat).
  { unfold potential in *. simpl. lia. }
  destruct (propositions h !! p) as [prop|]; [|by apply IH].
  destruct (cost prop <? d); [by apply IH|].
  destruct (is_goal prop && _); [done|].
  apply IH. eapply Nat.le_lt_trans; [apply relax_all_potential|done].
Qed.

Lemma relaxed_exploration_terminates h : is_Some (relaxed_exploration h).
Proof.
  apply exploration_loop_terminates. unfold exploration_fuel, potential.
  pose proof (sum_list_waiting_bound (unary_operators h)). lia.
Qed.

(** *** Invariants of the computation under non-negative operator costs *)

(** Unary operators cost at least nothing. *)
Definition operators_sane (h : Heuristic) : Prop :=
  ∀ i op, unary_operators h !! i = Some op →
          0 <= base_cost op ∧ 0 <= op_cost op.

(** A proposition is unreached (-1) or reached at some cost from 0 on. *)
Definition propositions_sane (h : Heuristic) : Prop :=
  ∀ p prop, propositions h !! p = Some prop → -1 <= cost prop.

(** The proposition [p], if it exists, is reached at cost 0. *)
Definition settled (h : Heuristic) (p : PropID) : Prop :=
  ∀ prop, propositions h !! p = Some prop → cost prop = 0.

Lemma enqueue_propositions_sane p c h :
  0 <= c → propositions_sane h → propositions_sane (enqueue_if_necessary p c h).
Proof.
  intros Hc Hsane. unfold enqueue_if_necessary.
  destruct (propositions h !! p) as [prop|] eqn:Hp; [|done].
  destruct (_ || _); [|done].
  intros q prop' Hq. simpl in Hq.
  apply list_lookup_insert_Some in Hq as [(-> & <- & _)|[_ Hq]].
  - simpl. lia.
  - by eapply Hsane.
Qed.

Lemma enqueue_settled_stable p c h g :
  0 <= c → settled h g → settled (enqueue_if_necessary p c h) g.
Proof.
  intros Hc Hg. unfold enqueue_if_necessary.
  destruct (propositions h !! p) as [prop|] eqn:Hp; [|done].
  destruct (decide (p = g)) as [->|Hne].
  - rewrite (Hg _ Hp).
    destruct (Z.gtb_spec 0 c); [lia|]. done.
  - destruct (_ || _); [|done].
    intros prop' Hq. simpl in Hq.
    rewrite list_lookup_insert_ne in Hq by done. by apply Hg.
Qed.

Lemma enqueue_settles p h :
  propositions_sane h → settled (enqueue_if_necessary p 0 h) p.
Proof.
  intros Hsane. unfold enqueue_if_necessary.
  destruct (propositions h !! p) as [prop|] eqn:Hp.
  - pose proof (Hsane _ _ Hp) as Hge.
    destruct (Z.eqb_spec (cost prop) (-1)) as [Hm1|Hnm1];
      [|destruct (Z.gtb_spec (cost prop) 0) as [Hgt|Hle]]; simpl.
    1,2: intros prop' Hq; simpl in Hq;
      rewrite list_lookup_insert_eq in Hq by (by eapply lookup_lt_Some);
      by simplify_eq.
    intros prop' Hq. simplify_eq. lia.
  - intros prop' Hq. congruence.
Qed.

Lemma relax_sane c h op_id :
  operators_sane h → propositions_sane h →
  operators_sane (relax c h op_id) ∧ propositions_sane (relax c h op_id)
  ∧ ∀ g, settled h g → settled (relax c h op_id) g.
Proof.
  intros Hops Hprops. unfold relax.
  destruct (unary_operators h !! op_id) as [op|] eqn:Hop; [|done].
  destruct (Hops _ _ Hop) as [Hbase Hcost].
  set (op' := mkUnaryOperator _ _ _ _ _).
  set (h' := with_unary_operators _ h).
  assert (Hops' : operators_sane h').
  { intros i o Hi. simpl in Hi.
    apply list_lookup_insert_Some in Hi as [(-> & <- & _)|[_ Hi]].
    - simpl. lia.
    - by eapply Hops. }
  assert (Hc' : 0 <= op_cost op') by (simpl; lia).
  destruct (unsatisfied_preconditions op' =? 0); [|done].
  split; [|split].
  - intros i o. rewrite enqueue_unary_operators. apply Hops'.
  - by apply enqueue_propositions_sane.
  - intros g Hg. by apply enqueue_settled_stable.
Qed.

Lemma relax_all_sane c op_ids : ∀ h,
  operators_sane h → propositions_sane h →
  operators_sane (foldl (relax c) h op_ids)
  ∧ propositions_sane (foldl (relax c) h op_ids)
  ∧ ∀ g, settled h g → settled (foldl (relax c) h op_ids) g.
Proof.
  induction op_ids as [|op_id op_ids IH]; intros h Hops Hprops; simpl; [done|].
  destruct (relax_sane c h op_id Hops Hprops) as (Hops1 & Hprops1 & Hset1).
  destruct (IH _ Hops1 Hprops1) as (Hops2 & Hprops2 & Hset2).
  split; [done|split; [done|]]. intros g Hg. by apply Hset2, Hset1.
Qed.

Lemma exploration_loop_settled fuel : ∀ u h h',
  operators_sane h → propositions_sane h →
  exploration_loop fuel u h = Some h' →
  ∀ g, settled h g → settled h' g.
Proof.
  induction fuel as [|fuel IH]; intros u h h' Hops Hprops Hrun; [done|].
  simpl in Hrun.
  destruct (queue_pop (queue h)) as [[[d p] q']|]; [|by simplify_eq].
  assert (Hops0 : operators_sane (with_queue q' h)) by exact Hops.
  assert (Hprops0 : propositions_sane (with_queue q' h)) by exact Hprops.
  assert (Hset0 : ∀ g, settled h g → settled (with_queue q' h) g)
    by (intros g Hg; exact Hg).
  destruct (propositions h !! p) as [prop|].
  - destruct (cost prop <? d).
    { intros g Hg. eapply IH; [exact Hops0|exact Hprops0|exact Hrun|auto]. }
    destruct (is_goal prop && _); [by simplify_eq|].
    destruct (relax_all_sane (cost prop)
                (get_slice (precondition_of_pool (with_queue q' h))
                   (precondition_of prop) (num_precondition_occurences prop))
                _ Hops0 Hprops0) as (Hops1 & Hprops1 & Hset1).
    intros g Hg. eapply IH; [exact Hops1|exact Hprops1|exact Hrun|auto].
  - intros g Hg. eapply IH; [exact Hops0|exact Hprops0|exact Hrun|auto].
Qed.

(** *** The setup phase is a reset followed by a seeding *)

Lemma with_unary_operators_id h : with_unary_operators (unary_operators h) h = h.
Proof. by destruct h. Qed.

Lemma enqueue_with_unary_operators ops p c h :
  enqueue_if_necessary p c (with_unary_operators ops h)
  = with_unary_operators ops (enqueue_if_necessary p c h).
Proof.
  unfold enqueue_if_necessary. simpl.
  destruct (propositions h !! p); [|done]. by destruct (_ || _).
Qed.

(** The seeding step for one operator, as [Spec44.seed_operators] folds it. *)
Definition seed_operator (h : Heuristic) (op : UnaryOperator) : Heuristic :=
  if num_preconditions op =? 0
  then enqueue_if_necessary (effect op) (base_cost op) h
  else h.

Lemma seed_operators_with_unary_operators ops l : ∀ h,
  foldl seed_operator (with_unary_operators ops h) l
  = with_unary_operators ops (foldl seed_operator h l).
Proof.
  induction l as [|op l IH]; intros h; simpl; [done|].
  rewrite <- IH. f_equal. unfold seed_operator.
  destruct (_ =? 0); [|done]. apply enqueue_with_unary_operators.
Qed.

Lemma setup_operators_fold todo : ∀ pre h,
  unary_operators h = pre ++ todo →
  foldl setup_operator h (seq (length pre) (length todo))
  = with_unary_operators (pre ++ (Spec44.reset_operator <$> todo))
      (foldl seed_operator h (Spec44.reset_operator <$> todo)).
Proof.
  induction todo as [|op todo IH]; intros pre h Hops; simpl.
  - rewrite <- Hops. symmetry. apply with_unary_operators_id.
  - unfold setup_operator at 2. rewrite Hops.
    rewrite list_lookup_middle by done.
    cbn [unsatisfied_preconditions effect base_cost].
    set (op' := mkUnaryOperator _ _ _ _ _).
    assert (Hins : <[length pre := op']> (pre ++ op :: todo)
                   = (pre ++ [op']) ++ todo).
    { rewrite insert_app_r_alt by done. rewrite Nat.sub_diag. simpl.
      by rewrite <- app_assoc. }
    rewrite Hins.
    set (h1 := if num_preconditions op =? 0 then _ else _).
    assert (Hh1 : h1 = with_unary_operators ((pre ++ [op']) ++ todo)
                         (seed_operator h op')).
    { unfold h1, seed_operator. simpl. destruct (_ =? 0); [|done].
      apply enqueue_with_unary_operators. }
    specialize (IH (pre ++ [op']) h1).
    rewrite length_app in IH. simpl in IH.
    rewrite Nat.add_1_r in IH. rewrite IH.
    + rewrite Hh1, seed_operators_with_unary_operators. simpl.
      by rewrite <- app_assoc.
    + rewrite Hh1. done.
Qed.

Lemma setup_exploration_queue_spec h :
  setup_exploration_queue h = Spec44.seed_operators (Spec44.reset h).
Proof.
  unfold setup_exploration_queue, Spec44.seed_operators.
  set (h2 := with_propositions _ _).
  pose proof (setup_operators_fold (unary_operators h2) [] h2 eq_refl) as Hfold.
  cbn [length app] in Hfold. rewrite Hfold.
  change (Spec44.reset h)
    with (with_unary_operators
            (Spec44.reset_operator <$> unary_operators h2) h2).
  symmetry. apply seed_operators_with_unary_operators.
Qed.

(** *** The task data are left alone *)

Lemma seed_operators_frame l : ∀ h,
  goal_propositions (foldl seed_operator h l) = goal_propositions h
  ∧ unary_operators (foldl seed_operator h l) = unary_operators h.
Proof.
  induction l as [|op l IH]; intros h; simpl; [done|].
  destruct (IH (seed_operator h op)) as [-> ->]. unfold seed_operator.
  destruct (_ =? 0); [|done].
  split; [apply enqueue_frame|apply enqueue_unary_operators].
Qed.

Lemma seed_facts_frame {Fact} (get_prop_id : Fact → PropID) facts : ∀ h,
  goal_propositions
    (foldl (λ h fact, enqueue_if_necessary (get_prop_id fact) 0 h) h facts)
  = goal_propositions h
  ∧ unary_operators
      (foldl (λ h fact, enqueue_if_necessary (get_prop_id fact) 0 h) h facts)
    = unary_operators h.
Proof.
  induction facts as [|f facts IH]; intros h; simpl; [done|].
  destruct (IH (enqueue_if_necessary (get_prop_id f) 0 h)) as [-> ->].
  split; [apply enqueue_frame|apply enqueue_unary_operators].
Qed.

Lemma relax_goal_propositions c h op_id :
  goal_propositions (relax c h op_id) = goal_propositions h.
Proof.
  unfold relax. destruct (unary_operators h !! op_id); [|done].
  destruct (_ =? 0); [|done]. by rewrite (proj1 (proj2 (enqueue_frame _ _ _))).
Qed.

Lemma relax_all_goal_propositions c op_ids : ∀ h,
  goal_propositions (foldl (relax c) h op_ids) = goal_propositions h.
Proof.
  induction op_ids as [|op_id op_ids IH]; intros h; simpl; [done|].
  by rewrite IH, relax_goal_propositions.
Qed.

Lemma exploration_loop_goal_propositions fuel : ∀ u h h',
  exploration_loop fuel u h = Some h' →
  goal_propositions h' = goal_propositions h.
Proof.
  induction fuel as [|fuel IH]; intros u h h' Hrun; [done|]. simpl in Hrun.
  destruct (queue_pop (queue h)) as [[[d p] q']|]; [|by simplify_eq].
  destruct (propositions h !! p) as [prop|].
  - destruct (cost prop <? d); [by rewrite (IH _ _ _ Hrun)|].
    destruct (is_goal prop && _); [by simplify_eq|].
    by rewrite (IH _ _ _ Hrun), relax_all_goal_propositions.
  - by rewrite (IH _ _ _ Hrun).
Qed.

(** *** The loop of the source against step 3 *)







(** *** The final loop against step 4 *)




Lemma goal_loop_settled DEAD_END h goals :
  (∀ g, g ∈ goals → settled h g) → goal_loop DEAD_END h goals 0 = 0.
Proof.
  induction goals as [|g goals IH]; intros Hset; simpl; [done|].
  assert (IH' : goal_loop DEAD_END h goals 0 = 0).
  { apply IH. intros g' Hg'. apply Hset. by right. }
  destruct (propositions h !! g) as [goal|] eqn:Hg; [|done].
  rewrite (Hset g ltac:(left) _ Hg). done.
Qed.

(** *** Seeding under non-negative costs *)

Lemma reset_sane h :
  Forall (λ op, 0 <= base_cost op) (unary_operators h) →
  operators_sane (Spec44.reset h) ∧ propositions_sane (Spec44.reset h).
Proof.
  intros Hbase. rewrite Forall_forall in Hbase. split.
  - intros i op Hi. simpl in Hi.
    apply list_lookup_fmap_Some in Hi as (op0 & -> & Hi). simpl.
    assert (0 <= base_cost op0); [|lia].
    apply Hbase. by eapply list_elem_of_lookup_2.
  - intros p prop Hp. simpl in Hp.
    apply list_lookup_fmap_Some in Hp as (prop0 & -> & _). simpl. lia.
Qed.

Lemma seed_operators_sane l : ∀ h,
  Forall (λ op, 0 <= base_cost op) l →
  operators_sane h → propositions_sane h →
  operators_sane (foldl seed_operator h l)
  ∧ propositions_sane (foldl seed_operator h l).
Proof.
  induction l as [|op l IH]; intros h Hl Hops Hprops; simpl; [done|].
  inversion Hl as [|? ? Hop Hl']; subst. apply IH; [done| |].
  - unfold seed_operator. destruct (_ =? 0); [|done].
    intros i o. rewrite enqueue_unary_operators. apply Hops.
  - unfold seed_operator. destruct (_ =? 0); [|done].
    by apply enqueue_propositions_sane.
Qed.

Lemma seed_facts_sane {Fact} (get_prop_id : Fact → PropID) facts : ∀ h,
  operators_sane h → propositions_sane h →
  let h' := foldl (λ h fact, enqueue_if_necessary (get_prop_id fact) 0 h)
              h facts in
  operators_sane h' ∧ propositions_sane h'
  ∧ (∀ g, settled h g → settled h' g)
  ∧ (∀ fact, fact ∈ facts → settled h' (get_prop_id fact)).
Proof.
  induction facts as [|f facts IH]; intros h Hops Hprops; simpl.
  { split; [done|]. split; [done|]. split; [done|]. by intros ? ?%elem_of_nil. }
  set (h1 := enqueue_if_necessary (get_prop_id f) 0 h).
  assert (Hops1 : operators_sane h1).
  { intros i o. unfold h1. rewrite enqueue_unary_operators. apply Hops. }
  assert (Hprops1 : propositions_sane h1)
    by (by apply enqueue_propositions_sane).
  destruct (IH h1 Hops1 Hprops1) as (Hops2 & Hprops2 & Hstable & Hfacts).
  split; [done|]. split; [done|]. split.
  - intros g Hg. apply Hstable. by apply enqueue_settled_stable.
  - intros fact [->|Hin]%elem_of_cons; [|by apply Hfacts].
    apply Hstable. by apply enqueue_settles.
Qed.

Section Contracts.
Context {Fact State : Type}.
Variable facts_of : State → list Fact.
Variable get_prop_id : Fact → PropID.
Variable convert_ancestor_state : State → State.
Variable DEAD_END : Z.

Lemma setup_is_amended_seeding state h :
  setup_exploration_queue_state facts_of get_prop_id state
    (setup_exploration_queue h)
  = Spec44.seed_amended facts_of get_prop_id state (Spec44.reset h).
Proof. by rewrite setup_exploration_queue_spec. Qed.

Lemma seeding_goal_propositions state h :
  goal_propositions
    (Spec44.seed_amended facts_of get_prop_id state (Spec44.reset h))
  = goal_propositions h.
Proof.
  unfold Spec44.seed_amended, Spec44.seed_state, Spec44.seed_operators.
  rewrite (proj1 (seed_facts_frame _ _ _)).
  by rewrite (proj1 (seed_operators_frame _ _)).
Qed.

(** C7.  When unary operators have non-negative base costs, as the
    operators of a task have, and every goal proposition is the
    proposition of a fact of the state, [compute_heuristic] returns 0. *)
Theorem compute_heuristic_goal_state (state : State) (h : Heuristic) :
  Forall (λ op, 0 <= base_cost op) (unary_operators h) →
  goal_propositions h
    ⊆ get_prop_id <$> facts_of (convert_ancestor_state state) →
  ∃ h', compute_heuristic facts_of get_prop_id convert_ancestor_state
          DEAD_END state h = Some (0, h').
Proof.
  intros Hbase Hgoal. unfold compute_heuristic.
  rewrite setup_is_amended_seeding.
  set (h2 := Spec44.seed_amended _ _ _ _).
  destruct (relaxed_exploration_terminates h2) as [h3 Hrun].
  rewrite Hrun. simpl. exists h3. do 2 f_equal.
  apply goal_loop_settled. intros g Hg.
  (* sanity and settledness after the two seedings *)
  destruct (reset_sane h Hbase) as [Hops0 Hprops0].
  destruct (seed_operators_sane (unary_operators (Spec44.reset h))
              (Spec44.reset h)) as [Hops1 Hprops1]; [|done|done|].
  { simpl. apply Forall_fmap. eapply Forall_impl; [exact Hbase|done]. }
  destruct (seed_facts_sane get_prop_id
              (facts_of (convert_ancestor_state state)) _ Hops1 Hprops1)
    as (Hops2 & Hprops2 & _ & Hfacts).
  rewrite (exploration_loop_goal_propositions _ _ _ _ Hrun) in Hg.
  unfold h2 in Hg. rewrite seeding_goal_propositions in Hg.
  apply Hgoal, list_elem_of_fmap in Hg as (fact & -> & Hfact).
  eapply exploration_loop_settled; [exact Hops2|exact Hprops2|exact Hrun|].
  by apply Hfacts.
Qed.


End Contracts.

(** *** Concrete tasks *)

(** Facts are identified with their propositions in the examples. *)
Definition run_hmax (state : list nat) (h : Heuristic) : option Z :=
  fst <$> compute_heuristic (λ s : list nat, s) (λ f : nat, f) (λ s, s) (-1)
            state h.

(** One variable V with values 0, 1, 2; operators V=0 -> V=1 and
    V=1 -> V=2, both of cost 1; goal V=2.  The cost fields hold values
    left by an earlier computation. *)
Definition chain_task : Heuristic :=
  {| propositions :=
       [ mkProposition 7 false 1 0;
         mkProposition (-1) false 1 1;
         mkProposition 0 true 0 2 ];
     unary_operators :=
       [ mkUnaryOperator 5 (-2) 1 1 1;
         mkUnaryOperator 9 0 2 1 1 ];
     precondition_of_pool := [0%nat; 1%nat];
     goal_propositions := [2%nat];
     queue := [(4, 1%nat)] |}.

Example chain_task_from_initial_state : run_hmax [0%nat] chain_task = Some 2.
Proof. reflexivity. Qed.

Example chain_task_from_middle_state : run_hmax [1%nat] chain_task = Some 1.
Proof. reflexivity. Qed.

Example chain_task_from_goal_state : run_hmax [2%nat] chain_task = Some 0.
Proof. reflexivity. Qed.

(** One variable with values 0 and 1, goal value 1, no operators. *)
Definition unsolvable_task : Heuristic :=
  {| propositions := [ mkProposition 0 false 0 0; mkProposition 0 true 0 0 ];
     unary_operators := [];
     precondition_of_pool := [];
     goal_propositions := [1%nat];
     queue := [] |}.

Example unsolvable_task_dead_end : run_hmax [0%nat] unsolvable_task = Some (-1).
Proof. reflexivity. Qed.


Lemma compute_heuristic_goal_state_witness :
  ∃ h', compute_heuristic (λ s : list nat, s) (λ f : nat, f) (λ s, s) (-1)
          [2%nat] chain_task = Some (0, h').
Proof.
  apply (compute_heuristic_goal_state
           (λ s : list nat, s) (λ f : nat, f) (λ s, s) (-1) [2%nat] chain_task).
  - repeat constructor; simpl; lia.
  - intros g Hg. exact Hg.
Defined.


(** *** What a computation leaves in the object *)

Lemma reset_enqueue p c h :
  Spec44.reset (enqueue_if_necessary p c h) = Spec44.reset h.
Proof.
  unfold enqueue_if_necessary.
  destruct (propositions h !! p) as [prop|] eqn:Hp; [|done].
  destruct (_ || _); [|done].
  unfold Spec44.reset. simpl. f_equal.
  rewrite list_fmap_insert. apply list_insert_id.
  by rewrite list_lookup_fmap, Hp.
Qed.

Lemma reset_relax c h op_id : Spec44.reset (relax c h op_id) = Spec44.reset h.
Proof.
  unfold relax. destruct (unary_operators h !! op_id) as [op|] eqn:Hop; [|done].
  set (h' := with_unary_operators _ h).
  assert (Hh' : Spec44.reset h' = Spec44.reset h).
  { unfold Spec44.reset, h'. simpl. f_equal.
    rewrite list_fmap_insert. apply list_insert_id.
    by rewrite list_lookup_fmap, Hop. }
  destruct (_ =? 0); [|done]. by rewrite reset_enqueue.
Qed.

Lemma reset_relax_all c op_ids : ∀ h,
  Spec44.reset (foldl (relax c) h op_ids) = Spec44.reset h.
Proof.
  induction op_ids as [|op_id op_ids IH]; intros h; simpl; [done|].
  by rewrite IH, reset_relax.
Qed.

Lemma reset_exploration_loop fuel : ∀ u h h',
  exploration_loop fuel u h = Some h' → Spec44.reset h' = Spec44.reset h.
Proof.
  induction fuel as [|fuel IH]; intros u h h' Hrun; [done|]. simpl in Hrun.
  destruct (queue_pop (queue h)) as [[[d p] q']|]; [|by simplify_eq].
  destruct (propositions h !! p) as [prop|].
  - destruct (cost prop <? d); [by rewrite (IH _ _ _ Hrun)|].
    destruct (is_goal prop && _); [by simplify_eq|].
    by rewrite (IH _ _ _ Hrun), reset_relax_all.
  - by rewrite (IH _ _ _ Hrun).
Qed.

Lemma reset_seed_operators l : ∀ h,
  Spec44.reset (foldl seed_operator h l) = Spec44.reset h.
Proof.
  induction l as [|op l IH]; intros h; simpl; [done|]. rewrite IH.
  unfold seed_operator. destruct (_ =? 0); [|done]. apply reset_enqueue.
Qed.

Lemma reset_seed_facts {Fact} (get_prop_id : Fact → PropID) facts : ∀ h,
  Spec44.reset
    (foldl (λ h fact, enqueue_if_necessary (get_prop_id fact) 0 h) h facts)
  = Spec44.reset h.
Proof.
  induction facts as [|f facts IH]; intros h; simpl; [done|].
  by rewrite IH, reset_enqueue.
Qed.

Lemma reset_reset h : Spec44.reset (Spec44.reset h) = Spec44.reset h.
Proof.
  unfold Spec44.reset. simpl. f_equal.
  - rewrite <- list_fmap_compose. by apply list_fmap_ext.
  - rewrite <- list_fmap_compose. by apply list_fmap_ext.
Qed.

(** *** A goal that nothing achieves *)

Definition unreached (h : Heuristic) (g : PropID) : Prop :=
  ∃ prop, propositions h !! g = Some prop ∧ cost prop = -1.

Definition never_achieved (h : Heuristic) (g : PropID) : Prop :=
  ∀ i op, unary_operators h !! i = Some op → effect op ≠ g.

Lemma enqueue_unreached p c h g :
  p ≠ g → unreached h g → unreached (enqueue_if_necessary p c h) g.
Proof.
  intros Hne (prop & Hg & Hcost). unfold enqueue_if_necessary.
  destruct (propositions h !! p) as [prop'|]; [|by exists prop].
  destruct (_ || _); [|by exists prop].
  exists prop. simpl. by rewrite list_lookup_insert_ne.
Qed.

Lemma relax_unreached c h op_id g :
  never_achieved h g → unreached h g →
  never_achieved (relax c h op_id) g ∧ unreached (relax c h op_id) g.
Proof.
  intros Hnever Hun. unfold relax.
  destruct (unary_operators h !! op_id) as [op|] eqn:Hop; [|done].
  set (op' := mkUnaryOperator _ _ _ _ _).
  set (h' := with_unary_operators _ h).
  assert (Hnever' : never_achieved h' g).
  { intros i o Hi. simpl in Hi.
    apply list_lookup_insert_Some in Hi as [(-> & <- & _)|[_ Hi]].
    - simpl. by eapply Hnever.
    - by eapply Hnever. }
  destruct (_ =? 0); [|done]. split.
  - intros i o. rewrite enqueue_unary_operators. apply Hnever'.
  - apply enqueue_unreached; [|done]. simpl. by eapply Hnever.
Qed.

Lemma relax_all_unreached c op_ids g : ∀ h,
  never_achieved h g → unreached h g →
  never_achieved (foldl (relax c) h op_ids) g
  ∧ unreached (foldl (relax c) h op_ids) g.
Proof.
  induction op_ids as [|op_id op_ids IH]; intros h Hnever Hun; simpl; [done|].
  destruct (relax_unreached c h op_id g Hnever Hun). by apply IH.
Qed.

Lemma exploration_loop_unreached fuel g : ∀ u h h',
  never_achieved h g → unreached h g →
  exploration_loop fuel u h = Some h' → unreached h' g.
Proof.
  induction fuel as [|fuel IH]; intros u h h' Hnever Hun Hrun; [done|].
  simpl in Hrun.
  destruct (queue_pop (queue h)) as [[[d p] q']|]; [|by simplify_eq].
  assert (Hnever0 : never_achieved (with_queue q' h) g) by exact Hnever.
  assert (Hun0 : unreached (with_queue q' h) g) by exact Hun.
  destruct (propositions h !! p) as [prop|].
  - destruct (cost prop <? d); [by eapply IH|].
    destruct (is_goal prop && _); [by simplify_eq|].
    destruct (relax_all_unreached (cost prop)
                (get_slice (precondition_of_pool (with_queue q' h))
                   (precondition_of prop) (num_precondition_occurences prop))
                g _ Hnever0 Hun0).
    by eapply IH.
  - by eapply IH.
Qed.

Lemma goal_loop_unreached DEAD_END h g goals : ∀ total_cost,
  g ∈ goals → unreached h g → goal_loop DEAD_END h goals total_cost = DEAD_END.
Proof.
  induction goals as [|g' goals IH]; intros total_cost Hin Hun;
    [by apply elem_of_nil in Hin|].
  destruct Hun as (prop & Hg & Hcost). simpl.
  destruct (decide (g' = g)) as [->|Hne].
  - by rewrite Hg, Hcost.
  - apply elem_of_cons in Hin as [->|Hin]; [done|].
    assert (Hun : unreached h g) by (by exists prop).
    destruct (propositions h !! g') as [goal|]; [|by apply IH].
    destruct (cost goal =? -1); [done|]. by apply IH.
Qed.

(** *** The assertions on the popped proposition *)

(** The pairs [(distance, prop_cost)] of the iterations of the loop of
    [relaxed_exploration], in the order of the iterations: the values on
    which the source asserts [prop_cost >= 0] and
    [prop_cost <= distance]. *)
Fixpoint exploration_pops (fuel : nat) (unsolved_goals : Z) (h : Heuristic)
  : list (Z * Z) :=
  match fuel with
  | O => []
  | S fuel' =>
      match queue_pop (queue h) with
      | None => []
      | Some ((distance, prop_id), q') =>
          let h := with_queue q' h in
          match propositions h !! prop_id with
          | None => exploration_pops fuel' unsolved_goals h
          | Some prop =>
              let prop_cost := cost prop in
              (distance, prop_cost) ::
              if prop_cost <? distance
              then exploration_pops fuel' unsolved_goals h
              else
                let unsolved_goals' :=
                  if is_goal prop then unsolved_goals - 1
                  else unsolved_goals in
                if is_goal prop && (unsolved_goals' =? 0) then []
                else
                  exploration_pops fuel' unsolved_goals'
                    (foldl (relax prop_cost) h
                       (get_slice (precondition_of_pool h)
                          (precondition_of prop)
                          (num_precondition_occurences prop)))
          end
      end
  end.

(** Every queue entry belongs to a proposition that is reached at a cost
    between 0 and the key of the entry. *)
Definition queue_consistent (h : Heuristic) : Prop :=
  ∀ d p, (d, p) ∈ queue h →
         ∃ prop, propositions h !! p = Some prop ∧ 0 <= cost prop <= d.

Lemma enqueue_queue_consistent p c h :
  0 <= c → queue_consistent h → queue_consistent (enqueue_if_necessary p c h).
Proof.
  intros Hc Hq. unfold enqueue_if_necessary.
  destruct (propositions h !! p) as [prop|] eqn:Hp; [|done].
  destruct (Z.eqb_spec (cost prop) (-1)) as [Hm1|Hnm1];
    [|destruct (Z.gtb_spec (cost prop) c) as [Hgt|Hle]]; simpl; [| |done].
  all: intros d p' Hin; simpl in Hin |- *;
    apply queue_push_elem in Hin as [Hin|Heq];
    [destruct (Hq _ _ Hin) as (prop0 & Hp0 & Hrange);
     destruct (decide (p = p')) as [<-|Hne];
     [exists (set_cost c prop);
      rewrite list_lookup_insert_eq by (by eapply lookup_lt_Some);
      split; [done|]; simplify_eq; simpl; lia
     |exists prop0; by rewrite list_lookup_insert_ne]
    |simplify_eq; exists (set_cost c prop);
     rewrite list_lookup_insert_eq by (by eapply lookup_lt_Some);
     split; [done|]; simpl; lia].
Qed.

Lemma relax_queue_consistent c h op_id :
  operators_sane h → queue_consistent h → queue_consistent (relax c h op_id).
Proof.
  intros Hops Hq. unfold relax.
  destruct (unary_operators h !! op_id) as [op|] eqn:Hop; [|done].
  destruct (Hops _ _ Hop) as [Hbase Hcost].
  destruct (_ =? 0); [|done].
  apply enqueue_queue_consistent; [simpl; lia|done].
Qed.

Lemma relax_all_queue_consistent c op_ids : ∀ h,
  operators_sane h → propositions_sane h → queue_consistent h →
  queue_consistent (foldl (relax c) h op_ids).
Proof.
  induction op_ids as [|op_id op_ids IH]; intros h Hops Hprops Hq; simpl;
    [done|].
  destruct (relax_sane c h op_id Hops Hprops) as (Hops1 & Hprops1 & _).
  apply IH; [done|done|]. by apply relax_queue_consistent.
Qed.

Lemma exploration_pops_in_range fuel : ∀ u h,
  operators_sane h → propositions_sane h → queue_consistent h →
  Forall (λ '(distance, prop_cost), 0 <= prop_cost <= distance)
    (exploration_pops fuel u h).
Proof.
  induction fuel as [|fuel IH]; intros u h Hops Hprops Hq; simpl;
    [constructor|].
  destruct (queue_pop (queue h)) as [[[d p] q']|] eqn:Hpop; [|constructor].
  destruct (queue_pop_elem _ _ _ Hpop) as [Hin Hrest].
  assert (Hops0 : operators_sane (with_queue q' h)) by exact Hops.
  assert (Hprops0 : propositions_sane (with_queue q' h)) by exact Hprops.
  assert (Hq0 : queue_consistent (with_queue q' h)).
  { intros d' p' Hin'. apply (Hq d' p'). by apply Hrest. }
  destruct (Hq _ _ Hin) as (prop & Hp & Hrange). rewrite Hp.
  constructor; [done|].
  destruct (cost prop <? d); [by apply IH|].
  destruct (is_goal prop && _); [constructor|].
  destruct (relax_all_sane (cost prop)
              (get_slice (precondition_of_pool (with_queue q' h))
                 (precondition_of prop) (num_precondition_occurences prop))
              _ Hops0 Hprops0) as (Hops1 & Hprops1 & _).
  apply IH; [done|done|]. by apply relax_all_queue_consistent.
Qed.

Lemma seed_operators_queue_consistent l : ∀ h,
  Forall (λ op, 0 <= base_cost op) l →
  queue_consistent h → queue_consistent (foldl seed_operator h l).
Proof.
  induction l as [|op l IH]; intros h Hl Hq; simpl; [done|].
  inversion Hl as [|? ? Hop Hl']; subst. apply IH; [done|].
  unfold seed_operator. destruct (_ =? 0); [|done].
  by apply enqueue_queue_consistent.
Qed.

Lemma seed_facts_queue_consistent {Fact} (get_prop_id : Fact → PropID) facts :
  ∀ h, queue_consistent h →
       queue_consistent
         (foldl (λ h fact, enqueue_if_necessary (get_prop_id fact) 0 h)
            h facts).
Proof.
  induction facts as [|f facts IH]; intros h Hq; simpl; [done|].
  apply IH. by apply enqueue_queue_consistent.
Qed.

Section Reuse.
Context {Fact State : Type}.
Variable facts_of : State → list Fact.
Variable get_prop_id : Fact → PropID.
Variable convert_ancestor_state : State → State.
Variable DEAD_END : Z.

(** X9.  [compute_heuristic] returns [DEAD_END] when some goal proposition
    is neither the proposition of a fact of the state nor the effect of a
    unary operator. *)
Theorem compute_heuristic_unachievable_goal
    (state : State) (h : Heuristic) (g : PropID) :
  g ∈ goal_propositions h →
  is_Some (propositions h !! g) →
  g ∉ get_prop_id <$> facts_of (convert_ancestor_state state) →
  Forall (λ op, effect op ≠ g) (unary_operators h) →
  ∃ h', compute_heuristic facts_of get_prop_id convert_ancestor_state
          DEAD_END state h = Some (DEAD_END, h').
Proof.
  intros Hgoal [prop Hprop] Hstate Heff. unfold compute_heuristic.
  rewrite setup_is_amended_seeding.
  set (h2 := Spec44.seed_amended _ _ _ _).
  destruct (relaxed_exploration_terminates h2) as [h3 Hrun].
  rewrite Hrun. simpl. exists h3. do 2 f_equal.
  rewrite Forall_forall in Heff.
  assert (Hnever0 : never_achieved (Spec44.reset h) g).
  { intros i op Hi. simpl in Hi.
    apply list_lookup_fmap_Some in Hi as (op0 & -> & Hi). simpl.
    apply Heff. by eapply list_elem_of_lookup_2. }
  assert (Hun0 : unreached (Spec44.reset h) g).
  { exists (set_cost (-1) prop). simpl. by rewrite list_lookup_fmap, Hprop. }
  assert (Hun1 : unreached (Spec44.seed_operators (Spec44.reset h)) g
                 ∧ never_achieved (Spec44.seed_operators (Spec44.reset h)) g).
  { unfold Spec44.seed_operators.
    assert (Hl : Forall (λ op, effect op ≠ g)
                   (unary_operators (Spec44.reset h))).
    { simpl. apply Forall_fmap, Forall_forall. intros op Hop. simpl.
      by apply Heff. }
    revert Hl Hnever0 Hun0.
    generalize (unary_operators (Spec44.reset h)) as l.
    generalize (Spec44.reset h) as h0.
    intros h0 l. revert h0.
    induction l as [|op l IH]; intros h0 Hl Hnever Hun; simpl; [done|].
    inversion Hl as [|? ? Hop Hl']; subst. apply IH; [done| |].
    - destruct (num_preconditions op =? 0); [|done].
      intros i o. rewrite enqueue_unary_operators. apply Hnever.
    - destruct (num_preconditions op =? 0); [|done].
      by apply enqueue_unreached. }
  destruct Hun1 as [Hun1 Hnever1].
  assert (Hun2 : unreached h2 g ∧ never_achieved h2 g).
  { unfold h2, Spec44.seed_amended, Spec44.seed_state.
    rewrite list_elem_of_fmap in Hstate.
    assert (Hfacts : Forall (λ f, get_prop_id f ≠ g)
                       (facts_of (convert_ancestor_state state))).
    { apply Forall_forall. intros f Hf Heq. apply Hstate. by exists f. }
    revert Hfacts Hun1 Hnever1.
    generalize (facts_of (convert_ancestor_state state)) as facts.
    generalize (Spec44.seed_operators (Spec44.reset h)) as h0.
    intros h0 facts. revert h0.
    induction facts as [|f facts IH]; intros h0 Hfacts Hun Hnever; simpl;
      [done|].
    inversion Hfacts as [|? ? Hf Hfacts']; subst. apply IH; [done| |].
    - by apply enqueue_unreached.
    - intros i o. rewrite enqueue_unary_operators. apply Hnever. }
  destruct Hun2 as [Hun2 Hnever2].
  apply (goal_loop_unreached DEAD_END h3 g).
  - rewrite (exploration_loop_goal_propositions _ _ _ _ Hrun).
    unfold h2. by rewrite seeding_goal_propositions.
  - by eapply exploration_loop_unreached.
Qed.

(** X10.  [compute_heuristic] returns for every state, and what an earlier
    computation has left in the object has no influence: a computation on
    the object left by another one yields the value and the object that it
    yields on the original object. *)
Theorem compute_heuristic_independent_of_history
    (state1 state2 : State) (h : Heuristic) :
  match compute_heuristic facts_of get_prop_id convert_ancestor_state
          DEAD_END state1 h with
  | Some (_, h1) =>
      compute_heuristic facts_of get_prop_id convert_ancestor_state
        DEAD_END state2 h1
      = compute_heuristic facts_of get_prop_id convert_ancestor_state
          DEAD_END state2 h
  | None => False
  end.
Proof.
  unfold compute_heuristic at 1. rewrite setup_is_amended_seeding.
  set (h2 := Spec44.seed_amended _ _ _ _).
  destruct (relaxed_exploration_terminates h2) as [h3 Hrun].
  rewrite Hrun. simpl.
  assert (Hreset : Spec44.reset h3 = Spec44.reset h).
  { rewrite (reset_exploration_loop _ _ _ _ Hrun).
    unfold h2, Spec44.seed_amended, Spec44.seed_state, Spec44.seed_operators.
    by rewrite reset_seed_facts, reset_seed_operators, reset_reset. }
  unfold compute_heuristic. by rewrite !setup_is_amended_seeding, Hreset.
Qed.

(** X11.  When the unary operators have non-negative base costs, the two
    assertions on the popped proposition hold in every iteration of the
    loop of [relaxed_exploration]: the cost of the proposition is at least
    0 and at most the distance popped with it. *)
Theorem relaxed_exploration_assertions_hold
    (state : State) (h : Heuristic) (fuel : nat) :
  Forall (λ op, 0 <= base_cost op) (unary_operators h) →
  let h2 := setup_exploration_queue_state facts_of get_prop_id state
              (setup_exploration_queue h) in
  Forall (λ '(distance, prop_cost), 0 <= prop_cost <= distance)
    (exploration_pops fuel (Z.of_nat (length (goal_propositions h2))) h2).
Proof.
  intros Hbase h2. unfold h2. rewrite setup_is_amended_seeding.
  destruct (reset_sane h Hbase) as [Hops0 Hprops0].
  assert (Hl : Forall (λ op, 0 <= base_cost op)
                 (unary_operators (Spec44.reset h))).
  { simpl. apply Forall_fmap. eapply Forall_impl; [exact Hbase|done]. }
  destruct (seed_operators_sane (unary_operators (Spec44.reset h))
              (Spec44.reset h) Hl Hops0 Hprops0) as [Hops1 Hprops1].
  assert (Hq1 : queue_consistent (Spec44.seed_operators (Spec44.reset h))).
  { apply seed_operators_queue_consistent; [done|].
    intros d p Hin. simpl in Hin. by apply elem_of_nil in Hin. }
  destruct (seed_facts_sane get_prop_id (facts_of state) _ Hops1 Hprops1)
    as (Hops2 & Hprops2 & _).
  apply exploration_pops_in_range; [done|done|].
  by apply seed_facts_queue_consistent.
Qed.

End Reuse.

Example chain_task_pops :
  exploration_pops 10 1
    (setup_exploration_queue_state (λ s : list nat, s) (λ f : nat, f)
       [0%nat] (setup_exploration_queue chain_task))
  = [(0, 0); (1, 1); (2, 2)].
Proof. reflexivity. Qed.

Lemma relaxed_exploration_assertions_hold_witness :
  let h2 := setup_exploration_queue_state (λ s : list nat, s) (λ f : nat, f)
              [0%nat] (setup_exploration_queue chain_task) in
  Forall (λ '(distance, prop_cost), 0 <= prop_cost <= distance)
    (exploration_pops 10 (Z.of_nat (length (goal_propositions h2))) h2).
Proof.
  apply (relaxed_exploration_assertions_hold
           (λ s : list nat, s) (λ f : nat, f) [0%nat] chain_task 10).
  repeat constructor; simpl; lia.
Defined.

Lemma compute_heuristic_unachievable_goal_witness :
  ∃ h', compute_heuristic (λ s : list nat, s) (λ f : nat, f) (λ s, s) (-1)
          [0%nat] unsolvable_task = Some (-1, h').
Proof.
  apply (compute_heuristic_unachievable_goal
           (λ s : list nat, s) (λ f : nat, f) (λ s, s) (-1)
           [0%nat] unsolvable_task 1%nat).
  - left.
  - by eexists.
  - intros Hin. apply list_elem_of_singleton in Hin. discriminate Hin.
  - constructor.
Defined.

End MaxHeuristic.

(** ** The landmark sum heuristic
       ([landmarks/landmark_sum_heuristic.cc]) *)

Module LandmarkSum.

(** [numeric_limits<int>::max()] for the 32-bit [int]. *)
Definition INT_MAX : Z := 2147483647.

(** What the heuristic reads of a landmark.  The achievers are
    [unordered_set]s of operator or axiom ids, given in the order in which
    the sets are iterated. *)
Record Landmark : Type := mkLandmark {
  is_derived : bool;
  first_achievers : list Z;
  possible_achievers : list Z
}.

Definition are_dead_ends_reliable (has_axioms : bool)
    (supports_conditional_effects has_conditional_effects : bool) : bool :=
  if has_axioms then false
  else if negb supports_conditional_effects && has_conditional_effects
       then false
       else true.

Section Costs.
(** The cost of the operator or axiom with a given id, the least operator
    cost of the task and the value [DEAD_END] come from parts that are not
    among the sources. *)
Variable operator_cost : Z → Z.
Variable min_operator_cost : Z.
Variable DEAD_END : Z.

Definition get_min_cost_of_achievers (achievers : list Z) : Z :=
  foldl (λ min_cost id, Z.min min_cost (operator_cost id)) INT_MAX achievers.

(** [compute_landmark_costs] fills [min_first_achiever_costs] and
    [min_possible_achiever_costs], one entry for each landmark. *)
Definition compute_landmark_costs (landmarks : list Landmark)
  : list Z * list Z :=
  foldl (λ '(min_first, min_possible) landmark,
           if is_derived landmark
           then (min_first ++ [min_operator_cost],
                 min_possible ++ [min_operator_cost])
           else (min_first
                   ++ [get_min_cost_of_achievers (first_achievers landmark)],
                 min_possible
                   ++ [get_min_cost_of_achievers
                         (possible_achievers landmark)]))
    ([], []) landmarks.

(** The loop of [get_heuristic_value] over the landmark ids; [past] and
    [future] are the two bitsets of the state.  An id outside the cost
    vectors is undefined in the source and skipped here. *)
Fixpoint heuristic_loop (past future : nat → bool)
    (min_first min_possible : list Z) (ids : list nat) (h : Z) : Z :=
  match ids with
  | [] => h
  | id :: ids' =>
      if future id then
        match (if past id then min_possible else min_first) !! id with
        | Some min_achiever_cost =>
            if min_achiever_cost <? INT_MAX
            then heuristic_loop past future min_first min_possible ids'
                   (h + min_achiever_cost)
            else DEAD_END
        | None => heuristic_loop past future min_first min_possible ids' h
        end
      else heuristic_loop past future min_first min_possible ids' h
  end.

Definition get_heuristic_value (num_landmarks : nat) (past future : nat → bool)
    (min_first min_possible : list Z) : Z :=
  heuristic_loop past future min_first min_possible (seq 0 num_landmarks) 0.

(** The heuristic of a landmark graph: the costs are computed once, at
    construction. *)
Definition landmark_sum (landmarks : list Landmark) (past future : nat → bool)
  : Z :=
  let '(min_first, min_possible) := compute_landmark_costs landmarks in
  get_heuristic_value (length landmarks) past future min_first min_possible.



(** *** The least achiever cost *)

Lemma foldl_min_spec achievers : ∀ start,
  let result :=
    foldl (λ min_cost id, Z.min min_cost (operator_cost id)) start achievers in
  result <= start
  ∧ (∀ id, id ∈ achievers → result <= operator_cost id)
  ∧ (result = start ∨ ∃ id, id ∈ achievers ∧ result = operator_cost id).
Proof.
  induction achievers as [|a achievers IH]; intros start; simpl.
  { split; [lia|]. split; [by intros ? ?%elem_of_nil|by left]. }
  destruct (IH (Z.min start (operator_cost a))) as (Hle & Hall & Hwit).
  split; [lia|]. split.
  - intros id [->|Hin]%elem_of_cons; [lia|by apply Hall].
  - destruct Hwit as [Heq|(id & Hin & Heq)].
    + destruct (Z.min_spec start (operator_cost a)) as [[_ Hm]|[_ Hm]].
      * left. congruence.
      * right. exists a. split; [left|congruence].
    + right. exists id. split; [by right|done].
Qed.

(** X7.  [get_min_cost_of_achievers] returns the least cost of an
    achiever, capped at [INT_MAX]: the result is at most [INT_MAX] and at
    most the cost of every achiever, and it is [INT_MAX] or the cost of
    some achiever.  The order in which the set is iterated therefore does
    not matter, and an empty set gives [INT_MAX]. *)
Theorem get_min_cost_of_achievers_least (achievers : list Z) :
  get_min_cost_of_achievers achievers <= INT_MAX
  ∧ (∀ id, id ∈ achievers →
       get_min_cost_of_achievers achievers <= operator_cost id)
  ∧ (get_min_cost_of_achievers achievers = INT_MAX
     ∨ ∃ id, id ∈ achievers
             ∧ get_min_cost_of_achievers achievers = operator_cost id)
  ∧ (achievers = [] → get_min_cost_of_achievers achievers = INT_MAX)
  ∧ (∀ achievers', achievers ≡ₚ achievers' →
       get_min_cost_of_achievers achievers'
       = get_min_cost_of_achievers achievers).
Proof.
  destruct (foldl_min_spec achievers INT_MAX) as (Hle & Hall & Hwit).
  split; [done|]. split; [done|]. split; [done|]. split; [by intros ->|].
  intros achievers' Hperm.
  destruct (foldl_min_spec achievers' INT_MAX) as (Hle' & Hall' & Hwit').
  unfold get_min_cost_of_achievers.
  destruct Hwit as [Heq|(id & Hin & Heq)],
    Hwit' as [Heq'|(id' & Hin' & Heq')].
  - congruence.
  - rewrite <- Hperm in Hin'. specialize (Hall _ Hin'). lia.
  - rewrite Hperm in Hin. specialize (Hall' _ Hin). lia.
  - rewrite <- Hperm in Hin'. rewrite Hperm in Hin.
    specialize (Hall _ Hin'). specialize (Hall' _ Hin). lia.
Qed.

(** *** The heuristic value *)









End Costs.

(** A landmark graph with a derived landmark, a landmark achieved by the
    operators 0 and 1, and a landmark that only operator 2 achieves first
    and that nothing can achieve again. *)
Definition example_landmarks : list Landmark :=
  [ mkLandmark true [] [];
    mkLandmark false [0; 1] [0; 1];
    mkLandmark false [2] [] ].

Definition example_cost (op : Z) : Z :=
  match op with 0 => 4 | 1 => 3 | _ => 5 end.

Example landmark_sum_all_future :
  landmark_sum example_cost 3 (-1) example_landmarks (λ _, false) (λ _, true)
  = 11.
Proof. reflexivity. Qed.

Example landmark_sum_lost_landmark :
  landmark_sum example_cost 3 (-1) example_landmarks
    (λ id, bool_decide (id = 2%nat)) (λ _, true)
  = -1.
Proof. reflexivity. Qed.


End LandmarkSum.

(** ** The operator-counting heuristic
       ([operator_counting/operator_counting_heuristic.cc]) *)

Module OperatorCounting.

(** Modelled from the spec: [utils::verify_list_not_empty] is declared in
    [utils/component_errors.h], which is not among the sources.  By
    section 7 an empty constraint-generator list is an [InputError], raised
    at construction time and ending the process with the input-error exit
    code. *)
Definition verify_list_not_empty {A} (l : list A) (name : string)
  : outcome unit :=
  match l with
  | [] => Exits SEARCH_INPUT_ERROR
  | _ :: _ => Returns tt
  end.

Section Constructor.
(** The LP layer is not among the sources: numbers of type [double],
    constraints, constraint generators and the task are parameters. *)
Context {double LPConstraint ConstraintGenerator Task : Type}.
Variable zero : double.
Variable of_int : Z → double.
Variable get_infinity : double.
Variable operator_costs : Task → list Z.
Variable initialize_constraints :
  ConstraintGenerator → Task → list LPConstraint → list LPConstraint.

Record LPVariable : Type := mkLPVariable {
  lower_bound : double;
  upper_bound : double;
  objective_coefficient : double;
  is_integer : bool
}.

(** A minimisation problem. *)
Record LinearProgram : Type := mkLinearProgram {
  variables : list LPVariable;
  constraints : list LPConstraint;
  infinity : double
}.

Record LPSolver : Type := mkLPSolver {
  mip_gap : double;
  problem : option LinearProgram
}.

Record OperatorCountingHeuristic : Type := mkOperatorCountingHeuristic {
  constraint_generators : list ConstraintGenerator;
  lp_solver : LPSolver
}.

Definition new (generators : list ConstraintGenerator)
    (use_integer_operator_counts : bool) (task : Task)
  : outcome OperatorCountingHeuristic :=
  match verify_list_not_empty generators "constraint_generators" with
  | Exits code => Exits code
  | Returns _ =>
      let variables :=
        (λ op_cost,
           mkLPVariable zero get_infinity (of_int op_cost)
             use_integer_operator_counts) <$> operator_costs task in
      let constraints :=
        foldl (λ cs generator, initialize_constraints generator task cs)
          [] generators in
      Returns
        {| constraint_generators := generators;
           lp_solver :=
             {| mip_gap := zero;
                problem :=
                  Some (mkLinearProgram variables constraints get_infinity)
             |} |}
  end.

(** C8.  Constructing the heuristic with an empty list of constraint
    generators ends in the input error and yields no heuristic object,
    so that no heuristic value can be computed; with a non-empty list the
    construction yields the object, which holds the generators given. *)
Theorem new_rejects_exactly_the_empty_list
    (generators : list ConstraintGenerator)
    (use_integer_operator_counts : bool) (task : Task) :
  match generators with
  | [] => new generators use_integer_operator_counts task
          = Exits SEARCH_INPUT_ERROR
  | _ :: _ =>
      ∃ heuristic,
        new generators use_integer_operator_counts task = Returns heuristic
        ∧ constraint_generators heuristic = generators
  end.
Proof. destruct generators; [done|]. by eexists. Qed.

End Constructor.

End OperatorCounting.

(** ** Eager best-first search  ([search_algorithms/eager_search.cc]) *)

Module Eager.

Import MinQueue.

Abbreviation StateID := nat (only parsing).
Abbreviation OperatorID := nat (only parsing).

(** *** Search nodes *)

(** Modelled from the spec: the search space ([search_space.h],
    [search_node_info.h]) is not among the sources.  Section 3 gives a node
    its status, its g-value, its parent and its generating operator;
    section 9 adds the g-value in real costs.  The g-values of a New node
    are undefined there and are -1 here. *)
Inductive NodeStatus : Type := NEW | OPEN | CLOSED | DEAD_END.

#[global] Instance NodeStatus_eq_dec : EqDecision NodeStatus.
Proof. solve_decision. Defined.

Record SearchNodeInfo : Type := mkSearchNodeInfo {
  status : NodeStatus;
  g : Z;
  real_g : Z;
  parent_state_id : option StateID;
  creating_operator : option OperatorID
}.

Definition new_node_info : SearchNodeInfo :=
  mkSearchNodeInfo NEW (-1) (-1) None None.

Definition is_new (n : SearchNodeInfo) : bool := bool_decide (status n = NEW).
Definition is_open (n : SearchNodeInfo) : bool := bool_decide (status n = OPEN).
Definition is_closed (n : SearchNodeInfo) : bool :=
  bool_decide (status n = CLOSED).
Definition is_dead_end (n : SearchNodeInfo) : bool :=
  bool_decide (status n = DEAD_END).

(** Modelled from the spec: the operations of section 4.2.
    [open_initial] opens a node with g = 0 and no parent. *)
Definition open_initial (n : SearchNodeInfo) : SearchNodeInfo :=
  mkSearchNodeInfo OPEN 0 0 None None.

(** Modelled from the spec: [open_new_node] opens a node, links it to its
    parent and sets g = parent.g + adjusted_cost (section 4.2); the g-value
    in real costs grows by the cost of the operator (section 9). *)
Definition open_new_node (parent_id : StateID) (parent : SearchNodeInfo)
    (op : OperatorID) (adjusted_cost cost : Z) (n : SearchNodeInfo)
  : SearchNodeInfo :=
  mkSearchNodeInfo OPEN (g parent + adjusted_cost) (real_g parent + cost)
    (Some parent_id) (Some op).

(** Modelled from the spec: [update_open_node_parent] rewires the parent
    chain of an Open node to the cheaper path (section 4.2). *)
Definition update_open_node_parent (parent_id : StateID)
    (parent : SearchNodeInfo) (op : OperatorID) (adjusted_cost cost : Z)
    (n : SearchNodeInfo) : SearchNodeInfo :=
  mkSearchNodeInfo (status n) (g parent + adjusted_cost) (real_g parent + cost)
    (Some parent_id) (Some op).

(** Modelled from the spec: [reopen_closed_node] flips Closed to Open and
    rewires the parent chain (section 4.2). *)
Definition reopen_closed_node (parent_id : StateID)
    (parent : SearchNodeInfo) (op : OperatorID) (adjusted_cost cost : Z)
    (n : SearchNodeInfo) : SearchNodeInfo :=
  mkSearchNodeInfo OPEN (g parent + adjusted_cost) (real_g parent + cost)
    (Some parent_id) (Some op).

(** Modelled from the spec: with reopening disabled, a Closed node keeps
    its g and accepts the new parent (sections 4.2 and 9). *)
Definition update_closed_node_parent (parent_id : StateID)
    (parent : SearchNodeInfo) (op : OperatorID) (adjusted_cost cost : Z)
    (n : SearchNodeInfo) : SearchNodeInfo :=
  mkSearchNodeInfo (status n) (g n) (real_g n) (Some parent_id) (Some op).

(** Modelled from the spec: closing and marking as dead end change the
    status only (section 3). *)
Definition close (n : SearchNodeInfo) : SearchNodeInfo :=
  mkSearchNodeInfo CLOSED (g n) (real_g n)
    (parent_state_id n) (creating_operator n).

Definition mark_as_dead_end (n : SearchNodeInfo) : SearchNodeInfo :=
  mkSearchNodeInfo DEAD_END (g n) (real_g n)
    (parent_state_id n) (creating_operator n).

(** *** Configuration *)

(** An evaluator is known by a handle (section 9) and by whether it caches
    its estimates. *)
Record Evaluator : Type := mkEvaluator {
  handle : nat;
  does_cache_estimates : bool
}.

Record EagerSearch : Type := mkEagerSearch {
  reopen_closed_nodes : bool;
  f_evaluator : option Evaluator;
  preferred_operator_evaluators : list Evaluator;
  lazy_evaluator : option Evaluator;
  bound : Z
}.

(** The constructor.  The open list it creates is part of the search
    state below. *)
Definition new (reopen_closed : bool) (f_eval : option Evaluator)
    (preferred : list Evaluator) (lazy_eval : option Evaluator) (bound : Z)
  : outcome EagerSearch :=
  match lazy_eval with
  | Some evaluator =>
      if negb (does_cache_estimates evaluator)
      then Exits SEARCH_INPUT_ERROR
      else Returns (mkEagerSearch reopen_closed f_eval preferred lazy_eval bound)
  | None =>
      Returns (mkEagerSearch reopen_closed f_eval preferred lazy_eval bound)
  end.

(** *** What the search observes of its collaborators *)

(** Every call into an evaluator, and every notification of one, is
    recorded in the order in which the search makes it. *)
Inductive Query : Type :=
  | OpenListDeadEnd     (* open_list->is_dead_end *)
  | OpenListInsert      (* open_list->insert *)
  | LazyValue           (* get_evaluator_value_or_infinity(lazy_evaluator) *)
  | FValue              (* get_evaluator_value(f_evaluator) *)
  | ProgressCheck       (* search_progress.check_progress *)
  | PreferredOperators. (* collect_preferred_operators *)

Inductive Event : Type :=
  | Evaluated (q : Query) (state : StateID) (g : Z) (is_preferred : bool)
  | NotifiedInitialState (evaluator : nat) (state : StateID)
  | NotifiedStateTransition (evaluator : nat)
      (parent : StateID) (op : OperatorID) (successor : StateID)
  | ReportedFValue (f : Z)
  | BoostedPreferred.

(** The evaluators are not among the sources.  What they answer may depend
    on everything that happened before, which covers cached estimates and
    path-dependent evaluators: each answer is a function of the events so
    far. *)
Record Evaluators : Type := mkEvaluators {
  path_dependent_evaluators : list nat;
  open_list_is_dead_end : list Event → StateID → Z → bool → bool;
  open_list_key : list Event → StateID → Z → bool → Z;
  lazy_is_estimate_cached : list Event → StateID → bool;
  lazy_get_cached_estimate : list Event → StateID → Z;
  lazy_value : list Event → StateID → Z → Z;
  f_value : list Event → StateID → Z → Z;
  check_progress : list Event → StateID → Z → bool → bool;
  preferred_operators : list Event → StateID → Z → list OperatorID
}.

(** The task, the successor generator and the pruning method, over packed
    states of type [PState]. *)
Record TaskInterface (PState : Type) : Type := mkTaskInterface {
  initial_state_values : PState;
  successor_values : PState → OperatorID → PState;
  is_goal_state : PState → bool;
  generate_applicable_ops : PState → list OperatorID;
  prune_operators : PState → list OperatorID → list OperatorID;
  get_cost : OperatorID → Z;
  get_adjusted_cost : OperatorID → Z
}.
Arguments initial_state_values {PState}.
Arguments successor_values {PState}.
Arguments is_goal_state {PState}.
Arguments generate_applicable_ops {PState}.
Arguments prune_operators {PState}.
Arguments get_cost {PState}.
Arguments get_adjusted_cost {PState}.

Record SearchStatistics : Type := mkSearchStatistics {
  expanded_states : Z;
  evaluated_states : Z;
  generated_states : Z;
  reopened_states : Z;
  dead_end_states : Z
}.

Inductive SearchStatus : Type := IN_PROGRESS | SOLVED | FAILED.

Section Search.
Context {PState : Type} `{EqDecision PState}.
Variable task : TaskInterface PState.
Variable evaluators : Evaluators.
Variable search : EagerSearch.

(** The mutable members of the search: the state registry, the search
    space, the open list, the statistics, the plan once found, and the
    record of the calls made into the evaluators. *)
Record SearchState : Type := mkSearchState {
  state_registry : list PState;
  search_space : gmap nat SearchNodeInfo;
  open_list : list (Z * nat);
  statistics : SearchStatistics;
  plan : option (list nat);
  events : list Event
}.

Definition empty_statistics : SearchStatistics :=
  mkSearchStatistics 0 0 0 0 0.

Definition initial_search_state : SearchState :=
  mkSearchState [] ∅ [] empty_statistics None [].

Definition with_registry (r : list PState) (st : SearchState) :=
  mkSearchState r (search_space st) (open_list st) (statistics st)
    (plan st) (events st).
Definition with_search_space (sp : gmap nat SearchNodeInfo)
    (st : SearchState) :=
  mkSearchState (state_registry st) sp (open_list st) (statistics st)
    (plan st) (events st).
Definition with_open_list (ol : list (Z * nat)) (st : SearchState) :=
  mkSearchState (state_registry st) (search_space st) ol (statistics st)
    (plan st) (events st).
Definition with_statistics (s : SearchStatistics) (st : SearchState) :=
  mkSearchState (state_registry st) (search_space st) (open_list st) s
    (plan st) (events st).
Definition with_plan (p : option (list nat)) (st : SearchState) :=
  mkSearchState (state_registry st) (search_space st) (open_list st)
    (statistics st) p (events st).
Definition record (e : Event) (st : SearchState) :=
  mkSearchState (state_registry st) (search_space st) (open_list st)
    (statistics st) (plan st) (events st ++ [e]).

Definition inc_expanded (st : SearchState) :=
  let s := statistics st in
  with_statistics
    (mkSearchStatistics (expanded_states s + 1) (evaluated_states s)
       (generated_states s) (reopened_states s) (dead_end_states s)) st.
Definition inc_evaluated_states (st : SearchState) :=
  let s := statistics st in
  with_statistics
    (mkSearchStatistics (expanded_states s) (evaluated_states s + 1)
       (generated_states s) (reopened_states s) (dead_end_states s)) st.
Definition inc_generated (st : SearchState) :=
  let s := statistics st in
  with_statistics
    (mkSearchStatistics (expanded_states s) (evaluated_states s)
       (generated_states s + 1) (reopened_states s) (dead_end_states s)) st.
Definition inc_reopened (st : SearchState) :=
  let s := statistics st in
  with_statistics
    (mkSearchStatistics (expanded_states s) (evaluated_states s)
       (generated_states s) (reopened_states s + 1) (dead_end_states s)) st.
Definition inc_dead_ends (st : SearchState) :=
  let s := statistics st in
  with_statistics
    (mkSearchStatistics (expanded_states s) (evaluated_states s)
       (generated_states s) (reopened_states s) (dead_end_states s + 1)) st.

(** [search_space.get_node]: a state never seen has a New node. *)
Definition get_node (st : SearchState) (id : StateID) : SearchNodeInfo :=
  default new_node_info (search_space st !! id).

Definition set_node (id : StateID) (n : SearchNodeInfo) (st : SearchState) :=
  with_search_space (<[id := n]> (search_space st)) st.

(** Modelled from the spec: the registry (section 4.1) stores each packed
    state once; the [StateID] of a state is its index. *)
Fixpoint index_of (s : PState) (r : list PState) : option nat :=
  match r with
  | [] => None
  | s' :: r' => if decide (s' = s) then Some 0%nat else S <$> index_of s r'
  end.

Definition register (s : PState) (st : SearchState) : StateID * SearchState :=
  match index_of s (state_registry st) with
  | Some id => (id, st)
  | None =>
      (length (state_registry st), with_registry (state_registry st ++ [s]) st)
  end.

Definition lookup_state (st : SearchState) (id : StateID) : option PState :=
  state_registry st !! id.

(** Modelled from the spec: the open list (section 4.5).  [insert]
    evaluates the state and leaves a dead end out. *)
Definition open_list_insert (id : StateID) (g : Z) (is_preferred : bool)
    (st : SearchState) : SearchState :=
  let dead := open_list_is_dead_end evaluators (events st) id g is_preferred in
  let key := open_list_key evaluators (events st) id g is_preferred in
  let st := record (Evaluated OpenListInsert id g is_preferred) st in
  if dead then st
  else with_open_list (queue_push key id (open_list st)) st.

Definition is_dead_end_in_open_list (id : StateID) (g : Z)
    (is_preferred : bool) (st : SearchState) : bool * SearchState :=
  (open_list_is_dead_end evaluators (events st) id g is_preferred,
   record (Evaluated OpenListDeadEnd id g is_preferred) st).

Definition checks_progress (id : StateID) (g : Z) (is_preferred : bool)
    (st : SearchState) : bool * SearchState :=
  (check_progress evaluators (events st) id g is_preferred,
   record (Evaluated ProgressCheck id g is_preferred) st).

(** [start_f_value_statistics] and [update_f_value_statistics]. *)
Definition update_f_value_statistics (id : StateID) (g : Z)
    (is_preferred : bool) (st : SearchState) : SearchState :=
  match f_evaluator search with
  | Some _ =>
      let f := f_value evaluators (events st) id g in
      record (ReportedFValue f) (record (Evaluated FValue id g is_preferred) st)
  | None => st
  end.

Definition reward_progress (st : SearchState) : SearchState :=
  record BoostedPreferred st.

(** *** [EagerSearch::initialize] *)

(** The path-dependent evaluators that the source collects first are
    given by [path_dependent_evaluators]; the printing of the initial
    evaluator values and the initialisation of the pruning method, which
    end the function, leave the search state alone. *)

Definition initialize (st : SearchState) : SearchState :=
  let '(initial_id, st) := register (initial_state_values task) st in
  let st :=
    foldl (λ st evaluator, record (NotifiedInitialState evaluator initial_id) st)
      st (path_dependent_evaluators evaluators) in
  let st := inc_evaluated_states st in
  let '(dead, st) := is_dead_end_in_open_list initial_id 0 true st in
  if dead then st
  else
    let '(_, st) := checks_progress initial_id 0 true st in
    let st := update_f_value_statistics initial_id 0 true st in
    let st := set_node initial_id (open_initial (get_node st initial_id)) st in
    open_list_insert initial_id 0 true st.

(** *** [EagerSearch::get_next_node_to_expand] *)

(** What one iteration of the loop does with the entry it has removed:
    go on with the next entry, or return the node. *)
Inductive Iteration : Type :=
  | Continue (st : SearchState)
  | Return (id : StateID) (st : SearchState).

(** The block guarded by [if (lazy_evaluator)]: [inl] when it ends in
    [continue], [inr] when control reaches [node.close()]. *)
Definition lazy_block (id : StateID) (st : SearchState)
  : SearchState + SearchState :=
  let node := get_node st id in
  if is_dead_end node then inl st
  else if lazy_is_estimate_cached evaluators (events st) id then
    let old_h := lazy_get_cached_estimate evaluators (events st) id in
    let new_h := lazy_value evaluators (events st) id (g node) in
    let st := record (Evaluated LazyValue id (g node) false) st in
    let '(dead, st) := is_dead_end_in_open_list id (g node) false st in
    if dead
    then inl (inc_dead_ends (set_node id (mark_as_dead_end node) st))
    else if negb (new_h =? old_h)
    then inl (open_list_insert id (g node) false st)
    else inr st
  else inr st.

Definition close_and_return (id : StateID) (st : SearchState) : Iteration :=
  let node := get_node st id in
  let st := set_node id (close node) st in
  Return id (update_f_value_statistics id (g node) false st).

Definition next_node_iteration (id : StateID) (st : SearchState) : Iteration :=
  let node := get_node st id in
  if is_closed node then Continue st
  else
    match lazy_evaluator search with
    | Some _ =>
        match lazy_block id st with
        | inl st' => Continue st'
        | inr st' => close_and_return id st'
        end
    | None => close_and_return id st
    end.

(** The loop; [None] when the fuel does not suffice. *)
Fixpoint get_next_node_to_expand (fuel : nat) (st : SearchState)
  : option (option StateID * SearchState) :=
  match fuel with
  | O => None
  | S fuel' =>
      match queue_pop (open_list st) with
      | None => Some (None, st)
      | Some ((_, id), rest) =>
          match next_node_iteration id (with_open_list rest st) with
          | Continue st' => get_next_node_to_expand fuel' st'
          | Return id' st' => Some (Some id', st')
          end
      end
  end.

(** *** [EagerSearch::generate_successors] *)

Definition collect_preferred_operators_for_node (id : StateID)
    (st : SearchState) : list OperatorID * SearchState :=
  let g_node := g (get_node st id) in
  match preferred_operator_evaluators search with
  | [] => ([], st)
  | _ :: _ =>
      (preferred_operators evaluators (events st) id g_node,
       record (Evaluated PreferredOperators id g_node false) st)
  end.

Definition get_successor_state (state : PState) (op : OperatorID)
    (st : SearchState) : StateID * SearchState :=
  register (successor_values task state op) st.

Definition notify_state_transition (parent : StateID) (op : OperatorID)
    (successor : StateID) (st : SearchState) : SearchState :=
  foldl (λ st evaluator,
           record (NotifiedStateTransition evaluator parent op successor) st)
    st (path_dependent_evaluators evaluators).

(** The body of the loop over the applicable operators.  [node_id] is
    the expanded node and [state] its packed state. *)
Definition generate_successor (node_id : StateID) (state : PState)
    (preferred : list OperatorID) (st : SearchState) (op_id : OperatorID)
  : SearchState :=
  if real_g (get_node st node_id) + get_cost task op_id >=? bound search
  then st
  else
    let '(succ_id, st) := get_successor_state state op_id st in
    let st := inc_generated st in
    let succ_node := get_node st succ_id in
    let st := notify_state_transition node_id op_id succ_id st in
    if is_dead_end succ_node then st
    else
      let is_preferred := bool_decide (op_id ∈ preferred) in
      let node := get_node st node_id in
      let adjusted_cost := get_adjusted_cost task op_id in
      if is_new succ_node then
        let succ_g := g node + adjusted_cost in
        let st := inc_evaluated_states st in
        let '(dead, st) :=
          is_dead_end_in_open_list succ_id succ_g is_preferred st in
        if dead
        then inc_dead_ends (set_node succ_id (mark_as_dead_end succ_node) st)
        else
          let st :=
            set_node succ_id
              (open_new_node node_id node op_id adjusted_cost
                 (get_cost task op_id) succ_node) st in
          let st := open_list_insert succ_id succ_g is_preferred st in
          let '(progress, st) :=
            checks_progress succ_id succ_g is_preferred st in
          if progress then reward_progress st else st
      else if g succ_node >? g node + adjusted_cost then
        if is_open succ_node then
          let st :=
            set_node succ_id
              (update_open_node_parent node_id node op_id adjusted_cost
                 (get_cost task op_id) succ_node) st in
          open_list_insert succ_id (g (get_node st succ_id)) is_preferred st
        else if is_closed succ_node && reopen_closed_nodes search then
          let st := inc_reopened st in
          let st :=
            set_node succ_id
              (reopen_closed_node node_id node op_id adjusted_cost
                 (get_cost task op_id) succ_node) st in
          open_list_insert succ_id (g (get_node st succ_id)) is_preferred st
        else
          set_node succ_id
            (update_closed_node_parent node_id node op_id adjusted_cost
               (get_cost task op_id) succ_node) st
      else st.

(** A [StateID] that the registry does not know is undefined in the
    source; the embedding then leaves the search as it is. *)
Definition generate_successors (node_id : StateID) (st : SearchState)
  : SearchState :=
  match lookup_state st node_id with
  | None => st
  | Some state =>
      let applicable_operators :=
        prune_operators task state (generate_applicable_ops task state) in
      let '(preferred, st) := collect_preferred_operators_for_node node_id st in
      foldl (generate_successor node_id state preferred) st
        applicable_operators
  end.

(** *** [EagerSearch::expand] and [EagerSearch::step] *)

(** Modelled from the spec: [trace_path] walks the parents back to a
    node without parent (section 4.2). *)
Fixpoint trace_path (fuel : nat) (st : SearchState) (id : StateID)
  : list OperatorID :=
  match fuel with
  | O => []
  | S fuel' =>
      let node := get_node st id in
      match parent_state_id node, creating_operator node with
      | Some parent, Some op => trace_path fuel' st parent ++ [op]
      | _, _ => []
      end
  end.

(** Modelled from the spec: [check_goal_and_set_plan] belongs to the
    base class of the search; on a goal state the plan is reconstructed
    (section 4.6, step 3). *)
Definition check_goal_and_set_plan (id : StateID) (st : SearchState)
  : bool * SearchState :=
  match lookup_state st id with
  | Some state =>
      if is_goal_state task state
      then (true,
            with_plan (Some (trace_path (length (state_registry st)) st id)) st)
      else (false, st)
  | None => (false, st)
  end.

Definition expand (node_id : StateID) (st : SearchState)
  : SearchStatus * SearchState :=
  let st := inc_expanded st in
  let '(solved, st) := check_goal_and_set_plan node_id st in
  if solved then (SOLVED, st)
  else (IN_PROGRESS, generate_successors node_id st).

Definition step (fuel : nat) (st : SearchState)
  : option (SearchStatus * SearchState) :=
  match get_next_node_to_expand fuel st with
  | None => None
  | Some (None, st') => Some (FAILED, st')
  | Some (Some node_id, st') => Some (expand node_id st')
  end.

(** The states of a run: [initialize], then steps. *)
Inductive reachable : SearchState → Prop :=
  | reachable_initialize :
      reachable (initialize initial_search_state)
  | reachable_step fuel st status st' :
      reachable st →
      step fuel st = Some (status, st') →
      reachable st'.

(** A run of at most [n] steps, ending early when a step does not
    return [IN_PROGRESS]. *)
Fixpoint run (n fuel : nat) (st : SearchState) : SearchState :=
  match n with
  | O => st
  | S n' =>
      match step fuel st with
      | Some (IN_PROGRESS, st') => run n' fuel st'
      | Some (_, st') => st'
      | None => st
      end
  end.

(** The iterations of [get_next_node_to_expand] that end in [continue]
    lead from the first state to the second. *)
Inductive skips : SearchState → SearchState → Prop :=
  | skips_none st : skips st st
  | skips_entry st key id rest st1 st2 :
      queue_pop (open_list st) = Some ((key, id), rest) →
      next_node_iteration id (with_open_list rest st) = Continue st1 →
      skips st1 st2 →
      skips st st2.

(** Every entry of the open list belongs to an Open or a Closed node. *)
Definition open_list_sound (st : SearchState) : Prop :=
  ∀ key id, (key, id) ∈ open_list st →
            status (get_node st id) = OPEN ∨ status (get_node st id) = CLOSED.

(** *** The constructor *)

(** C5.  The construction of the search ends the process with the
    input-error exit code, instead of yielding a search on which a step
    could run, exactly when a lazy evaluator is given that does not cache
    its estimates; without a lazy evaluator, or with a caching one, it
    yields the search as configured. *)
Theorem new_requires_caching_lazy_evaluator
    (reopen_closed : bool) (f_eval : option Evaluator)
    (preferred : list Evaluator) (lazy_eval : option Evaluator) (bnd : Z) :
  match lazy_eval with
  | Some evaluator =>
      if does_cache_estimates evaluator
      then new reopen_closed f_eval preferred lazy_eval bnd
           = Returns (mkEagerSearch reopen_closed f_eval preferred
                        lazy_eval bnd)
      else new reopen_closed f_eval preferred lazy_eval bnd
           = Exits SEARCH_INPUT_ERROR
  | None =>
      new reopen_closed f_eval preferred lazy_eval bnd
      = Returns (mkEagerSearch reopen_closed f_eval preferred lazy_eval bnd)
  end.
Proof.
  destruct lazy_eval as [evaluator|]; [|done]. unfold new.
  by destruct (does_cache_estimates evaluator).
Qed.

(** *** Closed entries of the open list *)

Lemma get_next_node_returns_unclosed fuel : ∀ st r st',
  get_next_node_to_expand fuel st = Some (Some r, st') →
  ∃ st0 key rest,
    skips st st0
    ∧ queue_pop (open_list st0) = Some ((key, r), rest)
    ∧ is_closed (get_node st0 r) = false
    ∧ next_node_iteration r (with_open_list rest st0) = Return r st'.
Proof.
  induction fuel as [|fuel IH]; intros st r st' Hrun; [done|].
  simpl in Hrun.
  destruct (queue_pop (open_list st)) as [[[key id] rest]|] eqn:Hpop;
    [|by simplify_eq].
  destruct (next_node_iteration id (with_open_list rest st))
    as [st1|id' st1] eqn:Hit.
  - destruct (IH _ _ _ Hrun) as (st0 & key0 & rest0 & Hskips & Hrest).
    exists st0, key0, rest0. split; [|done].
    by eapply skips_entry.
  - simplify_eq. exists st, key, rest.
    assert (id = r ∧ is_closed (get_node st r) = false) as [-> Hopen].
    { unfold next_node_iteration, close_and_return in Hit.
      change (get_node (with_open_list rest st) id)
        with (get_node st id) in Hit.
      destruct (is_closed (get_node st id)) eqn:Hc; [done|].
      destruct (lazy_evaluator search);
        [destruct (lazy_block _ _)|]; by simplify_eq. }
    split; [constructor|]. done.
Qed.

(** C2.  An entry removed from the open list whose node is Closed is
    discarded: the iteration goes on to the next entry, and neither the
    record of the evaluator calls, nor the search space, nor anything
    else but the open list, from which the entry is gone, has changed.
    Consequently a node that [get_next_node_to_expand] returns was not
    Closed when its entry was removed from the open list. *)
Theorem get_next_node_discards_closed_entries :
  (∀ st key id rest fuel,
     queue_pop (open_list st) = Some ((key, id), rest) →
     is_closed (get_node st id) = true →
     next_node_iteration id (with_open_list rest st)
     = Continue (with_open_list rest st)
     ∧ events (with_open_list rest st) = events st
     ∧ search_space (with_open_list rest st) = search_space st
     ∧ statistics (with_open_list rest st) = statistics st
     ∧ get_next_node_to_expand (S fuel) st
       = get_next_node_to_expand fuel (with_open_list rest st))
  ∧ (∀ fuel st r st',
       get_next_node_to_expand fuel st = Some (Some r, st') →
       ∃ st0 key rest,
         skips st st0
         ∧ queue_pop (open_list st0) = Some ((key, r), rest)
         ∧ is_closed (get_node st0 r) = false
         ∧ next_node_iteration r (with_open_list rest st0) = Return r st').
Proof.
  split; [|intros fuel; apply get_next_node_returns_unclosed].
  intros st key id rest fuel Hpop Hclosed.
  assert (Hit : next_node_iteration id (with_open_list rest st)
                = Continue (with_open_list rest st)).
  { unfold next_node_iteration.
    change (get_node (with_open_list rest st) id) with (get_node st id).
    by rewrite Hclosed. }
  repeat split; [done|]. simpl. by rewrite Hpop, Hit.
Qed.

(** *** The bound *)


(** *** What the bookkeeping leaves alone *)

Lemma get_node_ext st st' id :
  search_space st' = search_space st → get_node st' id = get_node st id.
Proof. unfold get_node. by intros ->. Qed.

Lemma get_node_set_node st id n id' :
  get_node (set_node id n st) id'
  = if decide (id = id') then n else get_node st id'.
Proof.
  unfold get_node, set_node. simpl. rewrite lookup_insert.
  by destruct (decide (id = id')).
Qed.

Lemma register_frame s st :
  search_space (register s st).2 = search_space st
  ∧ open_list (register s st).2 = open_list st.
Proof. unfold register. by destruct (index_of s (state_registry st)). Qed.

Lemma notify_state_transition_frame parent op successor st :
  search_space (notify_state_transition parent op successor st)
  = search_space st
  ∧ open_list (notify_state_transition parent op successor st)
    = open_list st.
Proof.
  unfold notify_state_transition.
  generalize (path_dependent_evaluators evaluators). intros l. revert st.
  induction l as [|e l IH]; intros st; simpl; [done|].
  destruct (IH (record (NotifiedStateTransition e parent op successor) st))
    as [-> ->]. done.
Qed.

Lemma update_f_value_statistics_frame id gv p st :
  search_space (update_f_value_statistics id gv p st) = search_space st
  ∧ open_list (update_f_value_statistics id gv p st) = open_list st.
Proof. unfold update_f_value_statistics. by destruct (f_evaluator search). Qed.

Lemma open_list_insert_search_space id gv p st :
  search_space (open_list_insert id gv p st) = search_space st.
Proof.
  unfold open_list_insert. by destruct (open_list_is_dead_end _ _ _ _ _).
Qed.

(** *** A cheaper path to a Closed node, without reopening *)

(** C3.  With reopening disabled, when an operator below the bound leads
    to a Closed node whose g exceeds the g of the expanded node plus the
    adjusted cost of the operator, the loop body rewrites the parent and
    the generating operator of that node and nothing else in the search
    space: the node stays Closed with its g-values, every other node is
    as before, and the open list is as before. *)
Theorem generate_successor_rewires_closed_node
    (node_id : StateID) (state : PState) (preferred : list OperatorID)
    (st : SearchState) (op_id : OperatorID) (succ_id : StateID) :
  reopen_closed_nodes search = false →
  real_g (get_node st node_id) + get_cost task op_id < bound search →
  (get_successor_state state op_id st).1 = succ_id →
  status (get_node st succ_id) = CLOSED →
  g (get_node st succ_id)
  > g (get_node st node_id) + get_adjusted_cost task op_id →
  let st' := generate_successor node_id state preferred st op_id in
  get_node st' succ_id
  = mkSearchNodeInfo CLOSED (g (get_node st succ_id))
      (real_g (get_node st succ_id)) (Some node_id) (Some op_id)
  ∧ (∀ id, id ≠ succ_id → get_node st' id = get_node st id)
  ∧ open_list st' = open_list st.
Proof.
  intros Hreopen Hbound Hsucc Hclosed Hcheaper st'. subst st'.
  unfold generate_successor.
  destruct (Z.geb_spec (real_g (get_node st node_id) + get_cost task op_id)
              (bound search)); [lia|].
  destruct (get_successor_state state op_id st) as [sid st1] eqn:Hreg.
  simpl in Hsucc. subst sid.
  destruct (register_frame (successor_values task state op_id) st)
    as [Hsp1 Hol1].
  unfold get_successor_state in Hreg. rewrite Hreg in Hsp1, Hol1.
  simpl in Hsp1, Hol1.
  set (st2 := notify_state_transition node_id op_id succ_id
                (inc_generated st1)).
  destruct (notify_state_transition_frame node_id op_id succ_id
              (inc_generated st1)) as [Hsp2 Hol2].
  fold st2 in Hsp2, Hol2. simpl in Hsp2, Hol2.
  assert (Hnode : ∀ id, get_node st2 id = get_node st id).
  { intros id. apply get_node_ext. congruence. }
  rewrite (get_node_ext st (inc_generated st1) succ_id) by done.
  rewrite !Hnode.
  unfold is_dead_end, is_new, is_open, is_closed. rewrite Hclosed, Hreopen.
  simpl.
  destruct (Z.gtb_spec (g (get_node st succ_id))
              (g (get_node st node_id) + get_adjusted_cost task op_id));
    [|lia].
  split; [|split].
  - rewrite get_node_set_node. rewrite decide_True by done.
    unfold update_closed_node_parent. by rewrite Hclosed.
  - intros id Hne. rewrite get_node_set_node.
    rewrite decide_False by done. apply Hnode.
  - simpl. congruence.
Qed.

(** *** Dead ends stay out of the open list *)

Lemma sound_ext st st' :
  search_space st' = search_space st → open_list st' = open_list st →
  open_list_sound st → open_list_sound st'.
Proof.
  intros Hsp Hol Hsound key id Hin. rewrite Hol in Hin.
  rewrite (get_node_ext st st') by done. by eapply Hsound.
Qed.

Lemma sound_set_node_live st id n :
  status n = OPEN ∨ status n = CLOSED →
  open_list_sound st → open_list_sound (set_node id n st).
Proof.
  intros Hn Hsound key id' Hin. rewrite get_node_set_node.
  destruct (decide (id = id')); [done|]. by eapply Hsound.
Qed.

Lemma sound_set_node_absent st id n :
  status (get_node st id) ≠ OPEN → status (get_node st id) ≠ CLOSED →
  open_list_sound st → open_list_sound (set_node id n st).
Proof.
  intros Hno Hnc Hsound key id' Hin. rewrite get_node_set_node.
  destruct (decide (id = id')) as [<-|]; [|by eapply Hsound].
  destruct (Hsound key id Hin); done.
Qed.

Lemma sound_insert st id gv p :
  status (get_node st id) = OPEN ∨ status (get_node st id) = CLOSED →
  open_list_sound st → open_list_sound (open_list_insert id gv p st).
Proof.
  intros Hid Hsound. unfold open_list_insert.
  destruct (open_list_is_dead_end _ _ _ _ _); [exact Hsound|].
  intros key id' Hin. simpl in Hin.
  apply queue_push_elem in Hin as [Hin|Heq].
  - by eapply Hsound.
  - by simplify_eq.
Qed.

Lemma sound_pop st e rest :
  queue_pop (open_list st) = Some (e, rest) →
  open_list_sound st → open_list_sound (with_open_list rest st).
Proof.
  intros Hpop Hsound key id Hin. simpl in Hin.
  apply queue_pop_elem in Hpop as [_ Hrest]. eapply Hsound. by apply Hrest.
Qed.

Lemma generate_successor_sound node_id state preferred st op_id :
  open_list_sound st →
  open_list_sound (generate_successor node_id state preferred st op_id).
Proof.
  intros Hsound. unfold generate_successor.
  destruct (_ >=? _); [done|].
  destruct (get_successor_state state op_id st) as [succ_id st1] eqn:Hreg.
  destruct (register_frame (successor_values task state op_id) st)
    as [Hsp1 Hol1].
  unfold get_successor_state in Hreg. rewrite Hreg in Hsp1, Hol1.
  simpl in Hsp1, Hol1.
  set (st2 := notify_state_transition node_id op_id succ_id
                (inc_generated st1)).
  destruct (notify_state_transition_frame node_id op_id succ_id
              (inc_generated st1)) as [Hsp2 Hol2].
  fold st2 in Hsp2, Hol2. simpl in Hsp2, Hol2.
  assert (Hsound2 : open_list_sound st2).
  { eapply sound_ext; [| |exact Hsound]; congruence. }
  assert (Hsucc : get_node (inc_generated st1) succ_id = get_node st2 succ_id).
  { symmetry. by apply get_node_ext. }
  rewrite Hsucc. clearbody st2. clear Hsucc.
  set (succ_node := get_node st2 succ_id).
  set (node := get_node st2 node_id).
  unfold is_dead_end, is_new, is_open, is_closed.
  destruct (status succ_node) eqn:Hstatus; simpl.
  - (* New *)
    destruct (open_list_is_dead_end _ _ _ _ _) eqn:Hdead.
    + apply (sound_ext (set_node succ_id (mark_as_dead_end succ_node) st2));
        [done|done|].
      apply sound_set_node_absent; [| |exact Hsound2];
        fold succ_node; by rewrite Hstatus.
    + set (st3 := set_node succ_id _ _).
      assert (Hsound3 : open_list_sound st3).
      { apply sound_set_node_live; [by left|].
        eapply sound_ext; [| |exact Hsound2]; done. }
      assert (Hsound4 : open_list_sound
                (open_list_insert succ_id
                   (g node + get_adjusted_cost task op_id)
                   (bool_decide (op_id ∈ preferred)) st3)).
      { apply sound_insert; [|done]. left. unfold st3.
        by rewrite get_node_set_node, decide_True. }
      destruct (check_progress _ _ _ _ _);
        (eapply sound_ext; [| |exact Hsound4]; done).
  - (* Open *)
    destruct (_ >? _); [|done].
    set (st3 := set_node succ_id _ _).
    apply sound_insert.
    + left. unfold st3. by rewrite get_node_set_node, decide_True.
    + apply sound_set_node_live; [by left|done].
  - (* Closed *)
    destruct (_ >? _); [|done].
    destruct (reopen_closed_nodes search).
    + set (st3 := set_node succ_id _ _).
      apply sound_insert.
      * left. unfold st3. by rewrite get_node_set_node, decide_True.
      * apply sound_set_node_live; [by left|].
        eapply sound_ext; [| |exact Hsound2]; done.
    + apply sound_set_node_live; [by right|done].
  - (* DeadEnd *)
    done.
Qed.

Lemma generate_successors_sound node_id st :
  open_list_sound st → open_list_sound (generate_successors node_id st).
Proof.
  intros Hsound. unfold generate_successors.
  destruct (lookup_state st node_id) as [state|]; [|done].
  destruct (collect_preferred_operators_for_node node_id st)
    as [preferred st1] eqn:Hpref.
  assert (Hsound1 : open_list_sound st1).
  { unfold collect_preferred_operators_for_node in Hpref.
    destruct (preferred_operator_evaluators search); simplify_eq; [done|].
    eapply sound_ext; [| |exact Hsound]; done. }
  clear Hpref. revert st1 Hsound1.
  induction (prune_operators task state (generate_applicable_ops task state))
    as [|op ops IH]; intros st1 Hsound1; simpl; [done|].
  by apply IH, generate_successor_sound.
Qed.

Lemma expand_sound node_id st :
  open_list_sound st → open_list_sound (expand node_id st).2.
Proof.
  intros Hsound. unfold expand.
  destruct (check_goal_and_set_plan node_id (inc_expanded st))
    as [solved st1] eqn:Hgoal.
  assert (Hsound1 : open_list_sound st1).
  { unfold check_goal_and_set_plan in Hgoal.
    destruct (lookup_state _ _); [destruct (is_goal_state _ _)|];
      simplify_eq; (eapply sound_ext; [| |exact Hsound]; done). }
  destruct solved; simpl; [done|]. by apply generate_successors_sound.
Qed.

Lemma initialize_sound : open_list_sound (initialize initial_search_state).
Proof.
  unfold initialize.
  destruct (register (initial_state_values task) initial_search_state)
    as [initial_id st1] eqn:Hreg.
  destruct (register_frame (initial_state_values task) initial_search_state)
    as [Hsp1 Hol1].
  rewrite Hreg in Hsp1, Hol1. simpl in Hsp1, Hol1.
  set (st2 := foldl _ st1 _).
  assert (Hframe2 : search_space st2 = search_space st1
                    ∧ open_list st2 = open_list st1).
  { unfold st2. generalize (path_dependent_evaluators evaluators).
    intros l. generalize st1.
    induction l as [|e l IH]; intros st0; simpl; [done|].
    destruct (IH (record (NotifiedInitialState e initial_id) st0))
      as [-> ->]. done. }
  destruct Hframe2 as [Hsp2 Hol2].
  assert (Hsound2 : open_list_sound st2).
  { intros key id Hin. rewrite Hol2, Hol1 in Hin.
    by apply elem_of_nil in Hin. }
  clearbody st2. simpl.
  destruct (open_list_is_dead_end _ _ _ _ _).
  - eapply sound_ext; [| |exact Hsound2]; done.
  - set (st3 := update_f_value_statistics _ _ _ _).
    destruct (update_f_value_statistics_frame initial_id 0 true
                (record (Evaluated ProgressCheck initial_id 0 true)
                   (record (Evaluated OpenListDeadEnd initial_id 0 true)
                      (inc_evaluated_states st2)))) as [Hsp3 Hol3].
    fold st3 in Hsp3, Hol3. simpl in Hsp3, Hol3.
    apply sound_insert.
    + left. by rewrite get_node_set_node, decide_True.
    + apply sound_set_node_live; [by left|].
      eapply sound_ext; [| |exact Hsound2]; done.
Qed.

(** Without a lazy evaluator an iteration touches the node it returns
    and nothing else. *)
Lemma get_next_node_without_lazy_evaluator fuel : ∀ st,
  lazy_evaluator search = None →
  open_list_sound st →
  match get_next_node_to_expand fuel st with
  | Some (Some id, st') =>
      status (get_node st id) = OPEN
      ∧ status (get_node st' id) = CLOSED
      ∧ open_list_sound st'
  | Some (None, st') => open_list_sound st'
  | None => (fuel ≤ length (open_list st))%nat
  end.
Proof.
  intros st Hlazy. revert st.
  induction fuel as [|fuel IH]; intros st Hsound; simpl; [lia|].
  destruct (queue_pop (open_list st)) as [[[key id] rest]|] eqn:Hpop;
    [|done].
  pose proof (sound_pop _ _ _ Hpop Hsound) as Hsound1.
  pose proof (queue_pop_length _ _ _ Hpop) as Hlen.
  destruct (queue_pop_elem _ _ _ Hpop) as [Hin _].
  unfold next_node_iteration.
  change (get_node (with_open_list rest st) id) with (get_node st id).
  unfold is_closed. rewrite Hlazy.
  destruct (Hsound key id Hin) as [Hopen|Hclosed].
  - rewrite Hopen. simpl. unfold close_and_return.
    set (st2 := set_node id _ _).
    destruct (update_f_value_statistics_frame id
                (g (get_node (with_open_list rest st) id)) false st2)
      as [Hsp Hol].
    split; [done|]. split.
    + rewrite (get_node_ext st2) by done. unfold st2.
      by rewrite get_node_set_node, decide_True.
    + eapply sound_ext; [exact Hsp|exact Hol|].
      apply sound_set_node_live; [by right|done].
  - rewrite Hclosed. simpl.
    specialize (IH _ Hsound1).
    destruct (get_next_node_to_expand fuel (with_open_list rest st))
      as [[[r|] st']|]; simpl in *; [done|done|lia].
Qed.

Lemma step_sound fuel st status st' :
  lazy_evaluator search = None →
  open_list_sound st → step fuel st = Some (status, st') →
  open_list_sound st'.
Proof.
  intros Hlazy Hsound Hstep. unfold step in Hstep.
  pose proof (get_next_node_without_lazy_evaluator fuel st Hlazy Hsound)
    as Hnext.
  destruct (get_next_node_to_expand fuel st) as [[[id|] st1]|];
    simplify_eq; [|done].
  destruct Hnext as (_ & _ & Hsound1).
  pose proof (expand_sound id st1 Hsound1) as Hexp.
  by destruct (expand id st1); simplify_eq.
Qed.

Lemma reachable_sound st :
  lazy_evaluator search = None → reachable st → open_list_sound st.
Proof.
  intros Hlazy Hreach.
  induction Hreach as [|fuel st status st' _ IH Hstep].
  - apply initialize_sound.
  - by eapply step_sound.
Qed.

(** C9.  Without a lazy evaluator, in every state of a run no entry of
    the open list belongs to a node marked as dead end (every entry
    belongs to an Open or a Closed node).  [get_next_node_to_expand]
    then returns within as many iterations as the open list has entries,
    and a node it returns was Open when the call began and is Closed, so
    not a dead end, when the call returns. *)
Theorem no_dead_end_in_open_list_without_lazy_evaluator (st : SearchState) :
  lazy_evaluator search = None →
  reachable st →
  (∀ key id, (key, id) ∈ open_list st → is_dead_end (get_node st id) = false)
  ∧ (∀ fuel, (length (open_list st) < fuel)%nat →
       is_Some (get_next_node_to_expand fuel st))
  ∧ (∀ fuel id st',
       get_next_node_to_expand fuel st = Some (Some id, st') →
       status (get_node st id) = OPEN
       ∧ is_dead_end (get_node st' id) = false).
Proof.
  intros Hlazy Hreach.
  pose proof (reachable_sound st Hlazy Hreach) as Hsound.
  split; [|split].
  - intros key id Hin. unfold is_dead_end.
    destruct (Hsound key id Hin) as [-> | ->]; done.
  - intros fuel Hfuel.
    pose proof (get_next_node_without_lazy_evaluator fuel st Hlazy Hsound)
      as Hnext.
    destruct (get_next_node_to_expand fuel st); [done|lia].
  - intros fuel id st' Hrun.
    pose proof (get_next_node_without_lazy_evaluator fuel st Hlazy Hsound)
      as Hnext.
    rewrite Hrun in Hnext. destruct Hnext as (Hopen & Hclosed & _).
    split; [done|]. unfold is_dead_end. by rewrite Hclosed.
Qed.

Lemma run_reachable n fuel : ∀ st, reachable st → reachable (run n fuel st).
Proof.
  induction n as [|n IH]; intros st Hreach; simpl; [done|].
  destruct (step fuel st) as [[status st']|] eqn:Hstep; [|done].
  assert (reachable st') by (by eapply reachable_step).
  destruct status; [by apply IH|done|done].
Qed.

(** *** The life of a node *)

Definition has_lazy_evaluator : bool :=
  match lazy_evaluator search with Some _ => true | None => false end.

(** The statuses that a node of status [s] can have later in the search:
    a dead end stays one, a Closed node is opened again only if reopening
    is enabled, an Open node becomes a dead end only through the lazy
    evaluator, and no node becomes New. *)
Definition may_become (s s' : NodeStatus) : bool :=
  match s, s' with
  | NEW, _ => true
  | OPEN, NEW => false
  | OPEN, DEAD_END => has_lazy_evaluator
  | OPEN, _ => true
  | CLOSED, NEW => false
  | CLOSED, OPEN => reopen_closed_nodes search
  | CLOSED, CLOSED => true
  | CLOSED, DEAD_END => reopen_closed_nodes search && has_lazy_evaluator
  | DEAD_END, DEAD_END => true
  | DEAD_END, _ => false
  end.

Definition evolves (st st' : SearchState) : Prop :=
  ∀ id, may_become (status (get_node st id)) (status (get_node st' id)) = true.

(** The nodes that [n] steps expand, in the order of their expansion. *)
Fixpoint expanded_nodes (n fuel : nat) (st : SearchState) : list StateID :=
  match n with
  | O => []
  | S n' =>
      match get_next_node_to_expand fuel st with
      | Some (Some id, st1) =>
          id :: match expand id st1 with
                | (IN_PROGRESS, st2) => expanded_nodes n' fuel st2
                | _ => []
                end
      | _ => []
      end
  end.

(** Every entry of the open list belongs to a registered state. *)
Definition open_list_registered (st : SearchState) : Prop :=
  ∀ key id, (key, id) ∈ open_list st → is_Some (lookup_state st id).

Lemma may_become_refl s : may_become s s = true.
Proof. by destruct s. Qed.

Lemma may_become_trans s1 s2 s3 :
  may_become s1 s2 = true → may_become s2 s3 = true →
  may_become s1 s3 = true.
Proof.
  unfold may_become.
  destruct s1, s2, s3, (reopen_closed_nodes search), has_lazy_evaluator; done.
Qed.

Lemma evolves_same st st' : search_space st' = search_space st → evolves st st'.
Proof.
  intros Hsp id. rewrite (get_node_ext st st') by done. apply may_become_refl.
Qed.

Lemma evolves_trans st1 st2 st3 :
  evolves st1 st2 → evolves st2 st3 → evolves st1 st3.
Proof. intros H12 H23 id. eapply may_become_trans; [apply H12|apply H23]. Qed.

Lemma evolves_set_node st st' id n :
  search_space st' = <[id := n]> (search_space st) →
  may_become (status (get_node st id)) (status n) = true →
  evolves st st'.
Proof.
  intros Hsp Hn id'.
  rewrite (get_node_ext (set_node id n st) st') by done.
  rewrite get_node_set_node.
  destruct (decide (id = id')) as [<-|]; [done|apply may_become_refl].
Qed.

Lemma generate_successor_evolves node_id state preferred st op_id :
  evolves st (generate_successor node_id state preferred st op_id).
Proof.
  unfold generate_successor.
  destruct (_ >=? _); [by apply evolves_same|].
  destruct (get_successor_state state op_id st) as [succ_id st1] eqn:Hreg.
  destruct (register_frame (successor_values task state op_id) st)
    as [Hsp1 _].
  unfold get_successor_state in Hreg. rewrite Hreg in Hsp1. simpl in Hsp1.
  set (st2 := notify_state_transition node_id op_id succ_id
                (inc_generated st1)).
  destruct (notify_state_transition_frame node_id op_id succ_id
              (inc_generated st1)) as [Hsp2 _].
  fold st2 in Hsp2. simpl in Hsp2.
  assert (Hsp : search_space st2 = search_space st) by congruence.
  assert (Hsucc : get_node (inc_generated st1) succ_id = get_node st2 succ_id).
  { symmetry. by apply get_node_ext. }
  rewrite Hsucc. clear Hsucc.
  apply (evolves_trans _ st2); [by apply evolves_same|].
  clearbody st2. clear Hsp Hsp1 Hsp2 Hreg st1.
  set (succ_node := get_node st2 succ_id).
  set (node := get_node st2 node_id).
  unfold is_dead_end, is_new, is_open, is_closed.
  destruct (status succ_node) eqn:Hstatus; simpl.
  - destruct (open_list_is_dead_end _ _ _ _ _).
    + eapply (evolves_set_node _ _ succ_id); [done|].
      fold succ_node. by rewrite Hstatus.
    + eapply (evolves_set_node _ _ succ_id
                (open_new_node node_id node op_id
                   (get_adjusted_cost task op_id) (get_cost task op_id)
                   succ_node)).
      * destruct (check_progress _ _ _ _ _); simpl;
          by rewrite open_list_insert_search_space.
      * fold succ_node. by rewrite Hstatus.
  - destruct (_ >? _); [|by apply evolves_same].
    eapply (evolves_set_node _ _ succ_id
              (update_open_node_parent node_id node op_id
                 (get_adjusted_cost task op_id) (get_cost task op_id)
                 succ_node)).
    + by rewrite open_list_insert_search_space.
    + fold succ_node. simpl. by rewrite Hstatus.
  - destruct (_ >? _); [|by apply evolves_same].
    destruct (reopen_closed_nodes search) eqn:Hreopen.
    + eapply (evolves_set_node _ _ succ_id
                (reopen_closed_node node_id node op_id
                   (get_adjusted_cost task op_id) (get_cost task op_id)
                   succ_node)).
      * by rewrite open_list_insert_search_space.
      * fold succ_node. rewrite Hstatus. simpl. by rewrite Hreopen.
    + eapply (evolves_set_node _ _ succ_id); [done|].
      fold succ_node. simpl. by rewrite Hstatus.
  - by apply evolves_same.
Qed.

Lemma expand_evolves node_id st : evolves st (expand node_id st).2.
Proof.
  unfold expand.
  destruct (check_goal_and_set_plan node_id (inc_expanded st))
    as [solved st1] eqn:Hgoal.
  assert (Hsp1 : search_space st1 = search_space st).
  { unfold check_goal_and_set_plan in Hgoal.
    destruct (lookup_state _ _); [destruct (is_goal_state _ _)|];
      by simplify_eq. }
  destruct solved; simpl; [by apply evolves_same|].
  apply (evolves_trans _ st1); [by apply evolves_same|].
  unfold generate_successors.
  destruct (lookup_state st1 node_id) as [state|]; [|by apply evolves_same].
  destruct (collect_preferred_operators_for_node node_id st1)
    as [preferred st2] eqn:Hpref.
  assert (Hsp2 : search_space st2 = search_space st1).
  { unfold collect_preferred_operators_for_node in Hpref.
    destruct (preferred_operator_evaluators search); by simplify_eq. }
  apply (evolves_trans _ st2); [by apply evolves_same|].
  clear Hpref Hsp2. revert st2.
  induction (prune_operators task state (generate_applicable_ops task state))
    as [|op ops IH]; intros st2; simpl; [by apply evolves_same|].
  eapply evolves_trans; [apply generate_successor_evolves|apply IH].
Qed.

(** One iteration of [get_next_node_to_expand]. *)
Lemma next_node_iteration_evolves id st :
  (lazy_evaluator search = None →
   status (get_node st id) = OPEN ∨ status (get_node st id) = CLOSED) →
  match next_node_iteration id st with
  | Continue st' =>
      evolves st st'
      ∧ (lazy_evaluator search = None →
         search_space st' = search_space st ∧ open_list st' = open_list st)
  | Return r st' =>
      evolves st st' ∧ r = id
      ∧ is_closed (get_node st id) = false
      ∧ status (get_node st' id) = CLOSED
  end.
Proof.
  intros Hlive. unfold next_node_iteration.
  destruct (is_closed (get_node st id)) eqn:Hclosed.
  { split; [by apply evolves_same|done]. }
  assert (Hclose : ∀ st1,
    search_space st1 = search_space st →
    status (get_node st id) ≠ DEAD_END →
    match close_and_return id st1 with
    | Continue _ => False
    | Return r st' =>
        evolves st st' ∧ r = id ∧ false = false
        ∧ status (get_node st' id) = CLOSED
    end).
  { intros st1 Hsp1 Hnd. unfold close_and_return.
    destruct (update_f_value_statistics_frame id (g (get_node st1 id)) false
                (set_node id (close (get_node st1 id)) st1)) as [Hsp _].
    split; [|split; [done|split; [done|]]].
    - eapply (evolves_set_node _ _ id (close (get_node st1 id))).
      + rewrite Hsp. simpl. by rewrite Hsp1.
      + unfold is_closed in Hclosed. simpl.
        destruct (status (get_node st id)) eqn:Hs; simpl; try done.
    - rewrite (get_node_ext (set_node id (close (get_node st1 id)) st1))
        by done.
      by rewrite get_node_set_node, decide_True. }
  destruct (lazy_evaluator search) as [evaluator|] eqn:Hlazy.
  - assert (Hhas : has_lazy_evaluator = true).
    { unfold has_lazy_evaluator. by rewrite Hlazy. }
    unfold lazy_block. unfold is_dead_end.
    destruct (bool_decide (status (get_node st id) = DEAD_END)) eqn:Hdead.
    { split; [by apply evolves_same|done]. }
    apply bool_decide_eq_false in Hdead.
    destruct (lazy_is_estimate_cached _ _ _); [|by apply Hclose].
    simpl. destruct (open_list_is_dead_end _ _ _ _ _).
    + split; [|done].
      eapply (evolves_set_node _ _ id (mark_as_dead_end (get_node st id)));
        [done|].
      unfold is_closed in Hclosed. simpl. unfold may_become. rewrite Hhas.
      destruct (status (get_node st id)) eqn:Hs; simpl; try done.
    + destruct (negb _).
      * split; [|done]. apply evolves_same.
        by rewrite open_list_insert_search_space.
      * by apply Hclose.
  - apply Hclose; [done|]. destruct (Hlive eq_refl) as [-> | ->]; done.
Qed.

Lemma get_next_node_evolves fuel : ∀ st r st',
  (lazy_evaluator search = None → open_list_sound st) →
  get_next_node_to_expand fuel st = Some (r, st') →
  evolves st st'
  ∧ ∀ id, r = Some id →
          status (get_node st' id) = CLOSED
          ∧ ∃ st0, evolves st st0 ∧ is_closed (get_node st0 id) = false.
Proof.
  induction fuel as [|fuel IH]; intros st r st' Hsound Hrun; [done|].
  simpl in Hrun.
  destruct (queue_pop (open_list st)) as [[[key id] rest]|] eqn:Hpop.
  - destruct (queue_pop_elem _ _ _ Hpop) as [Hin _].
    pose proof (next_node_iteration_evolves id (with_open_list rest st))
      as Hit.
    destruct (next_node_iteration id (with_open_list rest st))
      as [st1|id' st1].
    + destruct Hit as [Hev Hsame].
      { intros Hlazy. by apply (Hsound Hlazy key id). }
      destruct (IH st1 r st') as [Hev' Hret]; [|done|].
      { intros Hlazy. destruct (Hsame Hlazy) as [Hsp Hol].
        eapply sound_ext; [exact Hsp|exact Hol|].
        eapply sound_pop; [exact Hpop|by apply Hsound]. }
      assert (Hev1 : evolves st st1).
      { eapply evolves_trans; [|exact Hev]. by apply evolves_same. }
      split; [by eapply evolves_trans|].
      intros id0 Hr. destruct (Hret id0 Hr) as (Hcl & st0 & Hev0 & Hopen).
      split; [done|]. exists st0. split; [by eapply evolves_trans|done].
    + destruct Hit as (Hev & -> & Hopen & Hcl).
      { intros Hlazy. by apply (Hsound Hlazy key id). }
      simplify_eq.
      assert (Hev1 : evolves st st').
      { eapply evolves_trans; [|exact Hev]. by apply evolves_same. }
      split; [done|]. intros id0 [= <-]. split; [done|].
      exists st. split; [by apply evolves_same|done].
  - simplify_eq. split; [by apply evolves_same|done].
Qed.

(** X12.  Along every step of a run the status of each node changes only
    as [may_become] allows: a node marked as dead end stays a dead end, a
    Closed node is Open again only if reopening is enabled, an Open node
    becomes a dead end only with a lazy evaluator, and a node that is not
    New never becomes New. *)
Theorem node_status_evolves fuel st status_ st' :
  reachable st →
  step fuel st = Some (status_, st') →
  ∀ id, may_become (status (get_node st id)) (status (get_node st' id)) = true.
Proof.
  intros Hreach Hstep. unfold step in Hstep.
  destruct (get_next_node_to_expand fuel st) as [[r st1]|] eqn:Hnext;
    [|done].
  destruct (get_next_node_evolves fuel st r st1) as [Hev _]; [|done|].
  { intros Hlazy. by apply reachable_sound. }
  destruct r as [node_id|]; simplify_eq; [|exact Hev].
  pose proof (expand_evolves node_id st1) as Hexp.
  rewrite Hstep in Hexp. by eapply evolves_trans.
Qed.

(** *** Without reopening no node is expanded twice *)

Lemma closed_not_expanded n fuel id :
  reopen_closed_nodes search = false →
  ∀ st, reachable st → status (get_node st id) = CLOSED →
        id ∉ expanded_nodes n fuel st.
Proof.
  intros Hreopen.
  assert (Hstay : ∀ st st', evolves st st' →
            status (get_node st id) = CLOSED →
            status (get_node st' id) = CLOSED).
  { intros st st' Hev Hcl. specialize (Hev id). rewrite Hcl in Hev.
    unfold may_become in Hev. rewrite Hreopen in Hev.
    by destruct (status (get_node st' id)). }
  induction n as [|n IH]; intros st Hreach Hcl; simpl;
    [by intros ?%elem_of_nil|].
  destruct (get_next_node_to_expand fuel st) as [[[r|] st1]|] eqn:Hnext;
    try (by intros ?%elem_of_nil).
  destruct (get_next_node_evolves fuel st (Some r) st1) as [Hev Hret];
    [|done|].
  { intros Hlazy. by apply reachable_sound. }
  destruct (Hret r eq_refl) as (Hcl1 & st0 & Hev0 & Hopen).
  intros [->|Hin]%elem_of_cons.
  - unfold is_closed in Hopen. rewrite (Hstay _ _ Hev0 Hcl) in Hopen. done.
  - destruct (expand r st1) as [[] st2] eqn:Hexp;
      try (by apply elem_of_nil in Hin).
    revert Hin. apply IH.
    + eapply reachable_step; [exact Hreach|]. unfold step.
      by rewrite Hnext, Hexp.
    + pose proof (expand_evolves r st1) as Hev2. rewrite Hexp in Hev2.
      eapply Hstay; [exact Hev2|]. by eapply Hstay.
Qed.

(** X13.  With reopening disabled no node is expanded twice: the nodes
    that the steps of a run expand are pairwise different. *)
Theorem no_node_expanded_twice_without_reopening n fuel st :
  reopen_closed_nodes search = false →
  reachable st →
  NoDup (expanded_nodes n fuel st).
Proof.
  intros Hreopen. revert st.
  induction n as [|n IH]; intros st Hreach; simpl; [constructor|].
  destruct (get_next_node_to_expand fuel st) as [[[r|] st1]|] eqn:Hnext;
    try constructor.
  - destruct (get_next_node_evolves fuel st (Some r) st1) as [Hev Hret];
    [|done|].
    { intros Hlazy. by apply reachable_sound. }
    destruct (Hret r eq_refl) as (Hcl1 & _).
    destruct (expand r st1) as [[] st2] eqn:Hexp;
      try (by intros ?%elem_of_nil).
    assert (Hreach2 : reachable st2).
    { eapply reachable_step; [exact Hreach|]. unfold step.
      by rewrite Hnext, Hexp. }
    apply closed_not_expanded; [done|done|].
    pose proof (expand_evolves r st1 r) as Hev2. rewrite Hexp in Hev2.
    simpl in Hev2. rewrite Hcl1 in Hev2. unfold may_become in Hev2.
    rewrite Hreopen in Hev2. by destruct (status (get_node st2 r)).
  - destruct (expand r st1) as [[] st2] eqn:Hexp; try constructor.
    apply IH. eapply reachable_step; [exact Hreach|]. unfold step.
    by rewrite Hnext, Hexp.
Qed.

(** *** The counters of the statistics *)

(** What the counters of a run satisfy at every moment. *)
Definition statistics_consistent (s : SearchStatistics) : Prop :=
  0 ≤ expanded_states s
  ∧ 0 ≤ reopened_states s
  ∧ 0 ≤ dead_end_states s
  ∧ 1 ≤ evaluated_states s
  ∧ evaluated_states s + reopened_states s ≤ generated_states s + 1
  ∧ (reopen_closed_nodes search = false → reopened_states s = 0)
  ∧ (lazy_evaluator search = None →
     dead_end_states s + 1 ≤ evaluated_states s).

Lemma register_statistics s st : statistics (register s st).2 = statistics st.
Proof. unfold register. by destruct (index_of s (state_registry st)). Qed.

Lemma notify_state_transition_statistics parent op successor st :
  statistics (notify_state_transition parent op successor st) = statistics st.
Proof.
  unfold notify_state_transition.
  generalize (path_dependent_evaluators evaluators). intros l. revert st.
  induction l as [|e l IH]; intros st; simpl; [done|]. by rewrite IH.
Qed.

Lemma update_f_value_statistics_statistics id gv p st :
  statistics (update_f_value_statistics id gv p st) = statistics st.
Proof. unfold update_f_value_statistics. by destruct (f_evaluator search). Qed.

Lemma open_list_insert_statistics id gv p st :
  statistics (open_list_insert id gv p st) = statistics st.
Proof.
  unfold open_list_insert. by destruct (open_list_is_dead_end _ _ _ _ _).
Qed.

Ltac count_states Hst :=
  unfold statistics_consistent in *; simpl;
  destruct Hst as (? & ? & ? & ? & ? & Hre & Hlz);
  split_and!; try lia; try done;
  try (let Hx := fresh in intros Hx; specialize (Hre Hx); lia);
  try (let Hx := fresh in intros Hx; specialize (Hlz Hx); lia);
  try (intros; congruence).

Lemma generate_successor_statistics node_id state preferred st op_id :
  statistics_consistent (statistics st) →
  statistics_consistent
    (statistics (generate_successor node_id state preferred st op_id)).
Proof.
  intros Hst. unfold generate_successor.
  destruct (_ >=? _); [done|].
  destruct (get_successor_state state op_id st) as [succ_id st1] eqn:Hreg.
  pose proof (register_statistics (successor_values task state op_id) st)
    as Hst1.
  unfold get_successor_state in Hreg. rewrite Hreg in Hst1. simpl in Hst1.
  set (st2 := notify_state_transition node_id op_id succ_id
                (inc_generated st1)).
  assert (Hst2 : statistics st2 = statistics (inc_generated st1)).
  { apply notify_state_transition_statistics. }
  simpl in Hst2. rewrite Hst1 in Hst2.
  generalize (get_node (inc_generated st1) succ_id). intros succ_node.
  clearbody st2. clear Hreg Hst1 st1.
  destruct (is_dead_end succ_node); [rewrite Hst2; count_states Hst|].
  destruct (is_new succ_node).
  - simpl. destruct (open_list_is_dead_end _ _ _ _ _).
    + simpl. rewrite Hst2. count_states Hst.
    + destruct (check_progress _ _ _ _ _); simpl;
        rewrite open_list_insert_statistics; simpl; rewrite Hst2;
        count_states Hst.
  - destruct (_ >? _); [|rewrite Hst2; count_states Hst].
    destruct (is_open succ_node).
    { rewrite open_list_insert_statistics. simpl. rewrite Hst2.
      count_states Hst. }
    destruct (is_closed succ_node); simpl;
      [|rewrite Hst2; count_states Hst].
    destruct (reopen_closed_nodes search) eqn:Hreopen; simpl.
    + rewrite open_list_insert_statistics. simpl. rewrite Hst2.
      count_states Hst.
    + rewrite Hst2. count_states Hst.
Qed.

Lemma expand_statistics node_id st :
  statistics_consistent (statistics st) →
  statistics_consistent (statistics (expand node_id st).2).
Proof.
  intros Hst. unfold expand.
  destruct (check_goal_and_set_plan node_id (inc_expanded st))
    as [solved st1] eqn:Hgoal.
  assert (Hst1 : statistics_consistent (statistics st1)).
  { assert (Heq : statistics st1 = statistics (inc_expanded st)).
    { unfold check_goal_and_set_plan in Hgoal.
      destruct (lookup_state _ _); [destruct (is_goal_state _ _)|];
        by simplify_eq. }
    rewrite Heq. count_states Hst. }
  destruct solved; simpl; [done|].
  unfold generate_successors.
  destruct (lookup_state st1 node_id) as [state|]; [|done].
  destruct (collect_preferred_operators_for_node node_id st1)
    as [preferred st2] eqn:Hpref.
  assert (Hst2 : statistics_consistent (statistics st2)).
  { unfold collect_preferred_operators_for_node in Hpref.
    destruct (preferred_operator_evaluators search); by simplify_eq. }
  clear Hpref. revert st2 Hst2.
  induction (prune_operators task state (generate_applicable_ops task state))
    as [|op ops IH]; intros st2 Hst2; simpl; [done|].
  apply IH. by apply generate_successor_statistics.
Qed.

Lemma next_node_iteration_statistics id st :
  statistics_consistent (statistics st) →
  match next_node_iteration id st with
  | Continue st' | Return _ st' => statistics_consistent (statistics st')
  end.
Proof.
  intros Hst. unfold next_node_iteration.
  destruct (is_closed (get_node st id)); [done|].
  assert (Hclose : ∀ st1,
    statistics_consistent (statistics st1) →
    match close_and_return id st1 with
    | Continue st' | Return _ st' => statistics_consistent (statistics st')
    end).
  { intros st1 Hst1. unfold close_and_return.
    by rewrite update_f_value_statistics_statistics. }
  destruct (lazy_evaluator search) as [evaluator|] eqn:Hlazy;
    [|by apply Hclose].
  unfold lazy_block.
  destruct (is_dead_end (get_node st id)); [done|].
  destruct (lazy_is_estimate_cached _ _ _); [|by apply Hclose].
  simpl. destruct (open_list_is_dead_end _ _ _ _ _).
  - count_states Hst.
  - destruct (negb _); [by rewrite open_list_insert_statistics|].
    by apply Hclose.
Qed.

Lemma get_next_node_statistics fuel : ∀ st r st',
  statistics_consistent (statistics st) →
  get_next_node_to_expand fuel st = Some (r, st') →
  statistics_consistent (statistics st').
Proof.
  induction fuel as [|fuel IH]; intros st r st' Hst Hrun; [done|].
  simpl in Hrun.
  destruct (queue_pop (open_list st)) as [[[key id] rest]|];
    [|by simplify_eq].
  pose proof (next_node_iteration_statistics id (with_open_list rest st) Hst)
    as Hit.
  destruct (next_node_iteration id (with_open_list rest st)) as [st1|id' st1].
  - by eapply IH.
  - by simplify_eq.
Qed.

Lemma initialize_statistics :
  statistics_consistent (statistics (initialize initial_search_state)).
Proof.
  unfold initialize.
  destruct (register (initial_state_values task) initial_search_state)
    as [initial_id st1] eqn:Hreg.
  pose proof (register_statistics (initial_state_values task)
                initial_search_state) as Hst1.
  rewrite Hreg in Hst1. simpl in Hst1.
  set (st2 := foldl _ st1 _).
  assert (Hst2 : statistics st2 = statistics st1).
  { unfold st2. generalize (path_dependent_evaluators evaluators).
    intros l. generalize st1.
    induction l as [|e l IH]; intros st; simpl; [done|]. by rewrite IH. }
  clearbody st2. rewrite Hst1 in Hst2. simpl.
  assert (Hone : statistics_consistent
                   (statistics (inc_evaluated_states st2))).
  { unfold statistics_consistent. simpl. rewrite Hst2. simpl.
    split_and!; try lia; done. }
  destruct (open_list_is_dead_end _ _ _ _ _); [done|].
  rewrite open_list_insert_statistics. simpl.
  by rewrite update_f_value_statistics_statistics.
Qed.

(** X14.  At every moment of a run the counters of the statistics agree
    with one another: the initial state is counted as evaluated; every
    evaluated or reopened state other than the initial one was generated
    before; nothing is counted as reopened when reopening is disabled; and
    without a lazy evaluator every dead end counted is an evaluated
    successor. *)
Theorem statistics_stay_consistent st :
  reachable st →
  let s := statistics st in
  0 ≤ expanded_states s
  ∧ 1 ≤ evaluated_states s
  ∧ evaluated_states s + reopened_states s ≤ generated_states s + 1
  ∧ (reopen_closed_nodes search = false → reopened_states s = 0)
  ∧ (lazy_evaluator search = None →
     0 ≤ dead_end_states s < evaluated_states s).
Proof.
  intros Hreach.
  assert (Hall : statistics_consistent (statistics st)).
  { induction Hreach as [|fuel st status_ st' _ IH Hstep].
    - apply initialize_statistics.
    - unfold step in Hstep.
      destruct (get_next_node_to_expand fuel st) as [[r st1]|] eqn:Hnext;
        [|done].
      pose proof (get_next_node_statistics fuel st r st1 IH Hnext) as Hst1.
      destruct r as [node_id|]; simplify_eq; [|done].
      pose proof (expand_statistics node_id st1 Hst1) as Hexp.
      by rewrite Hstep in Hexp. }
  unfold statistics_consistent in Hall. simpl.
  destruct Hall as (? & ? & ? & ? & ? & ? & Hdead).
  split_and!; try done. intros Hlazy. specialize (Hdead Hlazy). lia.
Qed.

(** *** The bound on the real cost *)

Definition below_bound (st : SearchState) : Prop :=
  ∀ id, real_g (get_node st id) < bound search.

Lemma below_bound_same st st' :
  search_space st' = search_space st → below_bound st → below_bound st'.
Proof. intros Hsp Hst id. rewrite (get_node_ext st st') by done. apply Hst. Qed.

Lemma below_bound_set_node st st' id n :
  search_space st' = <[id := n]> (search_space st) →
  real_g n < bound search →
  below_bound st → below_bound st'.
Proof.
  intros Hsp Hn Hst id'.
  rewrite (get_node_ext (set_node id n st) st') by done.
  rewrite get_node_set_node.
  destruct (decide (id = id')); [done|apply Hst].
Qed.

Lemma generate_successor_below_bound node_id state preferred st op_id :
  below_bound st →
  below_bound (generate_successor node_id state preferred st op_id).
Proof.
  intros Hst. unfold generate_successor.
  destruct (_ >=? _) eqn:Hguard; [done|].
  rewrite Z.geb_leb in Hguard. apply Z.leb_gt in Hguard.
  destruct (get_successor_state state op_id st) as [succ_id st1] eqn:Hreg.
  destruct (register_frame (successor_values task state op_id) st)
    as [Hsp1 _].
  unfold get_successor_state in Hreg. rewrite Hreg in Hsp1. simpl in Hsp1.
  set (st2 := notify_state_transition node_id op_id succ_id
                (inc_generated st1)).
  destruct (notify_state_transition_frame node_id op_id succ_id
              (inc_generated st1)) as [Hsp2 _].
  fold st2 in Hsp2. simpl in Hsp2.
  assert (Hsp : search_space st2 = search_space st) by congruence.
  assert (Hsucc : get_node (inc_generated st1) succ_id = get_node st2 succ_id).
  { symmetry. by apply get_node_ext. }
  rewrite Hsucc. clear Hsucc.
  assert (Hst2 : below_bound st2) by (by apply (below_bound_same st)).
  assert (Hnode : real_g (get_node st2 node_id) + get_cost task op_id
                  < bound search).
  { rewrite (get_node_ext st st2) by done. lia. }
  clearbody st2. clear Hsp Hsp1 Hsp2 Hreg st1 Hguard Hst.
  destruct (is_dead_end (get_node st2 succ_id)); [done|].
  destruct (is_new (get_node st2 succ_id)).
  - simpl. destruct (open_list_is_dead_end _ _ _ _ _).
    + eapply (below_bound_set_node _ _ succ_id); [done| |exact Hst2].
      apply Hst2.
    + eapply (below_bound_set_node _ _ succ_id
                (open_new_node node_id (get_node st2 node_id) op_id
                   (get_adjusted_cost task op_id) (get_cost task op_id)
                   (get_node st2 succ_id))); [|exact Hnode|exact Hst2].
      destruct (check_progress _ _ _ _ _); simpl;
        by rewrite open_list_insert_search_space.
  - destruct (_ >? _); [|done].
    destruct (is_open (get_node st2 succ_id)).
    { eapply (below_bound_set_node _ _ succ_id
                (update_open_node_parent node_id (get_node st2 node_id) op_id
                   (get_adjusted_cost task op_id) (get_cost task op_id)
                   (get_node st2 succ_id))); [|exact Hnode|exact Hst2].
      by rewrite open_list_insert_search_space. }
    destruct (is_closed (get_node st2 succ_id) && reopen_closed_nodes search).
    + eapply (below_bound_set_node _ _ succ_id
                (reopen_closed_node node_id (get_node st2 node_id) op_id
                   (get_adjusted_cost task op_id) (get_cost task op_id)
                   (get_node st2 succ_id))); [|exact Hnode|exact Hst2].
      by rewrite open_list_insert_search_space.
    + eapply (below_bound_set_node _ _ succ_id); [done| |exact Hst2].
      apply Hst2.
Qed.

Lemma expand_below_bound node_id st :
  below_bound st → below_bound (expand node_id st).2.
Proof.
  intros Hst. unfold expand.
  destruct (check_goal_and_set_plan node_id (inc_expanded st))
    as [solved st1] eqn:Hgoal.
  assert (Hst1 : below_bound st1).
  { apply (below_bound_same st); [|done].
    unfold check_goal_and_set_plan in Hgoal.
    destruct (lookup_state _ _); [destruct (is_goal_state _ _)|];
      by simplify_eq. }
  destruct solved; simpl; [done|].
  unfold generate_successors.
  destruct (lookup_state st1 node_id) as [state|]; [|done].
  destruct (collect_preferred_operators_for_node node_id st1)
    as [preferred st2] eqn:Hpref.
  assert (Hst2 : below_bound st2).
  { apply (below_bound_same st1); [|done].
    unfold collect_preferred_operators_for_node in Hpref.
    destruct (preferred_operator_evaluators search); by simplify_eq. }
  clear Hpref. revert st2 Hst2.
  induction (prune_operators task state (generate_applicable_ops task state))
    as [|op ops IH]; intros st2 Hst2; simpl; [done|].
  apply IH. by apply generate_successor_below_bound.
Qed.

Lemma next_node_iteration_below_bound id st :
  below_bound st →
  match next_node_iteration id st with
  | Continue st' | Return _ st' => below_bound st'
  end.
Proof.
  intros Hst. unfold next_node_iteration.
  destruct (is_closed (get_node st id)); [done|].
  assert (Hclose : ∀ st1,
    below_bound st1 →
    match close_and_return id st1 with
    | Continue st' | Return _ st' => below_bound st'
    end).
  { intros st1 Hst1. unfold close_and_return.
    destruct (update_f_value_statistics_frame id (g (get_node st1 id)) false
                (set_node id (close (get_node st1 id)) st1)) as [Hsp _].
    eapply (below_bound_set_node _ _ id (close (get_node st1 id)));
      [exact Hsp| |exact Hst1].
    apply Hst1. }
  destruct (lazy_evaluator search) as [evaluator|]; [|by apply Hclose].
  unfold lazy_block.
  destruct (is_dead_end (get_node st id)); [done|].
  destruct (lazy_is_estimate_cached _ _ _); [|by apply Hclose].
  simpl. destruct (open_list_is_dead_end _ _ _ _ _).
  - eapply (below_bound_set_node _ _ id (mark_as_dead_end (get_node st id)));
      [done| |exact Hst].
    apply Hst.
  - destruct (negb _); [|by apply Hclose].
    eapply below_bound_same; [|exact Hst].
    by rewrite open_list_insert_search_space.
Qed.

Lemma get_next_node_below_bound fuel : ∀ st r st',
  below_bound st →
  get_next_node_to_expand fuel st = Some (r, st') →
  below_bound st'.
Proof.
  induction fuel as [|fuel IH]; intros st r st' Hst Hrun; [done|].
  simpl in Hrun.
  destruct (queue_pop (open_list st)) as [[[key id] rest]|];
    [|by simplify_eq].
  pose proof (next_node_iteration_below_bound id (with_open_list rest st) Hst)
    as Hit.
  destruct (next_node_iteration id (with_open_list rest st)) as [st1|id' st1].
  - by eapply IH.
  - by simplify_eq.
Qed.

Lemma initialize_below_bound :
  0 < bound search → below_bound (initialize initial_search_state).
Proof.
  intros Hbound. unfold initialize.
  destruct (register (initial_state_values task) initial_search_state)
    as [initial_id st1] eqn:Hreg.
  destruct (register_frame (initial_state_values task) initial_search_state)
    as [Hsp1 _].
  rewrite Hreg in Hsp1. simpl in Hsp1.
  set (st2 := foldl _ st1 _).
  assert (Hsp2 : search_space st2 = search_space st1).
  { unfold st2. generalize (path_dependent_evaluators evaluators).
    intros l. generalize st1.
    induction l as [|e l IH]; intros st; simpl; [done|]. by rewrite IH. }
  clearbody st2. rewrite Hsp1 in Hsp2.
  assert (Hnew : below_bound st2).
  { intros id. unfold get_node. rewrite Hsp2, lookup_empty. simpl. lia. }
  simpl. destruct (open_list_is_dead_end _ _ _ _ _).
  { by apply (below_bound_same st2). }
  eapply (below_bound_set_node st2 _ initial_id
            (mkSearchNodeInfo OPEN 0 0 None None)); [|done|done].
  rewrite open_list_insert_search_space. simpl.
  destruct (update_f_value_statistics_frame initial_id 0 true
              (record (Evaluated ProgressCheck initial_id 0 true)
                 (record (Evaluated OpenListDeadEnd initial_id 0 true)
                    (inc_evaluated_states st2)))) as [-> _].
  done.
Qed.

(** X15.  With a positive bound, no node that a run has opened or closed
    has a g-value in real costs that reaches the bound. *)
Theorem opened_nodes_stay_below_bound st id :
  0 < bound search →
  reachable st →
  status (get_node st id) = OPEN ∨ status (get_node st id) = CLOSED →
  real_g (get_node st id) < bound search.
Proof.
  intros Hbound Hreach _.
  assert (Hall : below_bound st).
  { induction Hreach as [|fuel st status_ st' _ IH Hstep].
    - by apply initialize_below_bound.
    - unfold step in Hstep.
      destruct (get_next_node_to_expand fuel st) as [[r st1]|] eqn:Hnext;
        [|done].
      pose proof (get_next_node_below_bound fuel st r st1 IH Hnext) as Hst1.
      destruct r as [node_id|]; simplify_eq; [|done].
      pose proof (expand_below_bound node_id st1 Hst1) as Hexp.
      by rewrite Hstep in Hexp. }
  apply Hall.
Qed.

End Search.

(** *** A concrete task *)

(** One variable V with values 0 to 3, operators [0 : 0 -> 1] of cost 1,
    [1 : 1 -> 2] of cost 1, [2 : 0 -> 2] of cost 5 and [3 : 2 -> 3] of
    cost 1, goal V = 3.  The packed state is the value of V. *)
Definition detour_task : TaskInterface nat :=
  {| initial_state_values := 0%nat;
     successor_values := λ s op,
       match op with
       | 0%nat => 1%nat | 1%nat => 2%nat | 2%nat => 2%nat | 3%nat => 3%nat
       | _ => s
       end;
     is_goal_state := λ s, bool_decide (s = 3%nat);
     generate_applicable_ops := λ s,
       match s with
       | 0%nat => [0%nat; 2%nat] | 1%nat => [1%nat] | 2%nat => [3%nat]
       | _ => []
       end;
     prune_operators := λ _ ops, ops;
     get_cost := λ op, match op with 2%nat => 5 | _ => 1 end;
     get_adjusted_cost := λ op, match op with 2%nat => 5 | _ => 1 end |}.

(** Evaluators that never report a dead end; the open list is ordered by
    [key]. *)
Definition plain_evaluators (key : nat → Z) : Evaluators :=
  {| path_dependent_evaluators := [];
     open_list_is_dead_end := λ _ _ _ _, false;
     open_list_key := λ _ id _ _, key id;
     lazy_is_estimate_cached := λ _ _, false;
     lazy_get_cached_estimate := λ _ _, 0;
     lazy_value := λ _ _ _, 0;
     f_value := λ _ _ g, g;
     check_progress := λ _ _ _ _, false;
     preferred_operators := λ _ _ _, [] |}.

(** All keys equal: the open list is a FIFO queue. *)
Definition fifo : Evaluators := plain_evaluators (λ _, 0).

(** State 2 is preferred to state 1. *)
Definition greedy : Evaluators :=
  plain_evaluators (λ id, match id with
                          | 1%nat => 5 | 2%nat => 1 | 3%nat => 7 | _ => 0
                          end).

Definition search_with_bound (b : Z) : EagerSearch :=
  mkEagerSearch false None [] None b.

(** The search state after [initialize] and at most [n] steps. *)
Definition after_steps (evaluators : Evaluators) (b : Z) (n : nat)
  : SearchState :=
  run detour_task evaluators (search_with_bound b) n 10
    (initialize detour_task evaluators (search_with_bound b)
       initial_search_state).

(** The state in which [get_next_node_to_expand] leaves the search when
    called after [initialize] and [n] steps. *)
Definition expanding_after (evaluators : Evaluators) (b : Z) (n : nat)
  : SearchState :=
  match get_next_node_to_expand evaluators (search_with_bound b) 10
          (after_steps evaluators b n) with
  | Some (_, st) => st
  | None => after_steps evaluators b n
  end.

Example detour_task_fifo_plan :
  plan (after_steps fifo 100 4) = Some [0%nat; 1%nat; 3%nat].
Proof. vm_compute. reflexivity. Qed.

Example detour_task_fifo_stale_entry :
  open_list (after_steps fifo 100 3) = [(0, 2%nat); (0, 3%nat)]
  ∧ status (get_node (after_steps fifo 100 3) 2) = CLOSED.
Proof. vm_compute. done. Qed.

Example detour_task_greedy_keeps_g :
  let st := generate_successor detour_task greedy (search_with_bound 100)
              1 1%nat [] (expanding_after greedy 100 2) 1 in
  get_node st 2 = mkSearchNodeInfo CLOSED 5 5 (Some 1%nat) (Some 1%nat)
  ∧ open_list st = [(7, 3%nat)].
Proof. vm_compute. done. Qed.

Example detour_task_bound_3_fails :
  (fst <$> step detour_task fifo (search_with_bound 3) 10
             (after_steps fifo 3 3)) = Some FAILED.
Proof. vm_compute. reflexivity. Qed.

Example new_without_cache :
  new false None [] (Some (mkEvaluator 0 false)) 100 = Exits SEARCH_INPUT_ERROR
  ∧ new false None [] (Some (mkEvaluator 0 true)) 100
    = Returns (mkEagerSearch false None [] (Some (mkEvaluator 0 true)) 100)
  ∧ new false None [] None 100 = Returns (search_with_bound 100).
Proof. done. Qed.

Lemma get_next_node_discards_closed_entries_witness :
  let st := after_steps fifo 100 3 in
  next_node_iteration fifo (search_with_bound 100) 2
    (with_open_list [(0, 3%nat)] st)
  = Continue (with_open_list [(0, 3%nat)] st)
  ∧ match get_next_node_to_expand fifo (search_with_bound 100) 2 st with
    | Some (Some r, st') =>
        ∃ st0 key rest,
          skips fifo (search_with_bound 100) st st0
          ∧ queue_pop (open_list st0) = Some ((key, r), rest)
          ∧ is_closed (get_node st0 r) = false
          ∧ next_node_iteration fifo (search_with_bound 100) r
              (with_open_list rest st0) = Return r st'
    | _ => False
    end.
Proof.
  intros st.
  destruct (get_next_node_discards_closed_entries (PState:=nat)
              fifo (search_with_bound 100)) as [Hskip Hret].
  split.
  - apply (Hskip st 0 2%nat [(0, 3%nat)] 0%nat); vm_compute; reflexivity.
  - destruct (get_next_node_to_expand fifo (search_with_bound 100) 2 st)
      as [[[r|] st']|] eqn:Hrun.
    + by apply (Hret 2%nat st r st').
    + vm_compute in Hrun. discriminate Hrun.
    + vm_compute in Hrun. discriminate Hrun.
Defined.

Lemma generate_successor_rewires_closed_node_witness :
  let st := expanding_after greedy 100 2 in
  let st' := generate_successor detour_task greedy (search_with_bound 100)
               1 1%nat [] st 1 in
  get_node st' 2
  = mkSearchNodeInfo CLOSED (g (get_node st 2)) (real_g (get_node st 2))
      (Some 1%nat) (Some 1%nat)
  ∧ (∀ id, id ≠ 2%nat → get_node st' id = get_node st id)
  ∧ open_list st' = open_list st.
Proof.
  intros st.
  apply (generate_successor_rewires_closed_node detour_task greedy
           (search_with_bound 100) 1 1%nat [] st 1 2);
    vm_compute; reflexivity.
Defined.


Lemma no_dead_end_in_open_list_without_lazy_evaluator_witness :
  let st := after_steps fifo 100 3 in
  (∀ key id, (key, id) ∈ open_list st → is_dead_end (get_node st id) = false)
  ∧ (∀ fuel, (length (open_list st) < fuel)%nat →
       is_Some (get_next_node_to_expand fifo (search_with_bound 100) fuel st))
  ∧ (∀ fuel id st',
       get_next_node_to_expand fifo (search_with_bound 100) fuel st
       = Some (Some id, st') →
       status (get_node st id) = OPEN
       ∧ is_dead_end (get_node st' id) = false).
Proof.
  intros st.
  apply (no_dead_end_in_open_list_without_lazy_evaluator detour_task fifo
           (search_with_bound 100) st).
  - reflexivity.
  - apply run_reachable, reachable_initialize.
Defined.

Example detour_task_fifo_expansions :
  expanded_nodes detour_task fifo (search_with_bound 100) 5 10
    (after_steps fifo 100 0)
  = [0%nat; 1%nat; 2%nat; 3%nat]
  ∧ statistics (after_steps fifo 100 4) = mkSearchStatistics 4 4 4 0 0.
Proof. vm_compute. done. Qed.

Lemma node_status_evolves_witness :
  let st := after_steps fifo 100 2 in
  match step detour_task fifo (search_with_bound 100) 10 st with
  | Some (_, st') =>
      ∀ id, may_become (search_with_bound 100)
              (status (get_node st id)) (status (get_node st' id)) = true
  | None => False
  end.
Proof.
  intros st.
  destruct (step detour_task fifo (search_with_bound 100) 10 st)
    as [[status_ st']|] eqn:Hstep.
  - apply (node_status_evolves detour_task fifo (search_with_bound 100)
             10 st status_ st'); [|exact Hstep].
    apply run_reachable, reachable_initialize.
  - vm_compute in Hstep. discriminate Hstep.
Defined.

Lemma no_node_expanded_twice_without_reopening_witness :
  NoDup (expanded_nodes detour_task fifo (search_with_bound 100) 5 10
           (after_steps fifo 100 0)).
Proof.
  apply (no_node_expanded_twice_without_reopening detour_task fifo
           (search_with_bound 100) 5 10 (after_steps fifo 100 0)).
  - reflexivity.
  - apply run_reachable, reachable_initialize.
Defined.

Lemma statistics_stay_consistent_witness :
  let s := statistics (after_steps fifo 100 3) in
  0 ≤ expanded_states s
  ∧ 1 ≤ evaluated_states s
  ∧ evaluated_states s + reopened_states s ≤ generated_states s + 1
  ∧ (false = false → reopened_states s = 0)
  ∧ (@None Evaluator = None → 0 ≤ dead_end_states s < evaluated_states s).
Proof.
  apply (statistics_stay_consistent detour_task fifo (search_with_bound 100)
           (after_steps fifo 100 3)).
  apply run_reachable, reachable_initialize.
Defined.

Lemma opened_nodes_stay_below_bound_witness :
  real_g (get_node (after_steps greedy 100 3) 2) < 100.
Proof.
  apply (opened_nodes_stay_below_bound detour_task greedy
           (search_with_bound 100) (after_steps greedy 100 3) 2).
  - reflexivity.
  - apply run_reachable, reachable_initialize.
  - right. vm_compute. reflexivity.
Defined.

End Eager.

(** ** Bucket-based shrinking  ([merge_and_shrink/shrink_bucket_based.cc]) *)

Module ShrinkBucketBased.

(** *** Conversions between [int] and [size_t] *)

(** The function mixes [int] and [size_t].  A value converted to [int]
    is taken modulo 2^32 into the signed range, a value converted to
    [size_t] modulo 2^64. *)
Definition to_int (x : Z) : Z := (x + 2147483648) mod 4294967296 - 2147483648.
Definition to_size_t (x : Z) : Z := x mod 18446744073709551616.

(** The difference of two [int]s, undefined when it leaves the range of
    [int]. *)
Definition int_sub (a b : Z) : option Z :=
  if decide (-2147483648 ≤ a - b ≤ 2147483647) then Some (a - b) else None.

(** *** Groups *)

(** A [Bucket] is a [vector<int>] of abstract states, a
    [StateEquivalenceClass] a [forward_list<int>], and a
    [StateEquivalenceRelation] a vector of classes. *)
Abbreviation Bucket := (list Z) (only parsing).
Abbreviation StateEquivalenceClass := (list Z) (only parsing).
Abbreviation StateEquivalenceRelation := (list (list Z)) (only parsing).

Definition combine_buckets_warning : string :=
  "Very small node limit, must combine buckets.".

(** One group for each state of the bucket, each made by [push_front] on
    an empty group. *)
Definition singletons (bucket : Bucket) : list StateEquivalenceClass :=
  (λ state, [state]) <$> bucket.

(** [equiv_relation.back()] followed by [insert_after] at
    [before_begin()]: the bucket goes in front of the last group.  [back]
    is undefined on an empty vector. *)
Fixpoint insert_into_back (bucket : Bucket)
    (equiv_relation : StateEquivalenceRelation)
  : option StateEquivalenceRelation :=
  match equiv_relation with
  | [] => None
  | group :: rest =>
      match rest with
      | [] => Some [bucket ++ group]
      | _ :: _ => (group ::.) <$> insert_into_back bucket rest
      end
  end.

(** The body of the loop that combines groups, once [it1] and [it2] are
    chosen: [splice_after] moves the states of [*it2] to the front of
    [*it1], [swap] exchanges [*it2] with the last group, which the
    assertion requires to be empty and [pop_back] removes. *)
Definition combine (groups : list StateEquivalenceClass) (it1 it2 : nat)
  : option (list StateEquivalenceClass) :=
  group1 ← groups !! it1;
  group2 ← groups !! it2;
  let groups := <[it2 := []]> (<[it1 := group2 ++ group1]> groups) in
  let back := (length groups - 1)%nat in
  at_it2 ← groups !! it2;
  at_back ← groups !! back;
  let groups := <[back := at_it2]> (<[it2 := at_back]> groups) in
  last_group ← groups !! back;
  if decide (last_group = []) then Some (take back groups) else None.

Section Abstraction.
(** The random number generator is not among the sources: [random rng n]
    is the number that [rng->random(n)] draws and the generator
    afterwards. *)
Context {Rng : Type}.
Variable random : Rng → nat → nat * Rng.

(** [rng->choose(groups)] is [groups.begin() + rng->random(groups.size())];
    a number that is no position of [groups] gives no iterator to use. *)
Definition choose (rng : Rng) (groups : list StateEquivalenceClass)
  : option (nat * Rng) :=
  let '(it, rng) := random rng (length groups) in
  if decide (it < length groups)%nat then Some (it, rng) else None.

(** [while (it1 == it2) it2 = rng->choose(groups)], entered with
    [it2 = it1]; [None] when [fuel] draws did not suffice. *)
Fixpoint choose_other (fuel : nat) (rng : Rng)
    (groups : list StateEquivalenceClass) (it1 : nat) : option (nat * Rng) :=
  match fuel with
  | O => None
  | S fuel' =>
      '(it2, rng) ← choose rng groups;
      if decide (it1 = it2) then choose_other fuel' rng groups it1
      else Some (it2, rng)
  end.

(** [while (static_cast<int>(groups.size()) > budget_for_this_bucket)];
    [None] when [iterations] runs of the body did not suffice. *)
Fixpoint combine_loop (iterations fuel : nat) (rng : Rng)
    (groups : list StateEquivalenceClass) (budget_for_this_bucket : Z)
  : option (list StateEquivalenceClass * Rng) :=
  match iterations with
  | O => None
  | S iterations' =>
      if to_int (Z.of_nat (length groups)) >? budget_for_this_bucket then
        '(it1, rng) ← choose rng groups;
        '(it2, rng) ← choose_other fuel rng groups it1;
        groups ← combine groups it1 it2;
        combine_loop iterations' fuel rng groups budget_for_this_bucket
      else Some (groups, rng)
  end.

(** The variables that the loop over the buckets changes. *)
Record Progress : Type := mkProgress {
  equiv_relation : StateEquivalenceRelation;
  show_combine_buckets_warning : bool;
  log : list string;
  num_states_to_go : Z;
  rng : Rng
}.

Definition with_equiv_relation (e : StateEquivalenceRelation) (p : Progress) :=
  mkProgress e (show_combine_buckets_warning p) (log p) (num_states_to_go p)
    (rng p).

(** The branch in which the whole bucket forms one group. *)
Definition one_group (num_buckets bucket_no : nat) (bucket : Bucket)
    (remaining_state_budget : Z) (p : Progress) : option Progress :=
  let remaining_buckets :=
    to_int (to_size_t (Z.of_nat num_buckets - Z.of_nat bucket_no)) in
  let p :=
    if remaining_state_budget >=? remaining_buckets
    then with_equiv_relation (equiv_relation p ++ [[]]) p
    else
      let p :=
        if decide (bucket_no = 0%nat)
        then with_equiv_relation (equiv_relation p ++ [[]]) p
        else p in
      if show_combine_buckets_warning p
      then mkProgress (equiv_relation p) false
             (log p ++ [combine_buckets_warning]) (num_states_to_go p) (rng p)
      else p in
  e ← insert_into_back bucket (equiv_relation p);
  Some (with_equiv_relation e p).

(** The branch in which groups are combined at random until the budget
    of the bucket is met.  The loop removes one group in each run, so that
    it takes fewer runs than the bucket has states. *)
Definition combine_groups (fuel : nat) (bucket : Bucket)
    (budget_for_this_bucket : Z) (p : Progress) : option Progress :=
  let groups := singletons bucket in
  if (budget_for_this_bucket >=? 2)
     && (budget_for_this_bucket <? to_int (Z.of_nat (length groups)))
  then
    '(groups, rng) ←
      combine_loop (length groups) fuel (rng p) groups budget_for_this_bucket;
    Some (mkProgress (equiv_relation p ++ groups)
            (show_combine_buckets_warning p) (log p) (num_states_to_go p) rng)
  else None.

(** The body of the loop over the buckets.  [remaining_state_budget -
    num_states_to_go] is computed in [size_t] and converted to [int]. *)
Definition bucket_step (num_buckets : nat) (target_size : Z) (fuel : nat)
    (bucket_no : nat) (bucket : Bucket) (p : Progress) : option Progress :=
  let states_used_up := to_int (Z.of_nat (length (equiv_relation p))) in
  remaining_state_budget ← int_sub target_size states_used_up;
  let p :=
    mkProgress (equiv_relation p) (show_combine_buckets_warning p) (log p)
      (to_size_t (num_states_to_go p - Z.of_nat (length bucket))) (rng p) in
  let budget_for_this_bucket :=
    to_int (to_size_t (remaining_state_budget - num_states_to_go p)) in
  if budget_for_this_bucket >=? to_int (Z.of_nat (length bucket)) then
    Some (with_equiv_relation (equiv_relation p ++ singletons bucket) p)
  else if budget_for_this_bucket <=? 1 then
    one_group num_buckets bucket_no bucket remaining_state_budget p
  else
    combine_groups fuel bucket budget_for_this_bucket p.

Fixpoint bucket_loop (num_buckets : nat) (target_size : Z) (fuel : nat)
    (bucket_no : nat) (buckets : list Bucket) (p : Progress)
  : option Progress :=
  match buckets with
  | [] => Some p
  | bucket :: rest =>
      p ← bucket_step num_buckets target_size fuel bucket_no bucket p;
      bucket_loop num_buckets target_size fuel (S bucket_no) rest p
  end.

(** [ShrinkBucketBased::compute_abstraction].  [reserve] throws
    [length_error] for a negative [target_size], which it receives as a
    [size_t] beyond [max_size()].  The result is the equivalence relation,
    what was written to the log, and the generator. *)
Definition compute_abstraction (buckets : list Bucket) (target_size : Z)
    (fuel : nat) (rng0 : Rng)
  : option (StateEquivalenceRelation * list string * Rng) :=
  if target_size <? 0 then None
  else
    let num_states_to_go :=
      foldl (λ n bucket, to_size_t (n + Z.of_nat (length bucket))) 0 buckets in
    p ← bucket_loop (length buckets) target_size fuel 0 buckets
          (mkProgress [] true [] num_states_to_go rng0);
    Some (equiv_relation p, log p, rng p).

(** *** The states are neither lost nor duplicated *)

Lemma concat_singletons bucket : concat (singletons bucket) = bucket.
Proof.
  unfold singletons. induction bucket as [|s b IH]; simpl; [done|].
  f_equal. exact IH.
Qed.

Lemma length_singletons bucket : length (singletons bucket) = length bucket.
Proof. unfold singletons. by rewrite length_fmap. Qed.

Lemma insert_into_back_spec bucket : ∀ e e',
  insert_into_back bucket e = Some e' →
  concat e' ≡ₚ concat e ++ bucket ∧ length e' = length e.
Proof.
  induction e as [|group rest IH]; intros e' He; [done|].
  simpl in He. destruct rest as [|group' rest'].
  - simplify_eq. simpl. rewrite !app_nil_r. split; [|done].
    apply Permutation_app_comm.
  - destruct (insert_into_back bucket (group' :: rest')) as [e1|] eqn:He1;
      [|done].
    simpl in He. simplify_eq.
    destruct (IH e1 eq_refl) as [Hperm Hlen].
    split; [|simpl in *; lia].
    change (concat (group :: e1)) with (group ++ concat e1).
    change (concat (group :: group' :: rest'))
      with (group ++ concat (group' :: rest')).
    by rewrite Hperm, (assoc_L (++)).
Qed.

Lemma insert_into_back_is_Some bucket e :
  e ≠ [] → is_Some (insert_into_back bucket e).
Proof.
  induction e as [|group rest IH]; intros He; [done|].
  simpl. destruct rest as [|group' rest']; [by eexists|].
  destruct IH as [e1 He1]; [done|]. rewrite He1. by eexists.
Qed.

(** Writing [x] over the entry [y] of a list of groups. *)
Lemma replace_concat (l : list (list Z)) : ∀ i x y,
  l !! i = Some y → concat (<[i := x]> l) ++ y ≡ₚ x ++ concat l.
Proof.
  induction l as [|a l IH]; intros i x y Hy; [done|].
  destruct i as [|i]; simpl in *.
  - simplify_eq. rewrite <- (assoc_L (++)). f_equiv. apply Permutation_app_comm.
  - rewrite <- (assoc_L (++)), (IH i x y Hy), !(assoc_L (++)).
    f_equiv. apply Permutation_app_comm.
Qed.

Lemma swap_concat (l : list (list Z)) i j x y :
  l !! i = Some x → l !! j = Some y →
  concat (<[j := x]> (<[i := y]> l)) ≡ₚ concat l.
Proof.
  intros Hx Hy. destruct (decide (i = j)) as [->|Hne].
  - assert (x = y) as -> by congruence.
    rewrite (list_insert_id l j y) by done.
    by rewrite list_insert_id.
  - pose proof (replace_concat l i y x Hx) as H1.
    assert (Hy' : <[i := y]> l !! j = Some y).
    { by rewrite list_lookup_insert_ne. }
    pose proof (replace_concat _ j x y Hy') as H2.
    apply (Permutation_app_inv_r (y ++ x)).
    rewrite (assoc_L (++)), H2, <- (assoc_L (++)), H1.
    rewrite (assoc_L (++)), (Permutation_app_comm x y).
    apply Permutation_app_comm.
Qed.

Lemma combine_spec groups it1 it2 groups' :
  it1 ≠ it2 →
  combine groups it1 it2 = Some groups' →
  concat groups' ≡ₚ concat groups ∧ S (length groups') = length groups.
Proof.
  intros Hne Hc. unfold combine in Hc.
  destruct (groups !! it1) as [g1|] eqn:H1; [|done]. simpl in Hc.
  destruct (groups !! it2) as [g2|] eqn:H2; [|done]. simpl in Hc.
  set (l1 := <[it2 := []]> (<[it1 := g2 ++ g1]> groups)) in *.
  assert (Hlen1 : length l1 = length groups).
  { unfold l1. by rewrite !length_insert. }
  assert (Hperm1 : concat l1 ≡ₚ concat groups).
  { pose proof (replace_concat groups it1 (g2 ++ g1) g1 H1) as Ha.
    assert (H2' : <[it1 := g2 ++ g1]> groups !! it2 = Some g2).
    { by rewrite list_lookup_insert_ne. }
    pose proof (replace_concat _ it2 [] g2 H2') as Hb.
    apply (Permutation_app_inv_r (g2 ++ g1)).
    unfold l1. rewrite (assoc_L (++)), Hb. simpl. rewrite Ha.
    apply Permutation_app_comm. }
  destruct (l1 !! it2) as [x|] eqn:Hx; [|done]. simpl in Hc.
  destruct (l1 !! (length l1 - 1)%nat) as [y|] eqn:Hy; [|done]. simpl in Hc.
  set (l2 := <[(length l1 - 1)%nat := x]> (<[it2 := y]> l1)) in *.
  assert (Hlen2 : length l2 = length l1).
  { unfold l2. by rewrite !length_insert. }
  assert (Hperm2 : concat l2 ≡ₚ concat l1) by (by apply swap_concat).
  destruct (l2 !! (length l1 - 1)%nat) as [b|] eqn:Hb; [|done]. simpl in Hc.
  case_decide; [|done]. simplify_eq.
  assert (Hpos : (0 < length l1)%nat).
  { apply lookup_lt_Some in Hx. lia. }
  assert (Hsplit : l2 = take (length l1 - 1) l2 ++ [[]]).
  { rewrite <- (take_S_r l2 (length l1 - 1) [] Hb).
    rewrite take_ge; [done|lia]. }
  split.
  - rewrite <- Hperm1, <- Hperm2. rewrite Hsplit at 2.
    by rewrite concat_app, app_nil_r.
  - rewrite length_take. lia.
Qed.

Lemma combine_is_Some groups it1 it2 :
  it1 ≠ it2 → (it1 < length groups)%nat → (it2 < length groups)%nat →
  is_Some (combine groups it1 it2).
Proof.
  intros Hne Hlt1 Hlt2. unfold combine.
  destruct (lookup_lt_is_Some_2 groups it1 Hlt1) as [g1 ->].
  destruct (lookup_lt_is_Some_2 groups it2 Hlt2) as [g2 ->]. simpl.
  set (l1 := <[it2 := []]> (<[it1 := g2 ++ g1]> groups)).
  assert (Hlen1 : length l1 = length groups).
  { unfold l1. by rewrite !length_insert. }
  assert (Hx : l1 !! it2 = Some []).
  { unfold l1. apply list_lookup_insert_eq. by rewrite length_insert. }
  rewrite Hx. simpl.
  destruct (lookup_lt_is_Some_2 l1 (length l1 - 1)) as [y Hy]; [lia|].
  rewrite Hy. simpl.
  assert (Hb : <[(length l1 - 1)%nat := []]> (<[it2 := y]> l1)
               !! (length l1 - 1)%nat = Some []).
  { apply list_lookup_insert_eq. rewrite length_insert. lia. }
  rewrite Hb. simpl. by eexists.
Qed.

Lemma choose_spec rng0 groups it rng1 :
  choose rng0 groups = Some (it, rng1) → (it < length groups)%nat.
Proof.
  unfold choose. destruct (random rng0 (length groups)) as [i r].
  case_decide; [|done]. by intros [= <- <-].
Qed.

Lemma choose_other_spec fuel : ∀ rng0 groups it1 it2 rng1,
  choose_other fuel rng0 groups it1 = Some (it2, rng1) →
  it1 ≠ it2 ∧ (it2 < length groups)%nat.
Proof.
  induction fuel as [|fuel IH]; intros rng0 groups it1 it2 rng1 Hc; [done|].
  simpl in Hc.
  destruct (choose rng0 groups) as [[i r]|] eqn:Hchoose; [|done].
  simpl in Hc. case_decide.
  - by eapply IH.
  - simplify_eq. split; [done|]. by eapply choose_spec.
Qed.

Lemma combine_loop_spec iterations fuel budget : ∀ rng0 groups groups' rng1,
  combine_loop iterations fuel rng0 groups budget = Some (groups', rng1) →
  concat groups' ≡ₚ concat groups
  ∧ (length groups' ≤ length groups)%nat
  ∧ to_int (Z.of_nat (length groups')) ≤ budget.
Proof.
  induction iterations as [|n IH]; intros rng0 groups groups' rng1 Hc;
    [done|].
  simpl in Hc.
  destruct (_ >? _) eqn:Hcmp.
  - destruct (choose rng0 groups) as [[it1 r1]|] eqn:H1; [|done].
    simpl in Hc.
    destruct (choose_other fuel r1 groups it1) as [[it2 r2]|] eqn:H2;
      [|done].
    simpl in Hc.
    destruct (combine groups it1 it2) as [groups1|] eqn:H3; [|done].
    simpl in Hc.
    destruct (choose_other_spec _ _ _ _ _ _ H2) as [Hne _].
    destruct (combine_spec _ _ _ _ Hne H3) as [Hperm Hlen].
    destruct (IH _ _ _ _ Hc) as (Hperm' & Hlen' & Hbudget).
    split_and!; [by rewrite Hperm'|lia|done].
  - simplify_eq. split_and!; [done|done|lia].
Qed.

Definition log_consistent (p : Progress) : Prop :=
  (show_combine_buckets_warning p = true ∧ log p = [])
  ∨ (show_combine_buckets_warning p = false
     ∧ log p = [combine_buckets_warning]).

Lemma bucket_step_spec num_buckets target_size fuel bucket_no bucket p p' :
  bucket_step num_buckets target_size fuel bucket_no bucket p = Some p' →
  concat (equiv_relation p') ≡ₚ concat (equiv_relation p) ++ bucket
  ∧ (log_consistent p → log_consistent p').
Proof.
  unfold bucket_step.
  destruct (int_sub _ _) as [remaining|]; [|done]. simpl.
  destruct (_ >=? _).
  { intros [= <-]. simpl. by rewrite concat_app, concat_singletons. }
  destruct (_ <=? _).
  - unfold one_group.
    set (p1 := if _ >=? _ then _ else _).
    destruct (insert_into_back bucket (equiv_relation p1)) as [e|] eqn:He;
      [|done].
    simpl. intros [= <-]. simpl.
    destruct (insert_into_back_spec _ _ _ He) as [Hperm _].
    assert (Hp1 : concat (equiv_relation p1) = concat (equiv_relation p)
                  ∧ (log_consistent p → log_consistent p1)).
    { unfold p1. destruct (_ >=? _); simpl.
      - rewrite concat_app. simpl. by rewrite app_nil_r.
      - assert (Hpush :
          concat (equiv_relation
                    (if decide (bucket_no = 0%nat)
                     then with_equiv_relation (equiv_relation p ++ [[]])
                            (mkProgress (equiv_relation p)
                               (show_combine_buckets_warning p) (log p)
                               (to_size_t (num_states_to_go p
                                           - Z.of_nat (length bucket)))
                               (rng p))
                     else mkProgress (equiv_relation p)
                            (show_combine_buckets_warning p) (log p)
                            (to_size_t (num_states_to_go p
                                        - Z.of_nat (length bucket)))
                            (rng p)))
          = concat (equiv_relation p)).
        { case_decide; simpl; [|done].
          rewrite concat_app. simpl. by rewrite app_nil_r. }
        destruct (decide (bucket_no = 0%nat)); simpl in *;
          destruct (show_combine_buckets_warning p) eqn:Hshow; simpl;
          (split; [done|]);
          unfold log_consistent; simpl; rewrite ?Hshow;
          intros [[? Hlog]|[? Hlog]]; try done; rewrite ?Hlog; eauto. }
    destruct Hp1 as [Hc1 Hlog1]. split; [by rewrite Hperm, Hc1|].
    intros Hlog. specialize (Hlog1 Hlog). done.
  - unfold combine_groups. destruct (_ && _); [|done].
    destruct (combine_loop _ _ _ _ _) as [[groups r]|] eqn:Hloop; [|done].
    simpl. intros [= <-]. simpl.
    destruct (combine_loop_spec _ _ _ _ _ _ _ Hloop) as (Hperm & _ & _).
    split; [|done].
    by rewrite concat_app, Hperm, concat_singletons.
Qed.

Lemma bucket_loop_spec num_buckets target_size fuel : ∀ buckets bucket_no p p',
  bucket_loop num_buckets target_size fuel bucket_no buckets p = Some p' →
  concat (equiv_relation p') ≡ₚ concat (equiv_relation p) ++ concat buckets
  ∧ (log_consistent p → log_consistent p').
Proof.
  induction buckets as [|bucket rest IH]; intros bucket_no p p' Hrun.
  - simpl in Hrun. simplify_eq. simpl. by rewrite app_nil_r.
  - simpl in Hrun.
    destruct (bucket_step _ _ _ _ _ _) as [p1|] eqn:Hstep; [|done].
    simpl in Hrun.
    destruct (bucket_step_spec _ _ _ _ _ _ _ Hstep) as [Hperm1 Hlog1].
    destruct (IH _ _ _ Hrun) as [Hperm Hlog].
    split; [|by auto].
    simpl. by rewrite Hperm, Hperm1, (assoc_L (++)).
Qed.

(** X16.  Whatever the generator draws, a relation that
    [compute_abstraction] returns contains every state of the buckets as
    often as the buckets do, so that no state is lost and none is put into
    two groups; and the log holds the warning about combined buckets at
    most once. *)
Theorem compute_abstraction_partitions
    (buckets : list Bucket) (target_size : Z) (fuel : nat) (rng0 : Rng)
    (equiv : StateEquivalenceRelation) (messages : list string) (rng1 : Rng) :
  compute_abstraction buckets target_size fuel rng0
  = Some (equiv, messages, rng1) →
  concat equiv ≡ₚ concat buckets
  ∧ (messages = [] ∨ messages = [combine_buckets_warning]).
Proof.
  unfold compute_abstraction. destruct (_ <? _); [done|].
  destruct (bucket_loop _ _ _ _ _ _) as [p|] eqn:Hrun; [|done].
  simpl. intros [= <- <- <-].
  destruct (bucket_loop_spec _ _ _ _ _ _ _ Hrun) as [Hperm Hlog].
  split; [done|].
  destruct Hlog as [[_ ->]|[_ ->]]; [by left|by left|by right].
Qed.

(** *** The target size is met *)

Lemma to_int_small x : -2147483648 ≤ x ≤ 2147483647 → to_int x = x.
Proof. intros Hx. unfold to_int. rewrite Z.mod_small; lia. Qed.

Lemma to_int_to_size_t x : to_int (to_size_t x) = to_int x.
Proof.
  unfold to_int, to_size_t.
  rewrite (Z.mod_eq x 18446744073709551616) by done.
  replace (x - 18446744073709551616 * (x / 18446744073709551616) + 2147483648)
    with (x + 2147483648
          + (- 4294967296 * (x / 18446744073709551616)) * 4294967296) by lia.
  by rewrite Z_mod_plus_full.
Qed.

Lemma to_size_t_small x :
  0 ≤ x ≤ 2147483647 → to_size_t x = x.
Proof. intros Hx. unfold to_size_t. rewrite Z.mod_small; lia. Qed.

Lemma states_counted (buckets : list Bucket) : ∀ n,
  0 ≤ n →
  n + Z.of_nat (length (concat buckets)) ≤ 2147483647 →
  foldl (λ n bucket, to_size_t (n + Z.of_nat (length bucket))) n buckets
  = n + Z.of_nat (length (concat buckets)).
Proof.
  induction buckets as [|bucket rest IH]; intros n Hn Hsum; simpl in *;
    [lia|].
  rewrite length_app in Hsum.
  rewrite to_size_t_small by lia. rewrite IH by lia.
  rewrite length_app. lia.
Qed.

Section Totality.
Variable fuel : nat.
Hypothesis random_in_range :
  ∀ rng0 n, (0 < n)%nat → ((random rng0 n).1 < n)%nat.
Hypothesis choose_other_ends :
  ∀ rng0 groups it1,
    (2 ≤ length groups)%nat → is_Some (choose_other fuel rng0 groups it1).

Lemma choose_is_Some rng0 groups :
  groups ≠ [] → is_Some (choose rng0 groups).
Proof using random_in_range.
  intros Hne. unfold choose.
  pose proof (random_in_range rng0 (length groups)) as Hlt.
  destruct (random rng0 (length groups)) as [it r]. simpl in Hlt.
  rewrite decide_True; [by eexists|].
  apply Hlt. destruct groups; [done|simpl; lia].
Qed.

Lemma combine_loop_is_Some budget : ∀ iterations rng0 groups,
  2 ≤ budget →
  Z.of_nat (length groups) ≤ 2147483647 →
  (0 < iterations)%nat →
  Z.of_nat (length groups) - budget < Z.of_nat iterations →
  is_Some (combine_loop iterations fuel rng0 groups budget).
Proof using random_in_range choose_other_ends.
  induction iterations as [|n IH]; intros rng0 groups Hbudget Hsmall Hpos Hn;
    [lia|].
  simpl. rewrite to_int_small by lia.
  destruct (_ >? _) eqn:Hcmp; [|by eexists].
  apply Z.gtb_lt in Hcmp.
  destruct (choose_is_Some rng0 groups) as [[it1 r1] H1].
  { destruct groups; [simpl in Hcmp; lia|done]. }
  rewrite H1. simpl.
  destruct (choose_other_ends r1 groups it1) as [[it2 r2] H2]; [lia|].
  rewrite H2. simpl.
  destruct (choose_other_spec _ _ _ _ _ _ H2) as [Hne Hlt2].
  destruct (combine_is_Some groups it1 it2) as [groups1 H3];
    [done|by eapply choose_spec|done|].
  rewrite H3. simpl.
  destruct (combine_spec _ _ _ _ Hne H3) as [_ Hlen].
  apply IH; lia.
Qed.

(** What holds before the bucket with number [bucket_no] is treated,
    [rest] being that bucket and the ones after it. *)
Record on_track (num_buckets : nat) (target_size : Z) (rest : list Bucket)
    (bucket_no : nat) (p : Progress) : Prop := {
  states_to_go :
    num_states_to_go p = Z.of_nat (length (concat rest));
  states_to_go_small : Z.of_nat (length (concat rest)) ≤ 2147483647;
  buckets_to_go : (bucket_no + length rest = num_buckets)%nat;
  groups_within_target :
    Z.of_nat (length (equiv_relation p)) ≤ Z.max target_size 1;
  starts_empty : bucket_no = 0%nat → equiv_relation p = [];
  empty_with_budget :
    equiv_relation p = [] →
    bucket_no = 0%nat ∨ Z.of_nat (length (concat rest)) ≤ target_size
}.

Lemma bucket_step_on_track num_buckets target_size bucket_no bucket rest p :
  0 ≤ target_size ≤ 2147483647 →
  Z.of_nat num_buckets ≤ 2147483647 →
  on_track num_buckets target_size (bucket :: rest) bucket_no p →
  ∃ p', bucket_step num_buckets target_size fuel bucket_no bucket p = Some p'
        ∧ on_track num_buckets target_size rest (S bucket_no) p'.
Proof using random_in_range choose_other_ends.
  intros Htarget Hbuckets [Hgo Hsmall Hcount Hused Hfirst Hempty].
  simpl in Hgo, Hsmall, Hcount, Hempty. rewrite length_app in Hgo, Hsmall, Hempty.
  unfold bucket_step.
  set (used := Z.of_nat (length (equiv_relation p))) in *.
  set (to_go := Z.of_nat (length (concat rest))) in *.
  set (size := Z.of_nat (length bucket)) in *.
  assert (Hnat : 0 ≤ used ∧ 0 ≤ to_go ∧ 0 ≤ size) by lia.
  rewrite (to_int_small used) by lia.
  unfold int_sub. rewrite decide_True by lia. simpl.
  rewrite Hgo.
  replace (Z.of_nat (length bucket + length (concat rest)) - size)
    with to_go by lia.
  rewrite (to_size_t_small to_go) by lia.
  rewrite to_int_to_size_t, (to_int_small (target_size - used - to_go)) by lia.
  rewrite (to_int_small size) by lia.
  destruct (_ >=? _) eqn:Hsingles.
  { rewrite Z.geb_leb in Hsingles. apply Z.leb_le in Hsingles.
    eexists. split; [done|].
    split; simpl; fold to_go; rewrite ?length_app, ?length_singletons;
      try done; try lia; try (intros _; right; lia). }
  rewrite Z.geb_leb in Hsingles. apply Z.leb_gt in Hsingles.
  destruct (_ <=? _) eqn:Hone.
  - apply Z.leb_le in Hone. unfold one_group.
    rewrite to_int_to_size_t, to_int_small by lia.
    set (p1 := if _ >=? _ then _ else _).
    assert (Hp1 : equiv_relation p1 ≠ []
                  ∧ Z.of_nat (length (equiv_relation p1))
                    ≤ Z.max target_size 1
                  ∧ num_states_to_go p1 = to_go).
    { unfold p1. destruct (_ >=? _) eqn:Hpush.
      - rewrite Z.geb_leb in Hpush. apply Z.leb_le in Hpush. simpl.
        split_and!; [by destruct (equiv_relation p)| |done].
        rewrite length_app. simpl. lia.
      - destruct (decide (bucket_no = 0%nat)) as [Hzero|Hnonzero].
        + specialize (Hfirst Hzero).
          assert (Hnil : used = 0) by (unfold used; by rewrite Hfirst).
          destruct (show_combine_buckets_warning _); simpl;
            (split_and!; [by destruct (equiv_relation p)| |done]);
            rewrite length_app; simpl; lia.
        + assert (Hne : equiv_relation p ≠ []).
          { intros Hnil. destruct (Hempty Hnil) as [?|Hle]; [done|].
            assert (used = 0) by (unfold used; by rewrite Hnil). lia. }
          destruct (show_combine_buckets_warning _); simpl;
            by split_and!. }
    destruct Hp1 as (Hne1 & Hused1 & Hgo1).
    destruct (insert_into_back_is_Some bucket _ Hne1) as [e He].
    rewrite He. simpl. eexists. split; [done|].
    destruct (insert_into_back_spec _ _ _ He) as [_ Hlen].
    split; simpl; fold to_go; try done; try lia.
    intros ->. simpl in Hlen. by destruct (equiv_relation p1).
  - apply Z.leb_gt in Hone. unfold combine_groups.
    rewrite length_singletons. fold size. rewrite (to_int_small size) by lia.
    assert (Hcheck : (target_size - used - to_go >=? 2)
                     && (target_size - used - to_go <? size) = true).
    { apply andb_true_iff. split; [rewrite Z.geb_leb; apply Z.leb_le|
                                   apply Z.ltb_lt]; lia. }
    rewrite Hcheck.
    destruct (combine_loop_is_Some (target_size - used - to_go)
                (length bucket) (rng p) (singletons bucket))
      as [[groups r] Hloop]; rewrite ?length_singletons; try lia.
    simpl. rewrite Hloop. simpl. eexists. split; [done|].
    destruct (combine_loop_spec _ _ _ _ _ _ _ Hloop) as (_ & Hlen & Hbudget).
    rewrite length_singletons in Hlen.
    rewrite to_int_small in Hbudget by lia.
    split; simpl; fold to_go; rewrite ?length_app;
      try done; try lia; try (intros _; right; lia).
Qed.

Lemma bucket_loop_on_track num_buckets target_size : ∀ rest bucket_no p,
  0 ≤ target_size ≤ 2147483647 →
  Z.of_nat num_buckets ≤ 2147483647 →
  on_track num_buckets target_size rest bucket_no p →
  ∃ p', bucket_loop num_buckets target_size fuel bucket_no rest p = Some p'
        ∧ Z.of_nat (length (equiv_relation p')) ≤ Z.max target_size 1.
Proof using random_in_range choose_other_ends.
  induction rest as [|bucket rest IH]; intros bucket_no p Htarget Hbuckets Hp.
  - exists p. split; [done|]. by destruct Hp.
  - destruct (bucket_step_on_track _ _ _ _ _ _ Htarget Hbuckets Hp)
      as (p1 & Hstep & Hp1).
    simpl. rewrite Hstep. simpl. by apply IH.
Qed.

(** X17.  For a target size that is an [int] and not negative, and
    buckets that have no more than [INT_MAX] states and are no more than
    [INT_MAX], [compute_abstraction] meets no undefined operation and
    returns a relation of at most [target_size] groups, or of one group
    when [target_size] is 0: provided that the generator draws positions
    of the vector it is given, and that within [fuel] draws a position
    other than the first one turns up. *)
Theorem compute_abstraction_meets_target_size
    (buckets : list Bucket) (target_size : Z) (rng0 : Rng) :
  0 ≤ target_size ≤ 2147483647 →
  Z.of_nat (length (concat buckets)) ≤ 2147483647 →
  Z.of_nat (length buckets) ≤ 2147483647 →
  ∃ equiv messages rng1,
    compute_abstraction buckets target_size fuel rng0
    = Some (equiv, messages, rng1)
    ∧ Z.of_nat (length equiv) ≤ Z.max target_size 1.
Proof using random_in_range choose_other_ends.
  intros Htarget Hstates Hbuckets. unfold compute_abstraction.
  assert (Hneg : (target_size <? 0) = false) by (apply Z.ltb_ge; lia).
  rewrite Hneg. rewrite states_counted by lia.
  destruct (bucket_loop_on_track (length buckets) target_size buckets 0%nat
              (mkProgress [] true [] (0 + Z.of_nat (length (concat buckets)))
                 rng0)) as (p & Hrun & Hlen); [done|done| |].
  { split; simpl; try done; try lia; by left. }
  rewrite Hrun. simpl. by eexists _, _, _.
Qed.

End Totality.

(** *** A target size that suffices *)

Lemma bucket_loop_singletons num_buckets target_size fuel :
  ∀ rest bucket_no p,
    target_size ≤ 2147483647 →
    num_states_to_go p = Z.of_nat (length (concat rest)) →
    Z.of_nat (length (equiv_relation p)) + Z.of_nat (length (concat rest))
    ≤ target_size →
    ∃ p', bucket_loop num_buckets target_size fuel bucket_no rest p = Some p'
          ∧ equiv_relation p'
            = equiv_relation p ++ singletons (concat rest)
          ∧ log p' = log p
          ∧ rng p' = rng p.
Proof.
  induction rest as [|bucket rest IH]; intros bucket_no p Htarget Hgo Hsum.
  - exists p. simpl. by rewrite app_nil_r.
  - simpl in *. rewrite length_app in Hgo, Hsum.
    unfold bucket_step.
    set (used := Z.of_nat (length (equiv_relation p))) in *.
    set (to_go := Z.of_nat (length (concat rest))) in *.
    set (size := Z.of_nat (length bucket)) in *.
    assert (Hnat : 0 ≤ used ∧ 0 ≤ to_go ∧ 0 ≤ size) by lia.
    rewrite (to_int_small used) by lia.
    unfold int_sub. rewrite decide_True by lia. simpl.
    rewrite Hgo.
    replace (Z.of_nat (length bucket + length (concat rest)) - size)
      with to_go by lia.
    rewrite (to_size_t_small to_go) by lia.
    rewrite to_int_to_size_t, (to_int_small (target_size - used - to_go))
      by lia.
    rewrite (to_int_small size) by lia.
    assert (Hsingles : (target_size - used - to_go >=? size) = true).
    { rewrite Z.geb_leb. apply Z.leb_le. lia. }
    rewrite Hsingles. simpl.
    destruct (IH (S bucket_no)
                (with_equiv_relation (equiv_relation p ++ singletons bucket)
                   (mkProgress (equiv_relation p)
                      (show_combine_buckets_warning p) (log p) to_go (rng p))))
      as (p' & Hrun & He & Hlog & Hrng); [done|done| |].
    { simpl. rewrite length_app, length_singletons. lia. }
    exists p'. split; [done|]. simpl in He, Hlog, Hrng.
    split_and!; [|done|done].
    rewrite He. unfold singletons. by rewrite fmap_app, (assoc_L (++)).
Qed.

(** X18.  When the target size is at least the number of states (and an
    [int]), [compute_abstraction] returns one group for each state, in the
    order of the buckets, writes nothing to the log and does not use the
    generator. *)
Theorem compute_abstraction_keeps_states_apart
    (buckets : list Bucket) (target_size : Z) (fuel : nat) (rng0 : Rng) :
  Z.of_nat (length (concat buckets)) ≤ target_size ≤ 2147483647 →
  compute_abstraction buckets target_size fuel rng0
  = Some (singletons (concat buckets), [], rng0).
Proof.
  intros Htarget. unfold compute_abstraction.
  assert (Hneg : (target_size <? 0) = false) by (apply Z.ltb_ge; lia).
  rewrite Hneg. rewrite states_counted by lia.
  destruct (bucket_loop_singletons (length buckets) target_size fuel buckets
              0%nat
              (mkProgress [] true [] (0 + Z.of_nat (length (concat buckets)))
                 rng0)) as (p & Hrun & He & Hlog & Hrng);
    [lia|simpl; lia|simpl; lia|].
  rewrite Hrun. simpl in *. by rewrite He, Hlog, Hrng.
Qed.

End Abstraction.

(** *** A generator and a run *)

(** A generator that draws the first and the last position in turn. *)
Definition alternating (rng0 : bool) (n : nat) : nat * bool :=
  (if rng0 then 0%nat else (n - 1)%nat, negb rng0).

Example five_states_three_groups :
  compute_abstraction alternating [[1; 2; 3; 4]; [5]] 3 2 true
  = Some ([[3; 4; 1]; [2]; [5]], [], true)
  ∧ compute_abstraction alternating [[1; 2; 3; 4]; [5]] 1 2 true
    = Some ([[5; 1; 2; 3; 4]], [combine_buckets_warning], true)
  ∧ compute_abstraction alternating [[1; 2; 3; 4]; [5]] (-1) 2 true = None.
Proof. vm_compute. done. Qed.

Lemma alternating_in_range rng0 n :
  (0 < n)%nat → ((alternating rng0 n).1 < n)%nat.
Proof. intros Hn. destruct rng0; simpl; lia. Qed.

Lemma alternating_other rng0 groups it1 :
  (2 ≤ length groups)%nat →
  is_Some (choose_other alternating 2 rng0 groups it1).
Proof.
  intros Hlen. unfold choose_other, choose.
  destruct rng0; simpl; repeat (case_decide; simpl); try lia; by eexists.
Qed.

Lemma compute_abstraction_partitions_witness :
  concat [[3; 4; 1]; [2]; [5]] ≡ₚ concat [[1; 2; 3; 4]; [5]]
  ∧ (@nil string = [] ∨ [] = [combine_buckets_warning]).
Proof.
  apply (compute_abstraction_partitions alternating
           [[1; 2; 3; 4]; [5]] 3 2 true [[3; 4; 1]; [2]; [5]] [] true).
  vm_compute. reflexivity.
Defined.

Lemma compute_abstraction_meets_target_size_witness :
  ∃ equiv messages rng1,
    compute_abstraction alternating [[1; 2; 3; 4]; [5]] 3 2 true
    = Some (equiv, messages, rng1)
    ∧ Z.of_nat (length equiv) ≤ Z.max 3 1.
Proof.
  apply (compute_abstraction_meets_target_size alternating 2
           alternating_in_range alternating_other [[1; 2; 3; 4]; [5]] 3 true);
    simpl; lia.
Defined.

Lemma compute_abstraction_keeps_states_apart_witness :
  compute_abstraction alternating [[1; 2; 3; 4]; [5]] 5 2 true
  = Some (singletons (concat [[1; 2; 3; 4]; [5]]), [], true).
Proof.
  apply (compute_abstraction_keeps_states_apart alternating
           [[1; 2; 3; 4]; [5]] 5 2 true).
  simpl. lia.
Defined.

End ShrinkBucketBased.
